(** * A shallow embedding of the bundler fuzzer (src/index.ts)

    The trial generator, the import resolver, the reachability analysis, the
    failure classifier and the reproduction archive of [src/index.ts],
    translated function by function, followed by the properties of the
    specification that concern them. *)

From Stdlib Require Import Ascii String Arith Lia.
From stdpp Require Import base option list strings gmap.

Local Open Scope string_scope.
Local Open Scope list_scope.
Local Open Scope nat_scope.

(** ** JavaScript primitives used by the program *)

(** What a call can throw: [unwrap] (of @vortexjs/common) on [undefined], and
    the [Error] that [categorizeError] raises, which carries its message. *)
Inductive exn : Type :=
  | UnwrapFailed
  | UnknownCategory (message : string).

Inductive result (A : Type) : Type :=
  | Ok (a : A)
  | Throw (e : exn).
Arguments Ok {A} a.
Arguments Throw {A} e.

(** [Math.random] is the only source of nondeterminism.  It is modelled by an
    explicit list of draws: each call consumes one draw [r], and
    [Math.floor (Math.random () * k)] is read as [r mod k].  An exhausted list
    reads as the draw 0. *)
Definition Entropy : Type := list nat.

(** Computations that draw random numbers and may throw. *)
Definition M (A : Type) : Type := Entropy → result (A * Entropy).

Definition ret {A} (a : A) : M A := λ e, Ok (a, e).
Definition throw {A} (x : exn) : M A := λ _, Throw x.
Definition bind {A B} (m : M A) (k : A → M B) : M B :=
  λ e, match m e with
       | Ok (a, e') => k a e'
       | Throw x => Throw x
       end.

Notation "'let*' x ':=' m 'in' k" := (bind m (λ x, k))
  (at level 10, x name, m at level 100, k at level 200).

Definition draw : M nat :=
  λ e, match e with
       | [] => Ok (0, [])
       | r :: e' => Ok (r, e')
       end.

(** [random(min, max)]: [Math.floor(Math.random() * (max - min + 1)) + min].
    The program only calls it with [min <= max + 1]; for [max = min - 1] both
    the program and the model return [min].  The arithmetic of the program is
    on JavaScript numbers: the model is exact for [min <= max + 1] and
    [max < 2^53], which covers the calls of the program (ranges within 0..5
    and indices of arrays). *)
Definition random (min max : nat) : M nat :=
  let* r := draw in ret (r mod (max - min + 1) + min).

(** [for (const _i of repeat(times)) body], and [for (const x of xs) body]:
    the loop body transforms the state the loop mutates. *)
Fixpoint forOf {A S} (body : A → S → M S) (xs : list A) (s : S) : M S :=
  match xs with
  | [] => ret s
  | x :: xs' => let* s' := body x s in forOf body xs' s'
  end.

Definition repeat (times : nat) : list nat := seq 0 times.

(** [pick(...items)]: [unwrap(items[random(0, items.length - 1)])]. *)
Definition unwrap {T} (v : option T) : M T :=
  match v with
  | Some x => ret x
  | None => throw UnwrapFailed
  end.

Definition pick {T} (items : list T) : M T :=
  let* i := random 0 (length items - 1) in unwrap (items !! i).

(** [Array.prototype.includes] on an array of strings. *)
Definition includes (xs : list string) (x : string) : bool :=
  bool_decide (x ∈ xs).

(** [Number.prototype.toString(36)] on a non-negative integer: the digits
    [0-9a-z], most significant first, no leading zero.  The counter it is
    applied to is a JavaScript number; it is exact below 2^53 and a trial
    allocates at most 30 identifiers, so it is modelled by [nat]. *)
Definition digit36 (d : nat) : ascii :=
  ascii_of_nat (if d <? 10 then 48 + d else 87 + d).

(** Digits of [n] in base 36, least significant first. *)
Fixpoint digits36 (fuel n : nat) : list nat :=
  match fuel with
  | 0 => []
  | S fuel' => if n <? 36 then [n] else n mod 36 :: digits36 fuel' (n / 36)
  end.

Definition toString36 (n : nat) : string :=
  string_of_list_ascii (reverse (digit36 <$> digits36 (S n) n)).

(** ** The data model *)

Record TrialExport : Type := {
  importedFrom : string;
  name : string;
}.

Inductive Means : Type := Static | Dynamic.

(** [TaggedTrialExport = TrialExport & { means }]. *)
Record TaggedTrialExport : Type := {
  untagged :> TrialExport;
  means : Means;
}.

(** [TrialModule]; its [type] field is the constant ["ecma"] and is left out. *)
Record TrialModule : Type := {
  id : string;
  originals : list string;
  imports : list TaggedTrialExport;
  sideEffects : list string;
  exports : list TrialExport;
}.

(** The fields of [class Trial] that planning reads and writes.  [trialId] is
    the field [id] (a UUID from the runtime); the paths derived from it are
    left out. *)
Record Trial : Type := {
  trialId : string;
  entrypoints : list TrialModule;
  modules : list TrialModule;
  internalIdIncrementor : nat;
}.

Definition newTrial (uuid : string) : Trial :=
  {| trialId := uuid; entrypoints := []; modules := []; internalIdIncrementor := 0 |}.

Definition setModules (ms : list TrialModule) (t : Trial) : Trial :=
  {| trialId := trialId t; entrypoints := entrypoints t; modules := ms;
     internalIdIncrementor := internalIdIncrementor t |}.

Definition setEntrypoints (es : list TrialModule) (t : Trial) : Trial :=
  {| trialId := trialId t; entrypoints := es; modules := modules t;
     internalIdIncrementor := internalIdIncrementor t |}.

Definition pushOriginal (e : TrialExport) (m : TrialModule) : TrialModule :=
  {| id := id m; originals := originals m ++ [name e]; imports := imports m;
     sideEffects := sideEffects m; exports := exports m ++ [e] |}.

Definition pushImport (i : TaggedTrialExport) (m : TrialModule) : TrialModule :=
  {| id := id m; originals := originals m; imports := imports m ++ [i];
     sideEffects := sideEffects m; exports := exports m |}.

Definition pushExport (e : TrialExport) (m : TrialModule) : TrialModule :=
  {| id := id m; originals := originals m; imports := imports m;
     sideEffects := sideEffects m; exports := exports m ++ [e] |}.

Definition pushSideEffect (s : string) (m : TrialModule) : TrialModule :=
  {| id := id m; originals := originals m; imports := imports m;
     sideEffects := sideEffects m ++ [s]; exports := exports m |}.

(** ** Planning: the four generation passes and the entrypoint choice *)

(** [getInternalId]: the identifier and the trial with its counter advanced.
    The counter of the program is a JavaScript number, which [++] advances
    only while it is below 2^53; the model is exact up to there (a planned
    trial stops at 30). *)
Definition getInternalId (t : Trial) : string * Trial :=
  ("e" +:+ toString36 (internalIdIncrementor t),
   {| trialId := trialId t; entrypoints := entrypoints t; modules := modules t;
      internalIdIncrementor := S (internalIdIncrementor t) |}).

Definition emptyModule (i : string) : TrialModule :=
  {| id := i; originals := []; imports := []; sideEffects := []; exports := [] |}.

Definition seedInitialModules (t : Trial) : M Trial :=
  let* n := random 2 5 in
  forOf (λ _ t,
           let '(i, t) := getInternalId t in
           ret (setModules (modules t ++ [emptyModule i]) t))
        (repeat n) t.

(** [for (const module of this.modules)]: the array keeps its length during
    every pass, and a module object is mutated in place, so the loop runs over
    the indices and each body reads and writes the module at its index in the
    current trial. *)
Definition forModules (body : nat → Trial → M Trial) (t : Trial) : M Trial :=
  forOf body (seq 0 (length (modules t))) t.

Definition addOriginalExport (i : nat) (t : Trial) : Trial :=
  match modules t !! i with
  | None => t
  | Some module =>
      let '(n, t) := getInternalId t in
      let exp := {| importedFrom := id module; name := "export_" +:+ n |} in
      setModules (<[i := pushOriginal exp module]> (modules t)) t
  end.

Definition addOriginalExports (t : Trial) : M Trial :=
  forModules (λ i t,
      let* k := random 1 5 in
      forOf (λ _ t, ret (addOriginalExport i t)) (repeat k) t) t.

(** [importIntoModule]: the binding name, and the target module as the call
    leaves it. *)
Definition importIntoModule (exported : TrialExport) (targetModule : TrialModule)
  : M (string * TrialModule) :=
  match find (λ existingImport : TaggedTrialExport,
                String.eqb (name existingImport) (name exported))
             (imports targetModule) with
  | Some existingImport => ret (name existingImport, targetModule)
  | None =>
      if includes (originals targetModule) (name exported)
      then ret (name exported, targetModule)
      else
        let* mode := pick [Static; Dynamic] in
        let taggedExport := {| untagged := exported; means := mode |} in
        ret (name taggedExport, pushImport taggedExport targetModule)
  end.

Definition pickRandomExport (t : Trial) : M TrialExport :=
  let allExports := flat_map exports (modules t) in
  pick allExports.

(** One iteration of the inner loop of [addReExports] for the module at
    index [i]. *)
Definition addReExport (i : nat) (t : Trial) : M Trial :=
  match modules t !! i with
  | None => ret t
  | Some module =>
      let* imp := pickRandomExport t in
      if includes (originals module) (name imp) then ret t
      else
        let* r := importIntoModule imp module in
        let '(n, module) := r in
        let module := pushExport {| importedFrom := id module; name := n |} module in
        ret (setModules (<[i := module]> (modules t)) t)
  end.

Definition addReExports (t : Trial) : M Trial :=
  forModules (λ i t,
      let* k := random 0 5 in
      forOf (λ _ t, addReExport i t) (repeat k) t) t.

(** One iteration of the inner loop of [addSideEffects]. *)
Definition addSideEffect (i : nat) (t : Trial) : M Trial :=
  match modules t !! i with
  | None => ret t
  | Some module =>
      let* imp := pickRandomExport t in
      if includes (originals module) (name imp) then ret t
      else
        let* r := importIntoModule imp module in
        let '(n, module) := r in
        let module := pushSideEffect n module in
        ret (setModules (<[i := module]> (modules t)) t)
  end.

Definition addSideEffects (t : Trial) : M Trial :=
  forModules (λ i t,
      let* k := random 0 5 in
      forOf (λ _ t, addSideEffect i t) (repeat k) t) t.

(** [this.modules.sort(() => Math.random() - 0.5)].  The sorting algorithm is
    the runtime's; it is modelled by an insertion sort that asks the
    comparator for every comparison.  The comparator ignores its arguments:
    it answers "first before second" when its draw is even. *)
Definition randomComparator : M bool :=
  let* r := draw in ret (r mod 2 =? 0).

Fixpoint insertShuffled {T} (x : T) (sorted : list T) : M (list T) :=
  match sorted with
  | [] => ret [x]
  | y :: sorted' =>
      let* before := randomComparator in
      if before then ret (x :: y :: sorted')
      else let* rest := insertShuffled x sorted' in ret (y :: rest)
  end.

Fixpoint sortShuffled {T} (xs : list T) : M (list T) :=
  match xs with
  | [] => ret []
  | x :: xs' => let* sorted := sortShuffled xs' in insertShuffled x sorted
  end.

(** [chooseEntrypoints]: the sort is in place, so [modules] is reordered too;
    [slice(0, n)] is [take n]. *)
Definition chooseEntrypoints (t : Trial) : M Trial :=
  let* shuffledModules := sortShuffled (modules t) in
  let t := setModules shuffledModules t in
  let* numEntrypoints := random 1 (min 3 (length shuffledModules)) in
  ret (setEntrypoints (take numEntrypoints shuffledModules) t).

(** Phase 1 of [run]: the four generation passes, then the entrypoints. *)
Definition generate (t : Trial) : M Trial :=
  let* t := seedInitialModules t in
  let* t := addOriginalExports t in
  let* t := addReExports t in
  addSideEffects t.

Definition plan (t : Trial) : M Trial :=
  let* t := generate t in
  chooseEntrypoints t.

(** ** Reachability: [analyzeSideEffects] *)

(** [Set.prototype.add] on a [Set<string>], kept in insertion order. *)
Definition setAdd (x : string) (s : list string) : list string :=
  if includes s x then s else s ++ [x].

(** The state the recursion shares: the array [traced] and the set
    [effects], both mutated in place and passed to every recursive call. *)
Definition Analysis : Type := list string * list string.

Fixpoint forEach {A S} (body : A → S → option S) (xs : list A) (s : S) : option S :=
  match xs with
  | [] => Some s
  | x :: xs' => match body x s with
                | Some s' => forEach body xs' s'
                | None => None
                end
  end.

(** [analyzeSideEffects(id, traced, effects)].  [depth] bounds the nesting of
    calls that enter a module (the two early returns need none); [None] means
    the bound was too small. *)
Fixpoint analyzeSideEffects (depth : nat) (t : Trial) (i : string) (st : Analysis)
  : option Analysis :=
  let '(traced, effects) := st in
  match find (λ m, String.eqb (id m) i) (modules t) with
  | None => Some (traced, effects)
  | Some module =>
      if includes traced (id module) then Some (traced, effects)
      else
        match depth with
        | 0 => None
        | S depth' =>
            let traced := traced ++ [id module] in
            match forEach (λ sideEffect '(traced, effects),
                             analyzeSideEffects depth' t sideEffect
                               (traced, setAdd sideEffect effects))
                          (sideEffects module) (traced, effects) with
            | None => None
            | Some st' =>
                forEach (λ imp : TaggedTrialExport,
                           analyzeSideEffects depth' t (importedFrom imp))
                        (imports module) st'
            end
        end
  end.

(** The call of [run]: [this.analyzeSideEffects(id)], with a fresh [traced]
    and a fresh [effects]; the result is the [effects] set. *)
Definition expectedEffects (t : Trial) (i : string) : option (list string) :=
  snd <$> analyzeSideEffects (length (modules t)) t i ([], []).

(** ** Classifying a failure and keeping the smallest reproduction *)

(** [String.prototype.toLowerCase], on text whose code units are ASCII. *)
Definition lowerAscii (c : ascii) : ascii :=
  let n := nat_of_ascii c in
  if (65 <=? n) && (n <=? 90) then ascii_of_nat (n + 32) else c.

Fixpoint toLowerCase (s : string) : string :=
  match s with
  | EmptyString => EmptyString
  | String c s' => String (lowerAscii c) (toLowerCase s')
  end.

(** [s.includes(sub)]: [sub] occurs in [s] at some position. *)
Fixpoint stringIncludes (s sub : string) : bool :=
  String.prefix sub s ||
  match s with
  | EmptyString => false
  | String _ s' => stringIncludes s' sub
  end.

Definition categories : list string :=
  ["duplicate"; "cannot find module"; "is not a function"; "expected side effect"].

(** [categorizeError(err)]; [err] is the text [`${err}`]. *)
Definition categorizeError (err : string) : result string :=
  let realErr := err in
  match find (λ category, stringIncludes (toLowerCase realErr) category) categories with
  | Some category => Ok category
  | None => Throw (UnknownCategory ("Unknown error category for: " +:+ realErr))
  end.

(** [join("./repros", category + ".md")]. *)
Definition reproPath (category : string) : string :=
  "repros/" +:+ category +:+ ".md".

(** Lines 341-351 of [run]: read the stored reproduction of the category (a
    failed read is caught and ignored), return when it is shorter than the new
    one, write the new one otherwise.  The files are a map from path to
    text. *)
Definition retainRepro (category repro : string) (files : gmap string string)
  : gmap string string :=
  match files !! reproPath category with
  | Some currentRepro =>
      if String.length currentRepro <? String.length repro then files
      else <[reproPath category := repro]> files
  | None => <[reproPath category := repro]> files
  end.

(** The [catch] block of [run] for the error text [err] and the reproduction
    document [repro] that [generateReproduction] built for it: the outcome of
    the block and the files afterwards. *)
Definition recordFailure (err repro : string) (files : gmap string string)
  : result () * gmap string string :=
  match categorizeError err with
  | Throw x => (Throw x, files)
  | Ok category => (Ok (), retainRepro category repro files)
  end.


(** ** Notions used in the statements *)

(** [sub] occurs in [s]: the meaning of [s.includes(sub)]. *)
Definition occursIn (sub s : string) : Prop :=
  ∃ pre post, s = pre +:+ sub +:+ post.

(** The upper-case letters and the lower-case letters, in the order of the
    alphabet. *)
Definition upperLetters : list ascii :=
  list_ascii_of_string "ABCDEFGHIJKLMNOPQRSTUVWXYZ".

Definition lowerLetters : list ascii :=
  list_ascii_of_string "abcdefghijklmnopqrstuvwxyz".

(** [lowerOf c c']: [c'] is [c] in lower case.  An upper-case letter becomes
    the lower-case letter at the same place of the alphabet; any other
    character stays as it is. *)
Definition lowerOf (c c' : ascii) : Prop :=
  (∃ k, upperLetters !! k = Some c ∧ lowerLetters !! k = Some c') ∨
  ((c ∉ upperLetters) ∧ c' = c).

(** [lowerCased s low]: [low] is the text [s] in lower case, character by
    character: the meaning of [s.toLowerCase()] on ASCII text. *)
Definition lowerCased (s low : string) : Prop :=
  Forall2 lowerOf (list_ascii_of_string s) (list_ascii_of_string low).

(** A text of [n] code units, for the examples. *)
Definition textOfLength (n : nat) : string :=
  string_of_list_ascii (replicate n "x"%char).

(** The modules that a traversal with visited list [traced] can still enter. *)
Definition untraced (t : Trial) (traced : list string) : nat :=
  length (filter (λ m, id m ∉ traced) (modules t)).

Definition allSideEffects (t : Trial) : list string :=
  flat_map sideEffects (modules t).

(** What one call of [analyzeSideEffects] may do to the shared state: it
    keeps [traced] and [effects] free of repetitions and only adds side
    effects of the trial's modules to [effects]. *)
Definition analysisStep (t : Trial) (st st' : Analysis) : Prop :=
  (NoDup st.1 → NoDup st'.1) ∧
  (NoDup st.2 → NoDup st'.2) ∧
  (∀ x, x ∈ st'.2 → x ∈ st.2 ∨ x ∈ allSideEffects t).

(** The identifiers [getInternalId] hands out, by counter value, and the
    export names built from them. *)
Definition moduleId (k : nat) : string := "e" +:+ toString36 k.
Definition exportName (k : nat) : string := "export_" +:+ moduleId k.

(** The number a list of base-36 digits (least significant first) denotes. *)
Definition fromDigits36 (ds : list nat) : nat :=
  foldr (λ d acc, d + 36 * acc) 0 ds.

(** The characters [0-9a-z]. *)
Definition isBase36 (c : ascii) : bool :=
  let n := nat_of_ascii c in
  ((48 <=? n) && (n <=? 57)) || ((97 <=? n) && (n <=? 122)).

(** [always m Q]: whatever the draws, [m] returns (it does not throw) and its
    result satisfies [Q]. *)
Definition always {A} (m : M A) (Q : A → Prop) : Prop :=
  ∀ e, ∃ a e', m e = Ok (a, e') ∧ Q a.

(** [ensures m Q]: whenever [m] returns, its result satisfies [Q]. *)
Definition ensures {A} (m : M A) (Q : A → Prop) : Prop :=
  ∀ e a e', m e = Ok (a, e') → Q a.

Definition allOriginals (t : Trial) : list string :=
  flat_map originals (modules t).

Definition allExports (t : Trial) : list TrialExport :=
  flat_map exports (modules t).

Definition importNames (m : TrialModule) : list string :=
  (λ b : TaggedTrialExport, name b) <$> imports m.

(** No binding of the module has the name of one of its originals. *)
Definition noSelfImport (m : TrialModule) : Prop :=
  ∀ b : TaggedTrialExport, b ∈ imports m → name b ∉ originals m.

(** What the passes maintain for a module, [names] being the originals of
    the whole trial. *)
Record moduleOk (names : list string) (m : TrialModule) : Prop := {
  ok_exports : ∀ x, x ∈ exports m → name x ∈ names;
  ok_hasExport : exports m ≠ [];
  ok_imports : ∀ b : TaggedTrialExport, b ∈ imports m → name b ∈ names;
  ok_noSelfImport : noSelfImport m;
  ok_importNames : NoDup (importNames m);
  ok_sideEffects : ∀ s, s ∈ sideEffects m → s ∈ names;
}.

(** What the passes maintain for the trial, from the end of the
    original-exports pass on. *)
Record wellFormed (t : Trial) : Prop := {
  wf_count : 2 ≤ length (modules t) ≤ 5;
  wf_ids : ∀ m, m ∈ modules t → ∃ k, id m = moduleId k;
  wf_idsNoDup : NoDup (id <$> modules t);
  wf_originals : ∀ o, o ∈ allOriginals t → ∃ k, o = exportName k;
  wf_originalsNoDup : NoDup (allOriginals t);
  wf_modules : ∀ m, m ∈ modules t → moduleOk (allOriginals t) m;
}.

(** From [t] to [t'] the modules kept their places, ids and originals, and
    every [imports] list only got longer at its end: no binding was removed
    or rewritten. *)
Definition grows (t t' : Trial) : Prop :=
  length (modules t') = length (modules t) ∧
  ∀ k m, modules t !! k = Some m →
         ∃ m', modules t' !! k = Some m' ∧ id m' = id m ∧
               originals m' = originals m ∧
               imports m `prefix_of` imports m'.

(** The trial as [seedInitialModules] leaves it. *)
Definition seeded (t : Trial) : Prop :=
  ∃ n, 2 ≤ n ≤ 5 ∧
       modules t = (λ k, emptyModule (moduleId k)) <$> seq 0 n ∧
       internalIdIncrementor t = n.

(** The trial during the original-exports pass. *)
Record originalsOnly (t : Trial) : Prop := {
  oo_count : 2 ≤ length (modules t) ≤ 5;
  oo_shape : ∀ k m, modules t !! k = Some m →
               id m = moduleId k ∧ imports m = [] ∧ sideEffects m = [] ∧
               exports m =
                 (λ o, {| importedFrom := id m; name := o |}) <$> originals m;
  oo_names : ∀ o, o ∈ allOriginals t →
               ∃ j, j < internalIdIncrementor t ∧ o = exportName j;
  oo_NoDup : NoDup (allOriginals t);
}.

Definition hasOriginal (t : Trial) (k : nat) : Prop :=
  ∃ m, modules t !! k = Some m ∧ originals m ≠ [].

(** The common shape of one iteration of [addReExports] and of
    [addSideEffects]: [push n module] is the last statement, which records
    the binding name [n] in the module. *)
Definition attempt (push : string → TrialModule → TrialModule)
    (i : nat) (t : Trial) : M Trial :=
  match modules t !! i with
  | None => ret t
  | Some module =>
      let* imp := pickRandomExport t in
      if includes (originals module) (name imp) then ret t
      else
        let* r := importIntoModule imp module in
        let '(n, module) := r in
        ret (setModules (<[i := push n module]> (modules t)) t)
  end.

(** The last statement of an iteration of [addReExports]. *)
Definition recordReExport (n : string) (m : TrialModule) : TrialModule :=
  pushExport {| importedFrom := id m; name := n |} m.

(** [analyzeSideEffects] with the recursive call on each side-effect name
    removed (the side effect is still added to [effects]): the variant that
    the reachability analysis is compared with. *)
Fixpoint analyzeImportsOnly (depth : nat) (t : Trial) (i : string) (st : Analysis)
  : option Analysis :=
  let '(traced, effects) := st in
  match find (λ m, String.eqb (id m) i) (modules t) with
  | None => Some (traced, effects)
  | Some module =>
      if includes traced (id module) then Some (traced, effects)
      else
        match depth with
        | 0 => None
        | S depth' =>
            let traced := traced ++ [id module] in
            match forEach (λ sideEffect '(traced, effects),
                             Some (traced, setAdd sideEffect effects))
                          (sideEffects module) (traced, effects) with
            | None => None
            | Some st' =>
                forEach (λ imp : TaggedTrialExport,
                           analyzeImportsOnly depth' t (importedFrom imp))
                        (imports module) st'
            end
        end
  end.

(** No two export entries of the trial have the same name. *)
Definition exportNamesUnique (t : Trial) : Prop :=
  NoDup (name <$> allExports t).

Definition allModules (P : TrialModule → Prop) (t : Trial) : Prop :=
  ∀ m, m ∈ modules t → P m.

(** Two modules that import each other, each calling the other's export. *)
Definition cyclicTrial : Trial :=
  {| trialId := "cycle";
     entrypoints := [];
     modules :=
       [ {| id := "e0"; originals := ["export_e2"];
            imports := [ {| untagged := {| importedFrom := "e1"; name := "export_e3" |};
                            means := Static |} ];
            sideEffects := ["export_e3"];
            exports := [ {| importedFrom := "e0"; name := "export_e2" |} ] |};
         {| id := "e1"; originals := ["export_e3"];
            imports := [ {| untagged := {| importedFrom := "e0"; name := "export_e2" |};
                            means := Dynamic |} ];
            sideEffects := ["export_e2"];
            exports := [ {| importedFrom := "e1"; name := "export_e3" |} ] |} ];
     internalIdIncrementor := 4 |}.

(** ** Notions used in the further properties *)

(** [this.modules.find((m) => m.id === id)]. *)
Definition moduleOf (t : Trial) (i : string) : option TrialModule :=
  find (λ m, String.eqb (id m) i) (modules t).

(** The ids on which [analyzeSideEffects] calls itself for module [m]: its
    side-effect names, then the [importedFrom] of its bindings. *)
Definition callees (m : TrialModule) : list string :=
  sideEffects m ++ ((λ imp : TaggedTrialExport, importedFrom imp) <$> imports m).

(** [calls t i j]: the id [i] has a module, and the analysis of that module
    calls itself on [j]. *)
Definition calls (t : Trial) (i j : string) : Prop :=
  ∃ m, moduleOf t i = Some m ∧ j ∈ callees m.

(** All callees of [m] that have a module are in [traced]. *)
Definition closedIn (t : Trial) (traced : list string) (m : TrialModule) : Prop :=
  ∀ k, k ∈ callees m → is_Some (moduleOf t k) → k ∈ traced.

(** From [st] to [st'] both lists grew; every id that joined [traced] has a
    module, reachable from [root], whose callees are traced and whose side
    effects are in [effects]; every name that joined [effects] is a side
    effect of a module reachable from [root]. *)
Definition extends (t : Trial) (root : string) (st st' : Analysis) : Prop :=
  st.1 ⊆ st'.1 ∧ st.2 ⊆ st'.2 ∧
  (∀ j, j ∈ st'.1 → j ∉ st.1 →
        ∃ m, moduleOf t j = Some m ∧ closedIn t st'.1 m ∧
             sideEffects m ⊆ st'.2 ∧ rtc (calls t) root j) ∧
  (∀ x, x ∈ st'.2 → x ∉ st.2 →
        ∃ j m, rtc (calls t) root j ∧ moduleOf t j = Some m ∧
               x ∈ sideEffects m).

(** Recording the documents [docs] for one category, one after the other:
    lines 341-351 of [run] in as many failing runs. *)
Definition recordAll (category : string) (docs : list string)
    (files : gmap string string) : gmap string string :=
  foldl (λ fs repro, retainRepro category repro fs) files docs.

(** The double quote, as a one-character string. *)
Definition dquote : string := String "034"%char "".

(** The string that the verification loop of [run] throws for [effect]. *)
Definition missingEffectMessage (effect uuid : string) : string :=
  "Expected side effect " +:+ dquote +:+ effect +:+ dquote +:+
  " not found in traces for " +:+ uuid +:+ ".".

(** The loop [for (const effect of expectedSideEffects)] of [run]: [None]
    when it ends, the thrown string otherwise. *)
Definition verifyEffects (uuid : string) (expected sideEffects : list string)
  : option string :=
  match find (λ effect, negb (includes sideEffects effect)) expected with
  | Some effect => Some (missingEffectMessage effect uuid)
  | None => None
  end.

(** What loading the built entrypoint did: it threw (the text of the error),
    or it completed and left [globalThis.traces]. *)
Inductive Execution : Type :=
  | Crashed (err : string)
  | Completed (traces : gmap string (list string)).

(** The [try] block of [run]: the text of the error caught, if any.
    [globalThis.traces[this.id] ?? []] reads the trace of the trial. *)
Definition tryExecute (t : Trial) (expected : list string) (exec : Execution)
  : option string :=
  match exec with
  | Crashed err => Some err
  | Completed traces =>
      verifyEffects (trialId t) expected (default [] (traces !! trialId t))
  end.

(** [run] from phase 4 on, for a planned trial whose build succeeded.  The
    execution of the bundle and the reproduction document that
    [generateReproduction] builds for an error text are given.  The branch
    for a missing analysis result is never taken (the analysis returns). *)
Definition verifyAndRecord (t : Trial) (exec : Execution)
    (repro : string → string) (files : gmap string string)
  : result () * gmap string string :=
  match head (entrypoints t) with
  | None => (Throw UnwrapFailed, files)
  | Some entry =>
      match expectedEffects t (id entry) with
      | None => (Ok (), files)
      | Some expectedSideEffects =>
          match tryExecute t expectedSideEffects exec with
          | None => (Ok (), files)
          | Some err => recordFailure err (repro err) files
          end
      end
  end.

(** 2^53: up to it the non-negative integers are JavaScript numbers, and
    below it adding one is exact. *)
Definition twoTo53 : N := 2 ^ 53.

(** [n] successive calls of [getInternalId]: the identifiers, in order, and
    the trial afterwards. *)
Fixpoint allocate (n : nat) (t : Trial) : list string * Trial :=
  match n with
  | 0 => ([], t)
  | S n' => let '(i, t') := getInternalId t in
            let '(rest, t'') := allocate n' t' in
            (i :: rest, t'')
  end.

(** Every name that the module invokes or exports is one it defines or
    imports: a side effect is the name of a binding, an export entry is
    attributed to the module and carries the name of an original or of a
    binding. *)
Record bound (m : TrialModule) : Prop := {
  bound_sideEffects : ∀ s, s ∈ sideEffects m → s ∈ importNames m;
  bound_exports : ∀ x, x ∈ exports m →
                    importedFrom x = id m ∧
                    (name x ∈ originals m ∨ name x ∈ importNames m);
}.

(** Every binding comes from another module of the trial, one that has an
    export entry of that name. *)
Definition linked (t : Trial) : Prop :=
  ∀ (m : TrialModule) (b : TaggedTrialExport),
    m ∈ modules t → b ∈ imports m →
    importedFrom b ≠ id m ∧
    ∃ m', m' ∈ modules t ∧ id m' = importedFrom b ∧
          name b ∈ name <$> exports m'.

(** How much one step may add to the four lists of a module. *)
Record Growth : Type := {
  gOriginals : nat;
  gSideEffects : nat;
  gImports : nat;
  gExports : nat;
}.

(** From [t] to [t'] the module at every index [k] grew by at most [c k]
    steps of size [g]; steps that add no original leave the originals and the
    counter as they were. *)
Definition grewBy (g : Growth) (c : nat → nat) (t t' : Trial) : Prop :=
  length (modules t') = length (modules t) ∧
  (gOriginals g = 0 → internalIdIncrementor t' = internalIdIncrementor t) ∧
  ∀ k m, modules t !! k = Some m →
    ∃ m', modules t' !! k = Some m' ∧
          (gOriginals g = 0 → originals m' = originals m) ∧
          length (originals m') ≤ length (originals m) + gOriginals g * c k ∧
          length (sideEffects m') ≤ length (sideEffects m) + gSideEffects g * c k ∧
          length (imports m') ≤ length (imports m) + gImports g * c k ∧
          length (exports m') ≤ length (exports m) + gExports g * c k.

(** The counter counts the modules and the originals. *)
Definition counted (t : Trial) : Prop :=
  internalIdIncrementor t = length (modules t) + length (allOriginals t).

(** The sizes of a module of a planned trial. *)
Definition sized (m : TrialModule) : Prop :=
  1 ≤ length (originals m) ≤ 5 ∧
  length (sideEffects m) ≤ 5 ∧
  length (imports m) ≤ 10 ∧
  length (exports m) ≤ 10.

(** [importsFrom t i j]: the module with id [i] has a binding from [j]. *)
Definition importsFrom (t : Trial) (i j : string) : Prop :=
  ∃ (m : TrialModule) (b : TaggedTrialExport),
    m ∈ modules t ∧ id m = i ∧ b ∈ imports m ∧ importedFrom b = j.

(** ** The source emitter *)

Definition backslash : string := String "092"%char "".
Definition tab : string := String "009"%char "".
Definition newline : string := String "010"%char "".

(** [JSON.stringify] of a string whose code units are ASCII: the quote and
    the backslash are escaped with a backslash, the control characters below
    space as [\b], [\t], [\n], [\f], [\r] or as [\u00] and two
    hexadecimal digits, everything else is copied; the whole is put between
    quotes. *)
Definition jsonEscape (c : ascii) : string :=
  let n := nat_of_ascii c in
  if n =? 34 then backslash +:+ dquote
  else if n =? 92 then backslash +:+ backslash
  else if n =? 8 then backslash +:+ "b"
  else if n =? 9 then backslash +:+ "t"
  else if n =? 10 then backslash +:+ "n"
  else if n =? 12 then backslash +:+ "f"
  else if n =? 13 then backslash +:+ "r"
  else if n <? 32
       then backslash +:+ "u00" +:+
            String (digit36 (n / 16)) (String (digit36 (n mod 16)) "")
  else String c "".

Fixpoint jsonEscapeAll (s : string) : string :=
  match s with
  | EmptyString => EmptyString
  | String c s' => jsonEscape c +:+ jsonEscapeAll s'
  end.

Definition jsonStringify (s : string) : string :=
  dquote +:+ jsonEscapeAll s +:+ dquote.

(** [Array.prototype.join]. *)
Fixpoint join (sep : string) (xs : list string) : string :=
  match xs with
  | [] => ""
  | x :: xs' =>
      match xs' with
      | [] => x
      | _ :: _ => x +:+ sep +:+ join sep xs'
      end
  end.

(** [[...new Set(names)]]: the names in the order of their first
    occurrence. *)
Definition dedupe (names : list string) : list string :=
  foldl (λ set n, setAdd n set) [] names.

Definition originalLines (t : Trial) (original : string) : list string :=
  [ "function " +:+ original +:+ "() {";
    tab +:+ "globalThis.traces[" +:+ jsonStringify (trialId t) +:+ "] ??= []";
    tab +:+ "globalThis.traces[" +:+ jsonStringify (trialId t) +:+ "].push(" +:+
      jsonStringify original +:+ ")";
    "}" ].

Definition importLine (imp : TaggedTrialExport) : string :=
  match means imp with
  | Static =>
      "import { " +:+ name imp +:+ " } from " +:+
      jsonStringify ("./" +:+ importedFrom imp) +:+ ";"
  | Dynamic =>
      "const { " +:+ name imp +:+ " } = await import(" +:+
      jsonStringify ("./" +:+ importedFrom imp) +:+ ");"
  end.

Definition callLine (sideEffect : string) : string := sideEffect +:+ "();".

Definition exportLines (module : TrialModule) : list string :=
  match exports module with
  | [] => []
  | _ :: _ =>
      let deduplicated := dedupe (name <$> exports module) in
      [ "export { " +:+ join ", " deduplicated +:+ " };" ]
  end.

(** The array [lines] of [codegenModule] at its [return]. *)
Definition codegenLines (t : Trial) (module : TrialModule) : list string :=
  flat_map (originalLines t) (originals module) ++
  (importLine <$> imports module) ++
  (callLine <$> sideEffects module) ++
  exportLines module.

Definition codegenModule (t : Trial) (module : TrialModule) : string :=
  join newline (codegenLines t module).

(** ** The fleet *)


(** The program runs its code between two awaits without interruption, so a
    run of the fleet is a sequence of these steps: the [run] of a worker
    returned (the worker does [builds++] and starts the next trial), the
    [run] of a worker threw (its loop ends), the reporting loop woke up. *)
Inductive FleetEvent : Type := RunReturned | RunThrew | Report.

#[global] Instance FleetEvent_eq_dec : EqDecision FleetEvent.
Proof. solve_decision. Defined.





(** ** Writing the sources and the reproduction document *)

(** [join(this.pathCodegen, module.id + ".ts")], for a directory [dir]
    without a final slash and an id that is a plain file name (as the
    generated ids are), on which [join] has nothing to normalise. *)
Definition codegenPath (dir : string) (module : TrialModule) : string :=
  dir +:+ "/" +:+ id module +:+ ".ts".

(** Phase 2 of [run]: the files after all the writes. *)
Definition writeSources (dir : string) (t : Trial) (files : gmap string string)
  : gmap string string :=
  foldl (λ fs module, <[codegenPath dir module := codegenModule t module]> fs)
        files (modules t).

(** [s.repeat(n)]. *)
Fixpoint stringRepeat (s : string) (n : nat) : string :=
  match n with
  | 0 => ""
  | S n' => s +:+ stringRepeat s n'
  end.

(** [text.split("\n")]. *)
Fixpoint splitNewline (text : string) : list string :=
  match text with
  | EmptyString => [""]
  | String c text' =>
      if Ascii.eqb c "010" then "" :: splitNewline text'
      else match splitNewline text' with
           | segment :: rest => String c segment :: rest
           | [] => [String c ""]
           end
  end.

(** The variables that the helpers of [generateReproduction] close over. *)
Record Writer : Type := {
  lines : list string;
  printedGap : bool;
  indentLevel : nat;
}.

(** The last two statements of [line]. *)
Definition pushLine (text : string) (w : Writer) : Writer :=
  {| lines := lines w ++ [stringRepeat "    " (indentLevel w) +:+ text];
     printedGap := false;
     indentLevel := indentLevel w |}.

(** [line(text)].  [fuel] bounds the nesting of the calls of [line] on the
    pieces of a text with line breaks; one level is all there is, since a
    piece has no line break. *)
Fixpoint lineFuel (fuel : nat) (text : string) (w : Writer) : Writer :=
  if stringIncludes text newline then
    match fuel with
    | 0 => w
    | S fuel' => foldl (λ w ln, lineFuel fuel' ln w) w (splitNewline text)
    end
  else pushLine text w.

Definition line (text : string) (w : Writer) : Writer := lineFuel 1 text w.

Definition gap (w : Writer) : Writer :=
  if printedGap w then w
  else {| lines := lines w ++ [""]; printedGap := true;
          indentLevel := indentLevel w |}.

Definition indent (w : Writer) : Writer :=
  {| lines := lines w; printedGap := printedGap w;
     indentLevel := indentLevel w + 1 |}.

Definition dedent (w : Writer) : Writer :=
  {| lines := lines w; printedGap := printedGap w;
     indentLevel := Nat.max 0 (indentLevel w - 1) |}.

(** The body of the loop over the modules in [generateReproduction]; the
    text of the module's file is read from [files], and a failed read ends
    the function ([None]). *)
Definition reproFile (dir : string) (files : gmap string string)
    (module : TrialModule) (w : Writer) : option Writer :=
  match files !! codegenPath dir module with
  | None => None
  | Some text =>
      let w := gap w in
      let w := line ("### " +:+ id module +:+ ".ts") w in
      let w := line "```typescript" w in
      let w := line text w in
      let w := line "```" w in
      Some (gap w)
  end.

(** The array [lines] of [generateReproduction(failure)] at its [return].
    [version] and [platform] are [Bun.version_with_sha] and
    [process.platform]. *)
Definition reproLines (t : Trial) (version platform dir : string)
    (files : gmap string string) (failure : string) : option (list string) :=
  let w := {| lines := []; printedGap := false; indentLevel := 0 |} in
  let w := line "# Bundler bug reproduction" w in
  let w := line "## Metadata" w in
  let w := gap w in
  let w := indent w in
  let w := line ("- Bun version: " +:+ version) w in
  let w := line ("- Platform: " +:+ platform) w in
  let w := gap w in
  let w := dedent w in
  let w := line "## Files" w in
  let w := gap w in
  let w := indent w in
  match forEach (reproFile dir files) (modules t) w with
  | None => None
  | Some w =>
      let w := dedent w in
      let w := gap w in
      let w := line "## Entrypoints" w in
      let w := gap w in
      let w := indent w in
      let w := foldl (λ w entrypoint, line ("- " +:+ id entrypoint +:+ ".ts") w)
                     w (entrypoints t) in
      let w := dedent w in
      let w := gap w in
      let w := line "## Failure" w in
      let w := indent w in
      let w := gap w in
      let w := line failure w in
      let w := dedent w in
      Some (lines w)
  end.

Definition generateReproduction (t : Trial) (version platform dir : string)
    (files : gmap string string) (failure : string) : option string :=
  join newline <$> reproLines t version platform dir files failure.

(** No two blank lines in a row. *)
Definition noDoubleBlank (l : list string) : Prop :=
  ∀ k, l !! k = Some "" → l !! S k ≠ Some "".

(** What the helpers of [generateReproduction] keep: no line has a line
    break, no two blank lines follow each other, and the last line is not
    blank unless [printedGap] says so. *)
Definition tidy (w : Writer) : Prop :=
  (∀ ln, ln ∈ lines w → stringIncludes ln newline = false) ∧
  noDoubleBlank (lines w) ∧
  (printedGap w = false → last (lines w) ≠ Some "").

(** The state of the writer at a point of [generateReproduction]: tidy, at
    indentation [n], with the title as first line. *)
Definition reached (n : nat) (w : Writer) : Prop :=
  tidy w ∧ indentLevel w = n ∧
  head (lines w) = Some "# Bundler bug reproduction".

(** [cyclicTrial] with its first module as the entrypoint. *)
Definition cyclicRun : Trial :=
  {| trialId := trialId cyclicTrial;
     entrypoints := take 1 (modules cyclicTrial);
     modules := modules cyclicTrial;
     internalIdIncrementor := internalIdIncrementor cyclicTrial |}.

(** * Properties *)

(** ** The program on concrete inputs *)

Example toString36_samples :
  toString36 <$> [0; 9; 10; 35; 36; 1295; 1296] =
  ["0"; "9"; "a"; "z"; "10"; "zz"; "100"].
Proof. vm_compute. reflexivity. Qed.

Example categorizeError_samples :
  categorizeError "error: Cannot find module './e1'" = Ok "cannot find module" ∧
  categorizeError "x is not a function (Duplicate export)" = Ok "duplicate" ∧
  categorizeError "out of memory" =
    Throw (UnknownCategory "Unknown error category for: out of memory").
Proof. repeat split; vm_compute; reflexivity. Qed.

Example analyzeSideEffects_on_a_cycle :
  analyzeSideEffects 2 cyclicTrial "e0" ([], []) =
    Some (["e0"; "e1"], ["export_e3"; "export_e2"]) ∧
  expectedEffects cyclicTrial "e1" = Some ["export_e2"; "export_e3"].
Proof. split; vm_compute; reflexivity. Qed.

Example generate_sample :
  ∃ t e, generate (newTrial "trial") [0; 0; 0; 1; 1] = Ok (t, e) ∧
         id <$> modules t = ["e0"; "e1"] ∧
         originals <$> modules t = [["export_e2"]; ["export_e3"]] ∧
         importNames <$> modules t = [["export_e3"]; []].
Proof. eexists _, _. repeat split; vm_compute; reflexivity. Qed.

(** ** Reasoning rules for the computations *)

Lemma always_ret {A} (a : A) (Q : A → Prop) : Q a → always (ret a) Q.
Proof. intros HQ e. exists a, e. split; [reflexivity | exact HQ]. Qed.

Lemma always_bind {A B} (m : M A) (k : A → M B) (P : A → Prop) (Q : B → Prop) :
  always m P → (∀ a, P a → always (k a) Q) → always (bind m k) Q.
Proof.
  intros Hm Hk e. destruct (Hm e) as (a & e1 & Hrun & HP).
  destruct (Hk a HP e1) as (b & e2 & Hrun2 & HQ).
  exists b, e2. unfold bind. rewrite Hrun. split; assumption.
Qed.

Lemma always_mono {A} (m : M A) (P Q : A → Prop) :
  always m P → (∀ a, P a → Q a) → always m Q.
Proof.
  intros Hm HPQ e. destruct (Hm e) as (a & e' & Hrun & HP).
  exists a, e'. split; [assumption | apply HPQ; assumption].
Qed.

(** The loop rule: the invariant may mention the elements already visited. *)
Lemma always_forOf {A S} (I : list A → S → Prop) (body : A → S → M S)
    (xs : list A) (s : S) :
  I [] s →
  (∀ done x s, I done s → always (body x s) (I (done ++ [x]))) →
  always (forOf body xs s) (I xs).
Proof.
  intros Hinit Hstep.
  enough (H : ∀ todo done s, I done s →
                always (forOf body todo s) (I (done ++ todo))).
  { exact (H xs [] s Hinit). }
  induction todo as [|x todo IH]; intros done s' Hs; simpl.
  - rewrite app_nil_r. apply always_ret. exact Hs.
  - eapply always_bind; [apply Hstep; exact Hs|].
    intros s'' Hs''. simpl.
    replace (done ++ x :: todo) with ((done ++ [x]) ++ todo)
      by (rewrite <- app_assoc; reflexivity).
    apply IH. exact Hs''.
Qed.

Lemma always_forOf_inv {A S} (I : S → Prop) (body : A → S → M S)
    (xs : list A) (s : S) :
  I s → (∀ x s, I s → always (body x s) I) → always (forOf body xs s) I.
Proof.
  intros Hinit Hstep.
  apply (always_forOf (λ _, I)); [exact Hinit | intros _ x s'; apply Hstep].
Qed.

Lemma always_random (lo hi : nat) :
  lo ≤ hi → always (random lo hi) (λ n, lo ≤ n ≤ hi).
Proof.
  intros Hle e. unfold random, bind, draw, ret.
  assert (Hmod : ∀ r, lo ≤ r mod (hi - lo + 1) + lo ≤ hi).
  { intros r. pose proof (Nat.mod_upper_bound r (hi - lo + 1)). lia. }
  destruct e as [|r e']; eexists _, _; (split; [reflexivity | apply Hmod]).
Qed.

Lemma always_pick {T} (items : list T) :
  items ≠ [] → always (pick items) (λ x, x ∈ items).
Proof.
  intros Hne. unfold pick.
  eapply always_bind; [apply (always_random 0 (length items - 1)); lia|].
  intros i [_ Hi]. simpl.
  assert (Hlt : i < length items).
  { destruct items; [congruence | simpl in *; lia]. }
  destruct (lookup_lt_is_Some_2 _ _ Hlt) as [x Hx].
  rewrite Hx. apply always_ret. eapply list_elem_of_lookup_2; eassumption.
Qed.

(** ** Facts about [find] *)

Lemma find_Some_first {A} (p : A → bool) (l : list A) (x : A) :
  find p l = Some x →
  ∃ i, l !! i = Some x ∧ p x = true ∧
       ∀ j y, j < i → l !! j = Some y → p y = false.
Proof.
  induction l as [|a l IH]; simpl; [discriminate|].
  destruct (p a) eqn:Hpa.
  - intros [= <-]. exists 0. repeat split; [assumption | intros; lia].
  - intros Hfind. destruct (IH Hfind) as (i & Hi & Hpx & Hbefore).
    exists (S i). repeat split; [assumption..|].
    intros [|j] y Hj; simpl; [intros [= <-]; assumption|].
    apply Hbefore. lia.
Qed.

Lemma find_None_all {A} (p : A → bool) (l : list A) :
  find p l = None ↔ ∀ x, x ∈ l → p x = false.
Proof.
  induction l as [|a l IH]; simpl.
  - split; [intros _ x Hx; inversion Hx | reflexivity].
  - destruct (p a) eqn:Hpa.
    + split; [discriminate|]. intros H.
      specialize (H a (list_elem_of_here _ _)). congruence.
    + rewrite IH. split.
      * intros H x Hx. inversion Hx; subst; auto.
      * intros H x Hx. apply H. constructor. exact Hx.
Qed.

Lemma find_app_None {A} (p : A → bool) (l1 l2 : list A) :
  find p l1 = None → find p (l1 ++ l2) = find p l2.
Proof.
  induction l1 as [|a l1 IH]; simpl; [reflexivity|].
  destruct (p a); [discriminate | exact IH].
Qed.

Lemma includes_true (xs : list string) (x : string) :
  includes xs x = true ↔ x ∈ xs.
Proof. unfold includes. apply bool_decide_eq_true. Qed.

Lemma includes_false (xs : list string) (x : string) :
  includes xs x = false ↔ x ∉ xs.
Proof. unfold includes. apply bool_decide_eq_false. Qed.

(** ** The import resolver *)

(** C3: importing the same export into the same module a second time returns
    the name the first call returned and leaves the module, hence its
    [imports] list, as the first call left it. *)
Theorem importIntoModule_idempotent
    (exported : TrialExport) (targetModule : TrialModule) (e : Entropy) :
  ∃ n m e',
    importIntoModule exported targetModule e = Ok ((n, m), e') ∧
    n = name exported ∧
    ∀ e2, importIntoModule exported m e2 = Ok ((n, m), e2).
Proof.
  unfold importIntoModule.
  destruct (find _ (imports targetModule)) as [existing|] eqn:Hfind.
  - exists (name existing), targetModule, e.
    pose proof Hfind as Hname.
    apply find_Some_first in Hname as (_ & _ & Heq & _).
    apply String.eqb_eq in Heq.
    repeat split; [assumption|]. intros e2. rewrite Hfind. reflexivity.
  - destruct (includes (originals targetModule) (name exported)) eqn:Horig.
    + exists (name exported), targetModule, e.
      repeat split. intros e2. rewrite Hfind, Horig. reflexivity.
    + destruct (always_pick [Static; Dynamic] ltac:(discriminate) e)
        as (mode & e' & Hpick & _).
      set (tagged := {| untagged := exported; means := mode |}).
      exists (name exported), (pushImport tagged targetModule), e'.
      unfold bind at 1. rewrite Hpick. repeat split.
      intros e2. simpl. rewrite (find_app_None _ _ _ Hfind). simpl.
      rewrite String.eqb_refl. reflexivity.
Qed.

(** ** The failure classifier and the archive *)

Lemma prefix_spec (sub s : string) :
  String.prefix sub s = true ↔ ∃ post, s = sub +:+ post.
Proof.
  revert s. induction sub as [|a sub IH]; intros s.
  - split; [intros _; exists s; reflexivity | intros _; destruct s; reflexivity].
  - destruct s as [|b s]; simpl; [split; [discriminate | intros [post [=]]]|].
    destruct (Ascii.ascii_dec a b) as [->|Hne].
    + rewrite IH. split; intros [post Hpost]; exists post.
      * simpl. rewrite Hpost. reflexivity.
      * simpl in Hpost. injection Hpost as ->. reflexivity.
    + split; [discriminate | intros [post [=]]; congruence].
Qed.

Lemma stringIncludes_spec (s sub : string) :
  stringIncludes s sub = true ↔ occursIn sub s.
Proof.
  unfold occursIn. induction s as [|c s IH]; cbn [stringIncludes].
  - rewrite orb_false_r, prefix_spec. split.
    + intros [post Hpost]. exists "", post. exact Hpost.
    + intros (pre & post & Heq). destruct pre; [|discriminate].
      exists post. exact Heq.
  - rewrite orb_true_iff, prefix_spec, IH. split.
    + intros [[post Hpost] | (pre & post & Heq)].
      * exists "", post. exact Hpost.
      * exists (String c pre), post. simpl. rewrite Heq. reflexivity.
    + intros (pre & post & Heq). destruct pre as [|c' pre]; simpl in Heq.
      * left. exists post. exact Heq.
      * right. exists pre, post. injection Heq as _ ->. reflexivity.
Qed.

Lemma stringIncludes_false (s sub : string) :
  stringIncludes s sub = false ↔ ¬ occursIn sub s.
Proof.
  rewrite <- stringIncludes_spec. destruct (stringIncludes s sub); split;
    congruence.
Qed.

Lemma lowerAscii_lowerOf (c : ascii) : lowerOf c (lowerAscii c).
Proof.
  destruct c as [[] [] [] [] [] [] [] []];
    first [ right; split; [apply (bool_decide_unpack _); vm_compute; exact I
                          | reflexivity]
          | left;
            match goal with
            | |- ∃ k, _ !! k = Some ?c ∧ _ =>
                exists (nat_of_ascii c - 65); split; reflexivity
            end ].
Qed.

Lemma lowerOf_unique (c c1 c2 : ascii) : lowerOf c c1 → lowerOf c c2 → c1 = c2.
Proof.
  assert (Hnd : NoDup upperLetters)
    by (apply (bool_decide_unpack _); vm_compute; exact I).
  intros [(k1 & Hu1 & Hl1) | [Hno1 ->]] [(k2 & Hu2 & Hl2) | [Hno2 ->]].
  - assert (k1 = k2) as -> by (eapply NoDup_lookup; eassumption).
    congruence.
  - exfalso. apply Hno2. eapply list_elem_of_lookup_2. exact Hu1.
  - exfalso. apply Hno1. eapply list_elem_of_lookup_2. exact Hu2.
  - reflexivity.
Qed.

Lemma toLowerCase_lowerCased (s : string) : lowerCased s (toLowerCase s).
Proof.
  unfold lowerCased. induction s as [|c s IH]; simpl.
  - constructor.
  - constructor; [apply lowerAscii_lowerOf | exact IH].
Qed.

Lemma lowerCased_unique (s low low' : string) :
  lowerCased s low → lowerCased s low' → low' = low.
Proof.
  unfold lowerCased. intros H H'.
  rewrite <- (string_of_list_ascii_of_string low),
          <- (string_of_list_ascii_of_string low').
  f_equal. revert H'.
  generalize (list_ascii_of_string low'). clear low'.
  induction H as [|c c1 l l1 Hc _ IH]; intros l' H'; inversion H'; subst.
  - reflexivity.
  - f_equal; [eapply lowerOf_unique; eassumption | apply IH; assumption].
Qed.

(** C5: the error text is lower-cased (every upper-case letter replaced by
    its lower-case letter, nothing else changed) and the categories are tried
    in the order duplicate, cannot find module, is not a function, expected
    side effect; the result is the first one that occurs in the lower-cased
    text.  When none occurs the classifier throws, the [catch] block of [run]
    ends with that error and the files are left as they were. *)
Theorem categorizeError_first_match (err : string) :
  categories =
    ["duplicate"; "cannot find module"; "is not a function";
     "expected side effect"] ∧
  ∃ low,
    lowerCased err low ∧
    (∀ low', lowerCased err low' → low' = low) ∧
    match categorizeError err with
    | Ok category =>
        ∃ i, categories !! i = Some category ∧
             occursIn category low ∧
             ∀ j earlier, j < i → categories !! j = Some earlier →
                          ¬ occursIn earlier low
    | Throw x =>
        x = UnknownCategory ("Unknown error category for: " +:+ err) ∧
        (∀ category, category ∈ categories → ¬ occursIn category low) ∧
        ∀ repro files, recordFailure err repro files = (Throw x, files)
    end.
Proof.
  split; [reflexivity|].
  exists (toLowerCase err).
  split; [apply toLowerCase_lowerCased|].
  split; [intros low'; apply lowerCased_unique, toLowerCase_lowerCased|].
  unfold recordFailure, categorizeError.
  destruct (find _ categories) as [category|] eqn:Hfind.
  - apply find_Some_first in Hfind as (i & Hi & Hocc & Hbefore).
    exists i. split; [assumption|]. split.
    + apply stringIncludes_spec. exact Hocc.
    + intros j earlier Hj Hlook. apply stringIncludes_false. eauto.
  - split; [reflexivity|]. split; [|reflexivity].
    intros category Hin. apply stringIncludes_false.
    revert category Hin. apply find_None_all. exact Hfind.
Qed.

(** C4: a stored document strictly shorter than the new one is kept and the
    new one discarded; in every other case the new one is written, and no
    other file changes.  Hence, for a category whose stored document (if any)
    is not shorter than 80, recording a document of length 100 and one of
    length 80, in either order, leaves the one of length 80. *)
Theorem retainRepro_keeps_shortest
    (category d1 d2 : string) (files : gmap string string) :
  String.length d1 = 100 →
  String.length d2 = 80 →
  (∀ stored, files !! reproPath category = Some stored →
             80 ≤ String.length stored) →
  (∀ new fs,
     retainRepro category new fs !! reproPath category =
       match fs !! reproPath category with
       | Some stored =>
           if String.length stored <? String.length new
           then Some stored else Some new
       | None => Some new
       end ∧
     ∀ path, path ≠ reproPath category →
             retainRepro category new fs !! path = fs !! path) ∧
  retainRepro category d2 (retainRepro category d1 files)
    !! reproPath category = Some d2 ∧
  retainRepro category d1 (retainRepro category d2 files)
    !! reproPath category = Some d2.
Proof.
  intros Hd1 Hd2 Hstored.
  assert (Hlaw : ∀ new fs,
     retainRepro category new fs !! reproPath category =
       match fs !! reproPath category with
       | Some stored =>
           if String.length stored <? String.length new
           then Some stored else Some new
       | None => Some new
       end ∧
     ∀ path, path ≠ reproPath category →
             retainRepro category new fs !! path = fs !! path).
  { intros new fs. unfold retainRepro.
    destruct (fs !! reproPath category) as [stored|] eqn:Hlook.
    - destruct (String.length stored <? String.length new).
      + split; [exact Hlook | reflexivity].
      + split; [apply lookup_insert_eq|].
        intros path Hne. apply lookup_insert_ne. congruence.
    - split; [apply lookup_insert_eq|].
      intros path Hne. apply lookup_insert_ne. congruence. }
  split; [exact Hlaw|].
  split.
  - rewrite (proj1 (Hlaw d2 _)), (proj1 (Hlaw d1 _)).
    destruct (files !! reproPath category) as [stored|] eqn:Hlook.
    + specialize (Hstored stored eq_refl).
      rewrite Hd1, Hd2.
      destruct (String.length stored <? 100) eqn:H100.
      * destruct (String.length stored <? 80) eqn:H80; [|reflexivity].
        apply Nat.ltb_lt in H80. lia.
      * rewrite Hd1. reflexivity.
    + rewrite Hd1, Hd2. reflexivity.
  - rewrite (proj1 (Hlaw d1 _)), (proj1 (Hlaw d2 _)).
    destruct (files !! reproPath category) as [stored|] eqn:Hlook.
    + specialize (Hstored stored eq_refl).
      rewrite Hd1, Hd2.
      destruct (String.length stored <? 80) eqn:H80.
      * apply Nat.ltb_lt in H80. lia.
      * rewrite Hd2. reflexivity.
    + rewrite Hd1, Hd2. reflexivity.
Qed.

Lemma retainRepro_keeps_shortest_witness :
  String.length (textOfLength 100) = 100 ∧
  String.length (textOfLength 80) = 80 ∧
  retainRepro "duplicate" (textOfLength 80)
      (retainRepro "duplicate" (textOfLength 100) ∅)
    !! reproPath "duplicate" = Some (textOfLength 80) ∧
  retainRepro "duplicate" (textOfLength 100)
      (retainRepro "duplicate" (textOfLength 80) ∅)
    !! reproPath "duplicate" = Some (textOfLength 80).
Proof.
  split; [reflexivity|]. split; [reflexivity|].
  apply (retainRepro_keeps_shortest
           "duplicate" (textOfLength 100) (textOfLength 80) ∅).
  - reflexivity.
  - reflexivity.
  - intros stored Hlook. rewrite lookup_empty in Hlook. discriminate.
Defined.

(** ** Reachability *)

Lemma analyzeSideEffects_eq (depth : nat) (t : Trial) (i : string)
    (traced effects : list string) :
  analyzeSideEffects depth t i (traced, effects) =
  match find (λ m, String.eqb (id m) i) (modules t) with
  | None => Some (traced, effects)
  | Some module =>
      if includes traced (id module) then Some (traced, effects)
      else
        match depth with
        | 0 => None
        | S depth' =>
            match forEach (λ sideEffect '(traced, effects),
                             analyzeSideEffects depth' t sideEffect
                               (traced, setAdd sideEffect effects))
                          (sideEffects module)
                          (traced ++ [id module], effects) with
            | None => None
            | Some st' =>
                forEach (λ imp : TaggedTrialExport,
                           analyzeSideEffects depth' t (importedFrom imp))
                        (imports module) st'
            end
        end
  end.
Proof. destruct depth; reflexivity. Qed.

Lemma find_module (ms : list TrialModule) (i : string) (m : TrialModule) :
  find (λ m, String.eqb (id m) i) ms = Some m → m ∈ ms ∧ id m = i.
Proof.
  intros Hfind. apply find_Some_first in Hfind as (k & Hk & Heq & _).
  split; [eapply list_elem_of_lookup_2; eassumption|].
  apply String.eqb_eq. exact Heq.
Qed.

Lemma forEach_total {A S} (I : S → Prop) (body : A → S → option S)
    (xs : list A) (s : S) :
  I s →
  (∀ x s, x ∈ xs → I s → ∃ s', body x s = Some s' ∧ I s') →
  ∃ s', forEach body xs s = Some s' ∧ I s'.
Proof.
  revert s. induction xs as [|x xs IH]; intros s Hs Hbody; simpl.
  - exists s. auto.
  - destruct (Hbody x s) as (s1 & -> & Hs1); [left | assumption |].
    apply IH; [assumption|]. intros y s2 Hy. apply Hbody. right. exact Hy.
Qed.

Lemma forEach_rel {A S} (R : S → S → Prop) (body : A → S → option S)
    (xs : list A) :
  (∀ s, R s s) →
  (∀ s1 s2 s3, R s1 s2 → R s2 s3 → R s1 s3) →
  (∀ x s s', x ∈ xs → body x s = Some s' → R s s') →
  ∀ s s', forEach body xs s = Some s' → R s s'.
Proof.
  intros Hrefl Htrans. induction xs as [|x xs IH]; intros Hbody s s'; simpl.
  - intros [= <-]. apply Hrefl.
  - destruct (body x s) as [s1|] eqn:Hx; [|discriminate].
    intros Hrest. apply (Htrans _ s1).
    + eapply Hbody; [left | exact Hx].
    + apply IH; [|exact Hrest]. intros y s2 s3 Hy. apply Hbody. right. exact Hy.
Qed.

Lemma forEach_impl {A S} (body body' : A → S → option S) (xs : list A) :
  (∀ x s r, x ∈ xs → body x s = Some r → body' x s = Some r) →
  ∀ s r, forEach body xs s = Some r → forEach body' xs s = Some r.
Proof.
  induction xs as [|x xs IH]; intros Hbody s r; simpl; [trivial|].
  destruct (body x s) as [s1|] eqn:Hx; [|discriminate].
  rewrite (Hbody x s s1 (list_elem_of_here _ _) Hx).
  apply IH. intros y s2 r2 Hy. apply Hbody. right. exact Hy.
Qed.

Section Filter.
Context {A : Type} (P Q : A → Prop).
Context `{!∀ x, Decision (P x)} `{!∀ x, Decision (Q x)}.
Hypothesis Q_P : ∀ x, Q x → P x.

Lemma length_filter_impl (l : list A) :
  length (filter Q l) ≤ length (filter P l).
Proof using Q_P.
  induction l as [|a l IH]; [reflexivity|].
  rewrite !filter_cons.
  destruct (decide (Q a)) as [Hq|Hq], (decide (P a)) as [Hp|Hp]; simpl;
    try lia.
  exfalso. apply Hp, Q_P, Hq.
Qed.

Lemma length_filter_impl_lt (l : list A) (x : A) :
  x ∈ l → P x → ¬ Q x → length (filter Q l) < length (filter P l).
Proof using Q_P.
  intros Hin Hp Hq. induction Hin as [x l | x a l Hin IH].
  - rewrite !filter_cons. rewrite (decide_True _ _ Hp), (decide_False _ _ Hq).
    simpl. pose proof (length_filter_impl l). lia.
  - specialize (IH Hp Hq). rewrite !filter_cons.
    destruct (decide (Q a)) as [Hqa|Hqa], (decide (P a)) as [Hpa|Hpa];
      simpl; try lia.
    exfalso. apply Hpa, Q_P, Hqa.
Qed.
End Filter.

Lemma untraced_mono (t : Trial) (traced traced' : list string) :
  traced ⊆ traced' → untraced t traced' ≤ untraced t traced.
Proof.
  intros Hsub. unfold untraced. apply length_filter_impl.
  intros m Hm Hin. apply Hm, Hsub, Hin.
Qed.

Lemma untraced_push (t : Trial) (traced : list string) (m : TrialModule) :
  m ∈ modules t → id m ∉ traced →
  untraced t (traced ++ [id m]) < untraced t traced.
Proof.
  intros Hin Hnot. unfold untraced.
  apply (length_filter_impl_lt _ _) with (x := m); [|assumption..|].
  - intros m' Hm' Hin'. apply Hm'. apply elem_of_app. left. exact Hin'.
  - intros Hm. apply Hm. apply elem_of_app. right. constructor.
Qed.

Lemma untraced_le_length (t : Trial) (traced : list string) :
  untraced t traced ≤ length (modules t).
Proof. apply length_filter. Qed.

(** Enough depth for the modules not yet visited: the call returns, and the
    ids visited before stay visited. *)
Lemma analyzeSideEffects_total (t : Trial) (depth : nat) :
  ∀ i traced effects,
    untraced t traced ≤ depth →
    ∃ traced' effects',
      analyzeSideEffects depth t i (traced, effects) = Some (traced', effects') ∧
      traced ⊆ traced'.
Proof.
  induction depth as [|depth IH]; intros i traced effects Hfuel;
    rewrite analyzeSideEffects_eq;
    (destruct (find _ (modules t)) as [m|] eqn:Hfind; [|by eauto]);
    (destruct (includes traced (id m)) eqn:Hseen; [by eauto|]);
    apply find_module in Hfind as [Hin _];
    apply includes_false in Hseen;
    pose proof (untraced_push t traced m Hin Hseen) as Hpush; [lia|].
  set (traced1 := traced ++ [id m]) in *.
  assert (Hbody : ∀ j (st : Analysis),
             traced1 ⊆ st.1 →
             ∃ st', analyzeSideEffects depth t j st = Some st' ∧ traced1 ⊆ st'.1).
  { intros j [tr eff] Hsub. simpl in Hsub.
    destruct (IH j tr eff) as (tr' & eff' & Hrun & Hsub').
    - pose proof (untraced_mono t _ _ Hsub). lia.
    - exists (tr', eff'). split; [exact Hrun|]. simpl.
      intros x Hx. apply Hsub', Hsub, Hx. }
  match goal with
  | |- context [forEach ?f (sideEffects m) ?s] =>
      destruct (forEach_total (λ st, traced1 ⊆ st.1) f (sideEffects m) s)
        as (st1 & -> & Hst1)
  end.
  { intros x Hx. exact Hx. }
  { intros x [tr eff] _ Hsub. apply (Hbody x (tr, setAdd x eff)). exact Hsub. }
  cbn beta iota.
  match goal with
  | |- context [forEach ?f (imports m) ?s] =>
      destruct (forEach_total (λ st : Analysis, traced1 ⊆ st.1)
                  f (imports m) s)
        as ([tr2 eff2] & -> & Hst2)
  end.
  { exact Hst1. }
  { intros imp st _ Hsub. apply Hbody. exact Hsub. }
  exists tr2, eff2. split; [reflexivity|]. simpl in Hst2.
  intros x Hx. apply Hst2. subst traced1. apply elem_of_app. left. exact Hx.
Qed.

Lemma setAdd_elem (x y : string) (s : list string) :
  y ∈ setAdd x s ↔ y = x ∨ y ∈ s.
Proof.
  unfold setAdd. destruct (includes s x) eqn:Hin.
  - apply includes_true in Hin. split; [auto | intros [->|]; assumption].
  - rewrite elem_of_app, list_elem_of_singleton. tauto.
Qed.

Lemma setAdd_NoDup (x : string) (s : list string) :
  NoDup s → NoDup (setAdd x s).
Proof.
  intros Hnd. unfold setAdd. destruct (includes s x) eqn:Hin; [assumption|].
  apply includes_false in Hin. apply NoDup_app. repeat split.
  - assumption.
  - intros y Hy Hy'. apply list_elem_of_singleton in Hy'. congruence.
  - apply NoDup_singleton.
Qed.

Lemma elem_of_flat_map {A B} (f : A → list B) (l : list A) (y : B) :
  y ∈ flat_map f l ↔ ∃ x, x ∈ l ∧ y ∈ f x.
Proof.
  induction l as [|a l IH]; simpl.
  - split; [inversion 1 | intros (x & Hx & _); inversion Hx].
  - rewrite elem_of_app, IH. split.
    + intros [Hy | (x & Hx & Hy)].
      * exists a. split; [left | exact Hy].
      * exists x. split; [right; exact Hx | exact Hy].
    + intros (x & Hx & Hy). inversion Hx; subst; [left; exact Hy|].
      right. exists x. auto.
Qed.

Lemma analysisStep_refl (t : Trial) (st : Analysis) : analysisStep t st st.
Proof. unfold analysisStep. auto. Qed.

Lemma analysisStep_trans (t : Trial) (s1 s2 s3 : Analysis) :
  analysisStep t s1 s2 → analysisStep t s2 s3 → analysisStep t s1 s3.
Proof.
  intros (Ha & Hb & Hc) (Ha' & Hb' & Hc'). repeat split; [auto..|].
  intros x Hx. destruct (Hc' x Hx) as [Hx'|]; auto.
Qed.

Lemma analyzeSideEffects_step (t : Trial) (depth : nat) :
  ∀ i st st',
    analyzeSideEffects depth t i st = Some st' → analysisStep t st st'.
Proof.
  induction depth as [|depth IH]; intros i [traced effects] st';
    rewrite analyzeSideEffects_eq;
    (destruct (find _ (modules t)) as [m|] eqn:Hfind;
       [|intros [= <-]; apply analysisStep_refl]);
    (destruct (includes traced (id m)) eqn:Hseen;
       [intros [= <-]; apply analysisStep_refl|]);
    [discriminate|].
  apply find_module in Hfind as [Hin _]. apply includes_false in Hseen.
  destruct (forEach _ (sideEffects m) _) as [st1|] eqn:Hloop1; [|discriminate].
  intros Hloop2.
  apply (analysisStep_trans _ _ (traced ++ [id m], effects)).
  { repeat split; simpl; [|auto..]. intros Hnd.
    apply NoDup_app. repeat split; [assumption| |apply NoDup_singleton].
    intros y Hy Hy'. apply list_elem_of_singleton in Hy'. congruence. }
  apply (analysisStep_trans _ _ st1).
  - revert Hloop1.
    apply forEach_rel; [apply analysisStep_refl | apply analysisStep_trans|].
    intros x [tr eff] s' Hx Hrun.
    apply (analysisStep_trans _ _ (tr, setAdd x eff)); [|eapply IH; exact Hrun].
    repeat split; simpl; [auto | apply setAdd_NoDup|].
    intros y Hy. apply setAdd_elem in Hy as [->|Hy]; [right | left; assumption].
    apply elem_of_flat_map. exists m. auto.
  - revert Hloop2.
    apply forEach_rel; [apply analysisStep_refl | apply analysisStep_trans|].
    intros imp s s' _ Hrun. eapply IH. exact Hrun.
Qed.

(** A larger depth bound does not change a result. *)
Lemma analyzeSideEffects_deeper (t : Trial) (depth : nat) :
  ∀ extra i st r,
    analyzeSideEffects depth t i st = Some r →
    analyzeSideEffects (depth + extra) t i st = Some r.
Proof.
  induction depth as [|depth IH]; intros extra i [traced effects] r;
    rewrite !analyzeSideEffects_eq;
    (destruct (find _ (modules t)) as [m|]; [|trivial]);
    (destruct (includes traced (id m)); [trivial|]);
    [discriminate|].
  simpl.
  destruct (forEach _ (sideEffects m) _) as [st1|] eqn:Hloop1; [|discriminate].
  intros Hloop2.
  erewrite forEach_impl; [| |exact Hloop1].
  - revert Hloop2. apply forEach_impl. intros imp s r' _. apply IH.
  - intros x [tr eff] r' _. apply IH.
Qed.

(** C1: on any module graph, cyclic or not, the traversal started with the
    number of modules as depth bound returns: it yields a repetition-free
    list of names, all of them side effects of the trial's modules, and it
    visits no module twice; a larger bound gives the same result, from any
    state of the shared lists.  A call on an id that is already in [traced]
    returns at once and leaves both lists as they are. *)
Theorem analyzeSideEffects_terminates (t : Trial) (i : string) :
  (∃ traced effects,
     analyzeSideEffects (length (modules t)) t i ([], []) = Some (traced, effects) ∧
     expectedEffects t i = Some effects ∧
     NoDup traced ∧ NoDup effects ∧
     (∀ x, x ∈ effects → x ∈ allSideEffects t) ∧
     length effects ≤ length (allSideEffects t)) ∧
  (∀ extra st,
     ∃ st', analyzeSideEffects (length (modules t)) t i st = Some st' ∧
            analyzeSideEffects (length (modules t) + extra) t i st = Some st') ∧
  (∀ depth traced effects,
     i ∈ traced →
     analyzeSideEffects depth t i (traced, effects) = Some (traced, effects)).
Proof.
  split; [|split].
  - destruct (analyzeSideEffects_total t (length (modules t)) i [] [])
      as (traced & effects & Hrun & _); [apply untraced_le_length|].
    exists traced, effects.
    destruct (analyzeSideEffects_step _ _ _ _ _ Hrun) as (Htr & Heff & Hsub).
    simpl in *.
    assert (Hside : ∀ x, x ∈ effects → x ∈ allSideEffects t).
    { intros x Hx. destruct (Hsub x Hx) as [Hnil|]; [inversion Hnil | assumption]. }
    split; [exact Hrun|]. split; [unfold expectedEffects; rewrite Hrun; reflexivity|].
    split; [apply Htr, NoDup_nil_2|]. split; [apply Heff, NoDup_nil_2|].
    split; [exact Hside|].
    apply submseteq_length, NoDup_submseteq; [apply Heff, NoDup_nil_2 | exact Hside].
  - intros extra [traced effects].
    destruct (analyzeSideEffects_total t (length (modules t)) i traced effects)
      as (traced' & effects' & Hrun & _); [apply untraced_le_length|].
    exists (traced', effects'). split; [exact Hrun|].
    apply analyzeSideEffects_deeper. exact Hrun.
  - intros depth traced effects Hseen. rewrite analyzeSideEffects_eq.
    destruct (find _ (modules t)) as [m|] eqn:Hfind; [|reflexivity].
    apply find_module in Hfind as [_ ->].
    apply includes_true in Hseen. rewrite Hseen. reflexivity.
Qed.

(** ** Identifiers *)

Lemma digits36_bound (fuel n : nat) : Forall (λ d, d < 36) (digits36 fuel n).
Proof.
  revert n. induction fuel as [|fuel IH]; intros n; cbn [digits36];
    [constructor|].
  destruct (n <? 36) eqn:Hlt.
  - apply Nat.ltb_lt in Hlt. constructor; [exact Hlt | constructor].
  - constructor; [apply Nat.mod_upper_bound; lia | apply IH].
Qed.

Lemma digits36_value (fuel n : nat) :
  n < fuel → fromDigits36 (digits36 fuel n) = n.
Proof.
  revert n. induction fuel as [|fuel IH]; intros n Hn; [lia|].
  cbn [digits36].
  destruct (n <? 36) eqn:Hlt; unfold fromDigits36; cbn [foldr].
  - lia.
  - apply Nat.ltb_ge in Hlt. fold (fromDigits36 (digits36 fuel (n / 36))).
    rewrite IH.
    + pose proof (Nat.div_mod_eq n 36). lia.
    + assert (n / 36 < n) by (apply Nat.div_lt; lia). lia.
Qed.

Lemma digit36_code (d : nat) :
  d < 36 → nat_of_ascii (digit36 d) = if d <? 10 then 48 + d else 87 + d.
Proof.
  intros Hd. unfold digit36. apply nat_ascii_embedding.
  destruct (d <? 10) eqn:H10; [apply Nat.ltb_lt in H10|]; lia.
Qed.

Lemma digit36_inj (d1 d2 : nat) :
  d1 < 36 → d2 < 36 → digit36 d1 = digit36 d2 → d1 = d2.
Proof.
  intros H1 H2 Heq. apply (f_equal nat_of_ascii) in Heq.
  rewrite !digit36_code in Heq by assumption.
  destruct (d1 <? 10) eqn:Ha, (d2 <? 10) eqn:Hb;
    try apply Nat.ltb_lt in Ha; try apply Nat.ltb_lt in Hb;
    try apply Nat.ltb_ge in Ha; try apply Nat.ltb_ge in Hb; lia.
Qed.

Lemma digit36_isBase36 (d : nat) : d < 36 → isBase36 (digit36 d) = true.
Proof.
  intros Hd. unfold isBase36. rewrite digit36_code by assumption.
  destruct (d <? 10) eqn:H10.
  - apply Nat.ltb_lt in H10. apply orb_true_iff. left.
    apply andb_true_iff. split; apply Nat.leb_le; lia.
  - apply Nat.ltb_ge in H10. apply orb_true_iff. right.
    apply andb_true_iff. split; apply Nat.leb_le; lia.
Qed.

Lemma fmap_digit36_inj (ds1 ds2 : list nat) :
  Forall (λ d, d < 36) ds1 → Forall (λ d, d < 36) ds2 →
  digit36 <$> ds1 = digit36 <$> ds2 → ds1 = ds2.
Proof.
  intros H1. revert ds2.
  induction H1 as [|d1 ds1 Hd1 _ IH]; intros ds2 H2 Heq;
    destruct H2 as [|d2 ds2 Hd2 H2]; try discriminate; [reflexivity|].
  injection Heq as Hd Hds. f_equal; [apply digit36_inj; assumption | auto].
Qed.

Lemma toString36_inj (n m : nat) : toString36 n = toString36 m → n = m.
Proof.
  unfold toString36. intros Heq.
  apply (f_equal list_ascii_of_string) in Heq.
  rewrite !list_ascii_of_string_of_list_ascii in Heq.
  apply (f_equal reverse) in Heq. rewrite !reverse_involutive in Heq.
  apply fmap_digit36_inj in Heq; [|apply digits36_bound..].
  rewrite <- (digits36_value (S n) n), <- (digits36_value (S m) m) by lia.
  rewrite Heq. reflexivity.
Qed.

Lemma toString36_chars (n : nat) :
  Forall (λ c, isBase36 c = true) (list_ascii_of_string (toString36 n)).
Proof.
  unfold toString36. rewrite list_ascii_of_string_of_list_ascii.
  apply Forall_forall. intros c Hc.
  apply elem_of_reverse, list_elem_of_fmap in Hc as (d & -> & Hd).
  apply digit36_isBase36.
  pose proof (digits36_bound (S n) n) as Hall.
  rewrite Forall_forall in Hall. apply Hall, Hd.
Qed.

Lemma moduleId_eq (k : nat) : moduleId k = String "e" (toString36 k).
Proof. reflexivity. Qed.

Lemma exportName_eq (k : nat) :
  exportName k =
  String "e" (String "x" (String "p" (String "o" (String "r" (String "t"
    (String "_" (moduleId k))))))).
Proof. reflexivity. Qed.

Lemma moduleId_inj (j k : nat) : moduleId j = moduleId k → j = k.
Proof. rewrite !moduleId_eq. intros [= Heq]. apply toString36_inj, Heq. Qed.

Lemma exportName_inj (j k : nat) : exportName j = exportName k → j = k.
Proof.
  rewrite !exportName_eq. intros [= Heq]. exact (toString36_inj _ _ Heq).
Qed.

(** A module id never reads as an export name: the latter has an underscore
    where the former has base-36 digits only. *)
Lemma moduleId_ne_exportName (j k : nat) : moduleId j ≠ exportName k.
Proof.
  rewrite exportName_eq, !moduleId_eq. intros [= Heq].
  pose proof (toString36_chars j) as Hall. rewrite Heq in Hall.
  cbn [list_ascii_of_string] in Hall.
  do 5 apply Forall_cons_1 in Hall as [_ Hall].
  apply Forall_cons_1 in Hall as [Hunderscore _]. discriminate.
Qed.

(** ** More rules: partial correctness, and lists updated in place *)

Lemma bind_Ok {A B} (m : M A) (k : A → M B) (e : Entropy) (b : B) (e' : Entropy) :
  bind m k e = Ok (b, e') → ∃ a e1, m e = Ok (a, e1) ∧ k a e1 = Ok (b, e').
Proof.
  unfold bind. destruct (m e) as [[a e1]|x]; [|discriminate].
  intros Hk. exists a, e1. auto.
Qed.

Lemma always_ensures {A} (m : M A) (Q : A → Prop) : always m Q → ensures m Q.
Proof.
  intros Hm e a e' Hrun. destruct (Hm e) as (a' & e'' & Hrun' & HQ).
  rewrite Hrun in Hrun'. injection Hrun' as <- <-. exact HQ.
Qed.

Lemma ensures_ret {A} (a : A) (Q : A → Prop) : Q a → ensures (ret a) Q.
Proof. intros HQ e a' e' [= <- <-]. exact HQ. Qed.

Lemma ensures_bind {A B} (m : M A) (k : A → M B) (P : A → Prop) (Q : B → Prop) :
  ensures m P → (∀ a, P a → ensures (k a) Q) → ensures (bind m k) Q.
Proof.
  intros Hm Hk e b e' Hrun.
  apply bind_Ok in Hrun as (a & e1 & Hrun1 & Hrun2).
  eapply Hk; [eapply Hm; exact Hrun1 | exact Hrun2].
Qed.

Lemma ensures_mono {A} (m : M A) (P Q : A → Prop) :
  ensures m P → (∀ a, P a → Q a) → ensures m Q.
Proof. intros Hm HPQ e a e' Hrun. apply HPQ. eapply Hm. exact Hrun. Qed.

Lemma ensures_forOf {A S} (I : S → Prop) (body : A → S → M S)
    (xs : list A) (s : S) :
  I s → (∀ x s, I s → ensures (body x s) I) → ensures (forOf body xs s) I.
Proof.
  intros Hinit Hstep. revert s Hinit.
  induction xs as [|x xs IH]; intros s Hs; simpl.
  - apply ensures_ret. exact Hs.
  - eapply ensures_bind; [apply Hstep; exact Hs|]. intros s'. apply IH.
Qed.

Lemma elem_of_insert_inv {A} (l : list A) (i : nat) (x y : A) :
  y ∈ <[i:=x]> l → y = x ∨ y ∈ l.
Proof.
  intros Hy. apply list_elem_of_lookup in Hy as [k Hk].
  apply list_lookup_insert_Some in Hk as [(_ & -> & _) | (_ & Hk)].
  - left. reflexivity.
  - right. eapply list_elem_of_lookup_2; eassumption.
Qed.

Lemma flat_map_insert_same {A B} (f : A → list B) (l : list A) (i : nat) (x y : A) :
  l !! i = Some x → f y = f x → flat_map f (<[i:=y]> l) = flat_map f l.
Proof.
  revert i. induction l as [|a l IH]; intros [|i] Hi Hf; simpl in *;
    try discriminate.
  - injection Hi as ->. rewrite Hf. reflexivity.
  - rewrite (IH i Hi Hf). reflexivity.
Qed.

Lemma flat_map_insert_app {A B} (f : A → list B) (l : list A) (i : nat)
    (x y : A) (extra : list B) :
  l !! i = Some x → f y = f x ++ extra →
  flat_map f (<[i:=y]> l) ≡ₚ extra ++ flat_map f l.
Proof.
  revert i. induction l as [|a l IH]; intros [|i] Hi Hf; simpl in *;
    try discriminate.
  - injection Hi as ->. rewrite Hf.
    rewrite (Permutation_app_comm (f x) extra), <- app_assoc. reflexivity.
  - rewrite (IH i Hi Hf).
    rewrite !app_assoc, (Permutation_app_comm (f a) extra). reflexivity.
Qed.

Lemma flat_map_Permutation {A B} (f : A → list B) (l l' : list A) :
  l ≡ₚ l' → flat_map f l ≡ₚ flat_map f l'.
Proof.
  induction 1 as [|a l l' _ IH|a b l|l1 l2 l3 _ IH1 _ IH2]; simpl.
  - reflexivity.
  - rewrite IH. reflexivity.
  - rewrite !app_assoc, (Permutation_app_comm (f b) (f a)). reflexivity.
  - rewrite IH1. exact IH2.
Qed.

Lemma fmap_flat_map {A B C} (g : B → C) (f : A → list B) (l : list A) :
  g <$> flat_map f l = flat_map (λ x, g <$> f x) l.
Proof.
  induction l as [|a l IH]; simpl; [reflexivity|].
  rewrite fmap_app, IH. reflexivity.
Qed.

Lemma flat_map_ext_in {A B} (f g : A → list B) (l : list A) :
  (∀ x, x ∈ l → f x = g x) → flat_map f l = flat_map g l.
Proof.
  induction l as [|a l IH]; intros Hfg; simpl; [reflexivity|].
  rewrite (Hfg a (list_elem_of_here _ _)), IH; [reflexivity|].
  intros x Hx. apply Hfg. right. exact Hx.
Qed.

(** ** The import resolver, in full *)

Lemma importIntoModule_spec (exported : TrialExport) (targetModule : TrialModule) :
  always (importIntoModule exported targetModule)
    (λ r, r.1 = name exported ∧
          id r.2 = id targetModule ∧
          originals r.2 = originals targetModule ∧
          sideEffects r.2 = sideEffects targetModule ∧
          exports r.2 = exports targetModule ∧
          imports targetModule `prefix_of` imports r.2 ∧
          (noSelfImport targetModule → noSelfImport r.2) ∧
          (NoDup (importNames targetModule) → NoDup (importNames r.2)) ∧
          (∀ b : TaggedTrialExport, b ∈ imports r.2 →
             b ∈ imports targetModule ∨ name b = name exported)).
Proof.
  unfold importIntoModule.
  destruct (find _ (imports targetModule)) as [existing|] eqn:Hfind.
  - apply always_ret. simpl.
    apply find_Some_first in Hfind as (_ & _ & Heq & _).
    apply String.eqb_eq in Heq. repeat split; auto.
  - destruct (includes (originals targetModule) (name exported)) eqn:Horig.
    + apply always_ret. simpl. repeat split; auto.
    + eapply always_bind; [apply always_pick; discriminate|].
      intros mode _. apply always_ret. simpl.
      apply includes_false in Horig.
      repeat split; [apply prefix_app_r; reflexivity | | |].
      * intros Hself b Hb. apply elem_of_app in Hb as [Hb|Hb]; [auto|].
        apply list_elem_of_singleton in Hb as ->. exact Horig.
      * intros Hnd. unfold importNames. simpl. rewrite fmap_app.
        apply NoDup_app. repeat split; [exact Hnd| |apply NoDup_singleton].
        intros n Hn Hn'. apply list_elem_of_singleton in Hn'. simpl in Hn'.
        subst n. apply list_elem_of_fmap in Hn as (b & Hname & Hb).
        rewrite find_None_all in Hfind. specialize (Hfind b Hb).
        apply String.eqb_neq in Hfind. congruence.
      * intros b Hb. apply elem_of_app in Hb as [Hb|Hb]; [auto|].
        apply list_elem_of_singleton in Hb as ->. right. reflexivity.
Qed.

(** ** The seed pass and the original-exports pass *)

Lemma seedInitialModules_spec (t : Trial) :
  modules t = [] → internalIdIncrementor t = 0 →
  always (seedInitialModules t) seeded.
Proof.
  intros Hnil Hzero. unfold seedInitialModules.
  eapply always_bind; [apply (always_random 2 5); lia|].
  intros n Hn. simpl.
  eapply always_mono.
  - apply (always_forOf
             (λ done t, modules t =
                          (λ k, emptyModule (moduleId k)) <$> seq 0 (length done) ∧
                        internalIdIncrementor t = length done)).
    + split; assumption.
    + intros done x s [Hmods Hctr]. unfold getInternalId. apply always_ret.
      simpl. rewrite length_app, Nat.add_1_r, seq_S, fmap_app, Hmods, Hctr.
      split; reflexivity.
  - intros t' [Hmods Hctr]. unfold repeat in *. rewrite length_seq in *.
    exists n. auto.
Qed.

Lemma flat_map_nil {A B} (f : A → list B) (l : list A) :
  (∀ x, x ∈ l → f x = []) → flat_map f l = [].
Proof.
  induction l as [|a l IH]; intros Hf; simpl; [reflexivity|].
  rewrite (Hf a (list_elem_of_here _ _)), IH; [reflexivity|].
  intros x Hx. apply Hf. right. exact Hx.
Qed.

Lemma seeded_originalsOnly (t : Trial) : seeded t → originalsOnly t.
Proof.
  intros (n & Hn & Hmods & Hctr).
  assert (Hnil : allOriginals t = []).
  { unfold allOriginals. apply flat_map_nil. intros m Hm. rewrite Hmods in Hm.
    apply list_elem_of_fmap in Hm as (k & -> & _). reflexivity. }
  split.
  - rewrite Hmods, length_fmap, length_seq. exact Hn.
  - intros k m Hk. rewrite Hmods, list_lookup_fmap in Hk.
    destruct (seq 0 n !! k) as [j|] eqn:Hj; [|discriminate].
    apply lookup_seq in Hj as [-> _]. injection Hk as <-. auto.
  - intros o Ho. rewrite Hnil in Ho. inversion Ho.
  - rewrite Hnil. constructor.
Qed.

Lemma addOriginalExport_spec (i : nat) (t : Trial) :
  originalsOnly t →
  originalsOnly (addOriginalExport i t) ∧
  length (modules (addOriginalExport i t)) = length (modules t) ∧
  (∀ k, hasOriginal t k → hasOriginal (addOriginalExport i t) k) ∧
  (i < length (modules t) → hasOriginal (addOriginalExport i t) i).
Proof.
  intros [Hcount Hshape Hnames Hnd]. unfold addOriginalExport.
  destruct (modules t !! i) as [m|] eqn:Hi.
  2:{ split; [constructor; assumption|]. split; [reflexivity|].
      split; [auto|]. intros Hlt. apply lookup_ge_None in Hi. lia. }
  unfold getInternalId. cbn [fst snd modules setModules].
  set (c := internalIdIncrementor t).
  set (exp := {| importedFrom := id m; name := "export_" +:+ "e" +:+ toString36 c |}).
  assert (Hname : name exp = exportName c) by reflexivity.
  assert (Hperm : flat_map originals (<[i:=pushOriginal exp m]> (modules t))
                  ≡ₚ [exportName c] ++ allOriginals t).
  { apply flat_map_insert_app with (x := m); [exact Hi | reflexivity]. }
  assert (Hfresh : exportName c ∉ allOriginals t).
  { intros Hin. destruct (Hnames _ Hin) as (j & Hj & Heq).
    apply exportName_inj in Heq. subst c. lia. }
  split; [constructor | split; [|split]].
  - simpl. rewrite length_insert. exact Hcount.
  - intros k m' Hk. simpl in Hk.
    apply list_lookup_insert_Some in Hk
      as [(<- & <- & _) | (_ & Hk)]; [|apply (Hshape _ _ Hk)].
    destruct (Hshape _ _ Hi) as (Hid & Himp & Hse & Hex).
    simpl. rewrite fmap_app, Hex. auto.
  - intros o Ho. unfold allOriginals in Ho. simpl in Ho. rewrite Hperm in Ho.
    apply elem_of_app in Ho as [Ho|Ho].
    + apply list_elem_of_singleton in Ho as ->. exists c. simpl. split; [lia|reflexivity].
    + destruct (Hnames _ Ho) as (j & Hj & ->). exists j. simpl.
      split; [fold c; lia | reflexivity].
  - unfold allOriginals. simpl. rewrite Hperm. simpl.
    apply NoDup_cons. split; assumption.
  - simpl. apply length_insert.
  - intros k (m' & Hk & Hne). unfold hasOriginal. simpl.
    destruct (decide (i = k)) as [->|Hik].
    + exists (pushOriginal exp m). split.
      * apply list_lookup_insert_eq. eapply lookup_lt_Some. exact Hi.
      * simpl. intros Habs. apply app_eq_nil in Habs as [_ [=]].
    + exists m'. split; [|exact Hne].
      rewrite list_lookup_insert_ne by assumption. exact Hk.
  - intros Hlt. exists (pushOriginal exp m). simpl. split.
    + apply list_lookup_insert_eq. exact Hlt.
    + intros Habs. apply app_eq_nil in Habs as [_ [=]].
Qed.

Lemma addOriginalExports_spec (t : Trial) :
  originalsOnly t →
  always (addOriginalExports t)
         (λ t', originalsOnly t' ∧
                ∀ k, k < length (modules t') → hasOriginal t' k).
Proof.
  intros Ht. unfold addOriginalExports, forModules.
  set (N := length (modules t)).
  eapply always_mono.
  - apply (always_forOf
             (λ done t', originalsOnly t' ∧ length (modules t') = N ∧
                         ∀ k, k ∈ done → k < N → hasOriginal t' k)).
    + split; [exact Ht|]. split; [reflexivity|]. intros k Hk. inversion Hk.
    + intros done i s (Hs & Hlen & Hdone).
      eapply always_bind; [apply (always_random 1 5); lia|].
      intros n Hn. simpl.
      eapply always_mono.
      * apply (always_forOf
                 (λ done' t', originalsOnly t' ∧ length (modules t') = N ∧
                              (∀ k, k ∈ done → k < N → hasOriginal t' k) ∧
                              (done' ≠ [] → i < N → hasOriginal t' i))).
        -- split; [exact Hs|]. split; [exact Hlen|]. split; [exact Hdone|].
           intros Habs. congruence.
        -- intros done' x s' (Hs' & Hlen' & Hdone' & _).
           destruct (addOriginalExport_spec i s' Hs') as (Hoo & Hl & Hkeep & Hnew).
           apply always_ret. split; [exact Hoo|].
           split; [congruence|]. split.
           ++ intros k Hk HkN. apply Hkeep, Hdone'; assumption.
           ++ intros _ HiN. apply Hnew. lia.
      * intros t' (Hoo & Hl & Hkeep & Hnew).
        split; [exact Hoo|]. split; [exact Hl|].
        intros k Hk HkN. apply elem_of_app in Hk as [Hk|Hk]; [auto|].
        apply list_elem_of_singleton in Hk as ->. apply Hnew; [|exact HkN].
        unfold repeat. destruct n; [lia | discriminate].
  - intros t' (Hoo & Hl & Hall). split; [exact Hoo|].
    intros k Hk. apply Hall; [|lia]. apply elem_of_seq. lia.
Qed.

Lemma lookup_Some_elem {A} (l : list A) (x : A) :
  x ∈ l → ∃ k, l !! k = Some x.
Proof. apply list_elem_of_lookup. Qed.

(** At the end of the original-exports pass every export entry is an
    original of its module, every module has one, and the trial is well
    formed. *)
Lemma originalsOnly_wellFormed (t : Trial) :
  originalsOnly t →
  (∀ k, k < length (modules t) → hasOriginal t k) →
  wellFormed t ∧ name <$> allExports t = allOriginals t.
Proof.
  intros [Hcount Hshape Hnames Hnd] Hhas.
  assert (Hexp : ∀ m, m ∈ modules t → name <$> exports m = originals m).
  { intros m Hm. apply lookup_Some_elem in Hm as [k Hk].
    destruct (Hshape _ _ Hk) as (_ & _ & _ & ->).
    rewrite <- list_fmap_compose. apply list_fmap_id. }
  assert (Hall : name <$> allExports t = allOriginals t).
  { unfold allExports, allOriginals. rewrite fmap_flat_map.
    apply flat_map_ext_in. exact Hexp. }
  split; [|exact Hall]. split.
  - exact Hcount.
  - intros m Hm. apply lookup_Some_elem in Hm as [k Hk]. exists k.
    apply (Hshape _ _ Hk).
  - assert (Hids : id <$> modules t = moduleId <$> seq 0 (length (modules t))).
    { apply list_eq. intros k. rewrite !list_lookup_fmap.
      destruct (modules t !! k) as [m|] eqn:Hk; simpl.
      - rewrite (proj2 (lookup_seq 0 _ k k)).
        + simpl. f_equal. apply (Hshape _ _ Hk).
        + split; [reflexivity|]. eapply lookup_lt_Some. exact Hk.
      - apply lookup_ge_None in Hk.
        rewrite (proj2 (lookup_ge_None (seq 0 _) k)); [reflexivity|].
        rewrite length_seq. exact Hk. }
    rewrite Hids. apply NoDup_fmap_2_strong; [|apply NoDup_seq].
    intros j k _ _. apply moduleId_inj.
  - intros o Ho. destruct (Hnames o Ho) as (j & _ & ->). exists j. reflexivity.
  - exact Hnd.
  - intros m Hm. pose proof Hm as Hin.
    apply lookup_Some_elem in Hm as [k Hk].
    destruct (Hshape _ _ Hk) as (_ & Himp & Hse & Hex).
    assert (Hsub : ∀ o, o ∈ originals m → o ∈ allOriginals t).
    { intros o Ho. apply elem_of_flat_map. exists m. auto. }
    split.
    + intros x Hx. apply Hsub. rewrite <- (Hexp m Hin).
      apply list_elem_of_fmap. exists x. auto.
    + destruct (Hhas k) as (m' & Hk' & Hne);
        [eapply lookup_lt_Some; exact Hk|].
      rewrite Hk in Hk'. injection Hk' as <-.
      rewrite Hex. intros Habs. apply fmap_nil_inv in Habs. contradiction.
    + intros b Hb. rewrite Himp in Hb. inversion Hb.
    + intros b Hb. rewrite Himp in Hb. inversion Hb.
    + unfold importNames. rewrite Himp. constructor.
    + intros x Hx. rewrite Hse in Hx. inversion Hx.
Qed.

(** ** The re-export pass and the side-effect pass *)

Lemma grows_refl (t : Trial) : grows t t.
Proof. split; [reflexivity|]. intros k m Hk. exists m. auto. Qed.

Lemma grows_trans (t1 t2 t3 : Trial) : grows t1 t2 → grows t2 t3 → grows t1 t3.
Proof.
  intros [Hl1 H1] [Hl2 H2]. split; [congruence|].
  intros k m Hk. destruct (H1 k m Hk) as (m' & Hk' & Hid & Hor & Hpre).
  destruct (H2 k m' Hk') as (m'' & Hk'' & Hid' & Hor' & Hpre').
  exists m''. repeat split; [assumption | congruence | congruence |].
  etransitivity; eassumption.
Qed.

Lemma replaceModule_grows (t : Trial) (i : nat) (m m' : TrialModule) :
  modules t !! i = Some m → id m' = id m → originals m' = originals m →
  imports m `prefix_of` imports m' →
  grows t (setModules (<[i:=m']> (modules t)) t).
Proof.
  intros Hi Hid Hor Hpre. split; [apply length_insert|].
  intros k m0 Hk. simpl. destruct (decide (i = k)) as [->|Hne].
  - exists m'. rewrite Hi in Hk. injection Hk as <-.
    split; [|auto]. apply list_lookup_insert_eq. eapply lookup_lt_Some. exact Hi.
  - exists m0. rewrite list_lookup_insert_ne by assumption. auto.
Qed.

Lemma replaceModule_wellFormed (t : Trial) (i : nat) (m m' : TrialModule) :
  wellFormed t → modules t !! i = Some m →
  id m' = id m → originals m' = originals m →
  moduleOk (allOriginals t) m' →
  wellFormed (setModules (<[i:=m']> (modules t)) t).
Proof.
  intros [Hcount Hids Hnd Hor Hornd Hmods] Hi Hid Horig Hok.
  assert (Hin : m ∈ modules t) by (eapply list_elem_of_lookup_2; exact Hi).
  assert (Hsame : allOriginals (setModules (<[i:=m']> (modules t)) t)
                  = allOriginals t).
  { unfold allOriginals. simpl. eapply flat_map_insert_same; eassumption. }
  split.
  - simpl. rewrite length_insert. exact Hcount.
  - simpl. intros m0 Hm0. apply elem_of_insert_inv in Hm0 as [->|Hm0]; [|auto].
    rewrite Hid. auto.
  - simpl. rewrite list_fmap_insert, list_insert_id; [exact Hnd|].
    rewrite list_lookup_fmap, Hi, Hid. reflexivity.
  - rewrite Hsame. exact Hor.
  - rewrite Hsame. exact Hornd.
  - rewrite Hsame. simpl. intros m0 Hm0.
    apply elem_of_insert_inv in Hm0 as [->|Hm0]; auto.
Qed.

Lemma wellFormed_allExports (t : Trial) :
  wellFormed t →
  allExports t ≠ [] ∧ ∀ x, x ∈ allExports t → name x ∈ allOriginals t.
Proof.
  intros [Hcount _ _ _ _ Hmods]. split.
  - unfold allExports. destruct (modules t) as [|m ms] eqn:Hms;
      [simpl in Hcount; lia|].
    simpl. intros Habs. apply app_eq_nil in Habs as [Habs _].
    apply (ok_hasExport _ _ (Hmods m (list_elem_of_here _ _))). exact Habs.
  - intros x Hx. apply elem_of_flat_map in Hx as (m & Hm & Hx).
    apply (ok_exports _ _ (Hmods m Hm)). exact Hx.
Qed.

Section Attempt.
Variable push : string → TrialModule → TrialModule.
Hypothesis push_id : ∀ n m, id (push n m) = id m.
Hypothesis push_originals : ∀ n m, originals (push n m) = originals m.
Hypothesis push_imports : ∀ n m, imports (push n m) = imports m.
Hypothesis push_ok :
  ∀ names n m, moduleOk names m → n ∈ names → moduleOk names (push n m).

Lemma attempt_wellFormed (i : nat) (t : Trial) :
  wellFormed t → always (attempt push i t) wellFormed.
Proof using push_id push_originals push_ok.
  intros Hwf. unfold attempt.
  destruct (modules t !! i) as [m|] eqn:Hi; [|apply always_ret; exact Hwf].
  destruct (wellFormed_allExports t Hwf) as [Hne Hnames].
  eapply always_bind; [apply always_pick; exact Hne|].
  intros imp Himp. simpl.
  destruct (includes (originals m) (name imp)); [apply always_ret; exact Hwf|].
  eapply always_bind; [apply importIntoModule_spec|].
  intros [n m'] (Hn & Hid & Hor & Hse & Hex & _ & Hself & Hnd & Hnew).
  simpl in *. apply always_ret.
  assert (Hm : moduleOk (allOriginals t) m).
  { apply (wf_modules _ Hwf). eapply list_elem_of_lookup_2. exact Hi. }
  destruct Hm as [Hm1 Hm2 Hm3 Hm4 Hm5 Hm6].
  apply (replaceModule_wellFormed t i m); try assumption.
  - rewrite push_id. exact Hid.
  - rewrite push_originals. exact Hor.
  - apply push_ok; [|rewrite Hn; apply Hnames, Himp].
    split.
    + rewrite Hex. exact Hm1.
    + rewrite Hex. exact Hm2.
    + intros b Hb. destruct (Hnew b Hb) as [Hold|Heq]; [auto|].
      rewrite Heq. apply Hnames, Himp.
    + auto.
    + auto.
    + rewrite Hse. exact Hm6.
Qed.

Lemma attempt_grows (i : nat) (t : Trial) : ensures (attempt push i t) (grows t).
Proof using push_id push_originals push_imports.
  unfold attempt.
  destruct (modules t !! i) as [m|] eqn:Hi;
    [|apply ensures_ret, grows_refl].
  eapply ensures_bind with (P := λ _, True); [easy|].
  intros imp _. simpl.
  destruct (includes (originals m) (name imp));
    [apply ensures_ret, grows_refl|].
  eapply ensures_bind; [apply always_ensures, importIntoModule_spec|].
  intros [n m'] (_ & Hid & Hor & _ & _ & Hpre & _). simpl in *.
  apply ensures_ret. apply (replaceModule_grows t i m); try assumption.
  - rewrite push_id. exact Hid.
  - rewrite push_originals. exact Hor.
  - rewrite push_imports. exact Hpre.
Qed.

(** A pass: for every module, a random number of attempts. *)
Lemma pass_wellFormed (t : Trial) :
  wellFormed t →
  always (forModules (λ i t, let* k := random 0 5 in
                             forOf (λ _ t, attempt push i t) (repeat k) t) t)
         wellFormed.
Proof using push_id push_originals push_ok.
  intros Hwf. unfold forModules.
  apply always_forOf_inv; [exact Hwf|].
  intros i s Hs. eapply always_bind; [apply (always_random 0 5); lia|].
  intros k _. simpl. apply always_forOf_inv; [exact Hs|].
  intros _ s' Hs'. apply attempt_wellFormed. exact Hs'.
Qed.

Lemma pass_grows (t : Trial) :
  ensures (forModules (λ i t, let* k := random 0 5 in
                              forOf (λ _ t, attempt push i t) (repeat k) t) t)
          (grows t).
Proof using push_id push_originals push_imports.
  unfold forModules. apply ensures_forOf; [apply grows_refl|].
  intros i s Hs. eapply ensures_bind with (P := λ _, True); [easy|].
  intros k _. simpl. apply ensures_forOf; [exact Hs|].
  intros _ s' Hs'. eapply ensures_mono; [apply attempt_grows|].
  intros s'' Hs''. eapply grows_trans; eassumption.
Qed.
End Attempt.

Lemma addReExports_attempts (t : Trial) :
  addReExports t =
  forModules (λ i t, let* k := random 0 5 in
                     forOf (λ _ t, attempt recordReExport i t) (repeat k) t) t.
Proof. reflexivity. Qed.

Lemma addSideEffects_attempts (t : Trial) :
  addSideEffects t =
  forModules (λ i t, let* k := random 0 5 in
                     forOf (λ _ t, attempt pushSideEffect i t) (repeat k) t) t.
Proof. reflexivity. Qed.

Lemma recordReExport_ok (names : list string) (n : string) (m : TrialModule) :
  moduleOk names m → n ∈ names → moduleOk names (recordReExport n m).
Proof.
  intros [H1 H2 H3 H4 H5 H6] Hn. split; simpl; try assumption.
  - intros x Hx. apply elem_of_app in Hx as [Hx|Hx]; [auto|].
    apply list_elem_of_singleton in Hx as ->. exact Hn.
  - intros Habs. apply app_eq_nil in Habs as [_ [=]].
Qed.

Lemma pushSideEffect_ok (names : list string) (n : string) (m : TrialModule) :
  moduleOk names m → n ∈ names → moduleOk names (pushSideEffect n m).
Proof.
  intros [H1 H2 H3 H4 H5 H6] Hn. split; simpl; try assumption.
  intros x Hx. apply elem_of_app in Hx as [Hx|Hx]; [auto|].
  apply list_elem_of_singleton in Hx as ->. exact Hn.
Qed.

Lemma addReExports_wellFormed (t : Trial) :
  wellFormed t → always (addReExports t) wellFormed.
Proof.
  rewrite addReExports_attempts.
  apply pass_wellFormed; [reflexivity.. | apply recordReExport_ok].
Qed.

Lemma addSideEffects_wellFormed (t : Trial) :
  wellFormed t → always (addSideEffects t) wellFormed.
Proof.
  rewrite addSideEffects_attempts.
  apply pass_wellFormed; [reflexivity.. | apply pushSideEffect_ok].
Qed.

Lemma addReExports_grows (t : Trial) : ensures (addReExports t) (grows t).
Proof. rewrite addReExports_attempts. apply pass_grows; reflexivity. Qed.

Lemma addSideEffects_grows (t : Trial) : ensures (addSideEffects t) (grows t).
Proof. rewrite addSideEffects_attempts. apply pass_grows; reflexivity. Qed.

(** The first two passes, from a new trial. *)
Lemma originals_pass_spec (uuid : string) :
  always (let* t := seedInitialModules (newTrial uuid) in addOriginalExports t)
         (λ t, wellFormed t ∧ name <$> allExports t = allOriginals t).
Proof.
  eapply always_bind; [apply seedInitialModules_spec; reflexivity|].
  intros t Ht. simpl. eapply always_mono.
  - apply addOriginalExports_spec, seeded_originalsOnly, Ht.
  - intros t' [Hoo Hhas]. apply originalsOnly_wellFormed; assumption.
Qed.

Lemma generate_wellFormed (uuid : string) :
  always (generate (newTrial uuid)) wellFormed.
Proof.
  unfold generate.
  eapply always_bind; [apply seedInitialModules_spec; reflexivity|].
  intros t1 Ht1. simpl. eapply always_bind.
  { apply addOriginalExports_spec, seeded_originalsOnly, Ht1. }
  intros t2 [Hoo Hhas]. simpl.
  eapply always_bind.
  { apply addReExports_wellFormed.
    apply (originalsOnly_wellFormed t2 Hoo Hhas). }
  intros t3 Ht3. simpl. apply addSideEffects_wellFormed, Ht3.
Qed.

(** ** The entrypoint choice *)

Lemma always_random_any (lo hi : nat) :
  always (random lo hi) (λ n, lo ≤ n ≤ Nat.max lo hi).
Proof.
  intros e. unfold random, bind, draw, ret.
  assert (Hmod : ∀ r, lo ≤ r mod (hi - lo + 1) + lo ≤ Nat.max lo hi).
  { intros r. pose proof (Nat.mod_upper_bound r (hi - lo + 1)). lia. }
  destruct e as [|r e']; eexists _, _; (split; [reflexivity | apply Hmod]).
Qed.

Lemma always_randomComparator : always randomComparator (λ _, True).
Proof.
  intros e. unfold randomComparator, bind, draw, ret.
  destruct e as [|r e']; eexists _, _; split; reflexivity || exact I.
Qed.

Lemma insertShuffled_perm {T} (x : T) (sorted : list T) :
  always (insertShuffled x sorted) (λ r, r ≡ₚ x :: sorted).
Proof.
  induction sorted as [|y sorted IH]; simpl.
  - apply always_ret. reflexivity.
  - eapply always_bind; [apply always_randomComparator|].
    intros [|] _; simpl.
    + apply always_ret. reflexivity.
    + eapply always_bind; [apply IH|]. intros rest Hrest. simpl.
      apply always_ret. rewrite Hrest. apply perm_swap.
Qed.

Lemma sortShuffled_perm {T} (xs : list T) :
  always (sortShuffled xs) (λ r, r ≡ₚ xs).
Proof.
  induction xs as [|x xs IH]; simpl.
  - apply always_ret. reflexivity.
  - eapply always_bind; [apply IH|]. intros sorted Hsorted. simpl.
    eapply always_mono; [apply insertShuffled_perm|].
    intros r Hr. simpl in Hr. rewrite Hr, Hsorted. reflexivity.
Qed.

Lemma chooseEntrypoints_spec (t : Trial) :
  always (chooseEntrypoints t)
    (λ t', modules t' ≡ₚ modules t ∧
           ∃ n, 1 ≤ n ≤ Nat.max 1 (Nat.min 3 (length (modules t))) ∧
                entrypoints t' = take n (modules t')).
Proof.
  unfold chooseEntrypoints.
  eapply always_bind; [apply sortShuffled_perm|].
  intros shuffled Hperm. simpl.
  eapply always_bind; [apply always_random_any|].
  intros n Hn. simpl. apply always_ret. simpl.
  split; [exact Hperm|]. exists n. split; [|reflexivity].
  rewrite <- (Permutation_length Hperm). exact Hn.
Qed.

Lemma moduleOk_names (names names' : list string) (m : TrialModule) :
  (∀ x, x ∈ names → x ∈ names') → moduleOk names m → moduleOk names' m.
Proof. intros Hsub [H1 H2 H3 H4 H5 H6]. split; auto. Qed.

Lemma wellFormed_Permutation (t t' : Trial) :
  modules t' ≡ₚ modules t → wellFormed t → wellFormed t'.
Proof.
  intros Hperm [Hcount Hids Hnd Hor Hornd Hmods].
  assert (Hall : allOriginals t' ≡ₚ allOriginals t).
  { apply flat_map_Permutation, Hperm. }
  split.
  - rewrite (Permutation_length Hperm). exact Hcount.
  - intros m Hm. rewrite Hperm in Hm. auto.
  - rewrite Hperm. exact Hnd.
  - intros o Ho. rewrite Hall in Ho. auto.
  - rewrite Hall. exact Hornd.
  - intros m Hm. rewrite Hperm in Hm.
    apply (moduleOk_names (allOriginals t)); [|auto].
    intros x Hx. rewrite Hall. exact Hx.
Qed.

Lemma plan_spec (uuid : string) :
  always (plan (newTrial uuid))
    (λ t, wellFormed t ∧
          ∃ n, 1 ≤ n ≤ Nat.min 3 (length (modules t)) ∧
               entrypoints t = take n (modules t)).
Proof.
  unfold plan. eapply always_bind; [apply generate_wellFormed|].
  intros t Hwf. cbn beta. eapply always_mono; [apply chooseEntrypoints_spec|].
  intros t' (Hperm & n & Hn & Hentry).
  split; [eapply wellFormed_Permutation; eassumption|].
  exists n. split; [|exact Hentry].
  pose proof (wf_count _ Hwf). rewrite (Permutation_length Hperm). lia.
Qed.

(** ** Steps of the passes on an arbitrary trial *)

Lemma attempt_allModules (push : string → TrialModule → TrialModule)
    (P : TrialModule → Prop) (i : nat) (t : Trial) :
  (∀ exported m, P m → ensures (importIntoModule exported m) (λ r, P r.2)) →
  (∀ n m, P m → P (push n m)) →
  allModules P t → ensures (attempt push i t) (allModules P).
Proof.
  intros Himport Hpush Hall. unfold attempt.
  destruct (modules t !! i) as [m|] eqn:Hi; [|apply ensures_ret, Hall].
  eapply ensures_bind with (P := λ _, True); [easy|].
  intros imp _. simpl.
  destruct (includes (originals m) (name imp)); [apply ensures_ret, Hall|].
  eapply ensures_bind.
  { apply Himport, Hall. eapply list_elem_of_lookup_2. exact Hi. }
  intros [n m'] Hm'. simpl in *. apply ensures_ret.
  intros m0 Hm0. simpl in Hm0.
  apply elem_of_insert_inv in Hm0 as [->|Hm0]; [apply Hpush, Hm' | apply Hall, Hm0].
Qed.

Lemma importIntoModule_noSelfImport (exported : TrialExport) (m : TrialModule) :
  noSelfImport m → always (importIntoModule exported m) (λ r, noSelfImport r.2).
Proof.
  intros Hm. eapply always_mono; [apply importIntoModule_spec|].
  intros r (_ & _ & _ & _ & _ & _ & Hself & _). auto.
Qed.

Lemma importIntoModule_importNames (exported : TrialExport) (m : TrialModule) :
  NoDup (importNames m) →
  always (importIntoModule exported m) (λ r, NoDup (importNames r.2)).
Proof.
  intros Hm. eapply always_mono; [apply importIntoModule_spec|].
  intros r (_ & _ & _ & _ & _ & _ & _ & Hnd & _). auto.
Qed.

(** ** The claims about generated trials *)

(** C2, as the code has it: the names of the originals are pairwise distinct
    across the trial, each is ["export_e"] followed by a counter value in base
    36, and every export entry carries one of them.  After the
    original-exports pass no two export entries share a name; the entries
    that the re-export pass appends repeat the name of the export they
    re-export. *)
Theorem original_names_unique (uuid : string) :
  always (let* t := seedInitialModules (newTrial uuid) in addOriginalExports t)
         exportNamesUnique ∧
  always (generate (newTrial uuid))
         (λ t, NoDup (allOriginals t) ∧
               (∀ o, o ∈ allOriginals t → ∃ k, o = exportName k) ∧
               (∀ x, x ∈ allExports t → name x ∈ allOriginals t)).
Proof.
  split.
  - eapply always_mono; [apply originals_pass_spec|].
    intros t [Hwf Heq]. unfold exportNamesUnique. rewrite Heq.
    apply (wf_originalsNoDup _ Hwf).
  - eapply always_mono; [apply generate_wellFormed|].
    intros t Hwf. split; [apply (wf_originalsNoDup _ Hwf)|].
    split; [apply (wf_originals _ Hwf)|].
    apply (wellFormed_allExports t Hwf).
Qed.

(** C2 as stated fails.  With the draws 0, 0, 0, 1, 1 (and 0 from then on)
    the seed pass makes the modules [e0] and [e1], the original-exports pass
    gives [export_e2] to [e0] and [export_e3] to [e1], the re-export pass
    makes one attempt for [e0], which picks [export_e3], imports it and
    appends it to the exports of [e0], and none for [e1]; the side-effect
    pass makes no attempt.  The trial then has two export entries named
    [export_e3]. *)
Lemma export_names_repeat :
  ∃ t e, generate (newTrial "trial") [0; 0; 0; 1; 1] = Ok (t, e) ∧
         name <$> allExports t = ["export_e2"; "export_e3"; "export_e3"] ∧
         ¬ exportNamesUnique t.
Proof.
  eexists _, _. split; [vm_compute; reflexivity|].
  split; [vm_compute; reflexivity|].
  unfold exportNamesUnique.
  replace (name <$> allExports _)
    with ["export_e2"; "export_e3"; "export_e3"] by (vm_compute; reflexivity).
  intros Hnd. apply NoDup_cons in Hnd as [_ Hnd].
  apply NoDup_cons in Hnd as [Hnotin _]. apply Hnotin. left.
Qed.

(** C6: in every generated trial, before and after the entrypoint choice, no
    module has a binding named like one of its originals; [importIntoModule]
    and every iteration of the re-export and side-effect passes keep it so on
    any trial. *)
Theorem no_self_import (uuid : string) :
  always (generate (newTrial uuid)) (allModules noSelfImport) ∧
  always (plan (newTrial uuid))
         (λ t, allModules noSelfImport t ∧
               ∀ m, m ∈ entrypoints t → noSelfImport m) ∧
  (∀ exported m,
     noSelfImport m →
     always (importIntoModule exported m) (λ r, noSelfImport r.2)) ∧
  (∀ i t,
     allModules noSelfImport t →
     ensures (addReExport i t) (allModules noSelfImport) ∧
     ensures (addSideEffect i t) (allModules noSelfImport)).
Proof.
  split; [|split; [|split]].
  - eapply always_mono; [apply generate_wellFormed|].
    intros t Hwf m Hm. apply (ok_noSelfImport _ _ (wf_modules _ Hwf m Hm)).
  - eapply always_mono; [apply plan_spec|].
    intros t (Hwf & n & _ & Hentry).
    assert (Hall : allModules noSelfImport t).
    { intros m Hm. apply (ok_noSelfImport _ _ (wf_modules _ Hwf m Hm)). }
    split; [exact Hall|]. intros m Hm. apply Hall.
    rewrite Hentry in Hm. eapply subseteq_take. exact Hm.
  - apply importIntoModule_noSelfImport.
  - intros i t Hall. split.
    + apply (attempt_allModules recordReExport noSelfImport); [| |exact Hall].
      * intros exported m Hm. apply always_ensures, importIntoModule_noSelfImport, Hm.
      * intros n m Hm. exact Hm.
    + apply (attempt_allModules pushSideEffect noSelfImport); [| |exact Hall].
      * intros exported m Hm. apply always_ensures, importIntoModule_noSelfImport, Hm.
      * intros n m Hm. exact Hm.
Qed.

(** C7: in every generated trial, before and after the entrypoint choice, the
    bindings of a module have pairwise distinct names.  [importIntoModule]
    keeps the bindings it finds and at most appends one, so do the re-export
    and side-effect passes for every module, and the entrypoint choice only
    reorders the modules: a binding, once in [imports], stays as it is. *)
Theorem import_names_unique (uuid : string) :
  always (generate (newTrial uuid))
         (allModules (λ m, NoDup (importNames m))) ∧
  always (plan (newTrial uuid))
         (λ t, allModules (λ m, NoDup (importNames m)) t ∧
               ∀ m, m ∈ entrypoints t → NoDup (importNames m)) ∧
  (∀ exported m,
     always (importIntoModule exported m)
            (λ r, imports m `prefix_of` imports r.2 ∧
                  (NoDup (importNames m) → NoDup (importNames r.2)))) ∧
  (∀ i t,
     allModules (λ m, NoDup (importNames m)) t →
     ensures (addReExport i t) (allModules (λ m, NoDup (importNames m))) ∧
     ensures (addSideEffect i t) (allModules (λ m, NoDup (importNames m)))) ∧
  (∀ t, ensures (addReExports t) (grows t) ∧
        ensures (addSideEffects t) (grows t) ∧
        always (chooseEntrypoints t) (λ t', modules t' ≡ₚ modules t)).
Proof.
  split; [|split; [|split; [|split]]].
  - eapply always_mono; [apply generate_wellFormed|].
    intros t Hwf m Hm. apply (ok_importNames _ _ (wf_modules _ Hwf m Hm)).
  - eapply always_mono; [apply plan_spec|].
    intros t (Hwf & n & _ & Hentry).
    assert (Hall : allModules (λ m, NoDup (importNames m)) t).
    { intros m Hm. apply (ok_importNames _ _ (wf_modules _ Hwf m Hm)). }
    split; [exact Hall|]. intros m Hm. apply Hall.
    rewrite Hentry in Hm. eapply subseteq_take. exact Hm.
  - intros exported m. eapply always_mono; [apply importIntoModule_spec|].
    intros r (_ & _ & _ & _ & _ & Hpre & _ & Hnd & _). auto.
  - intros i t Hall. split.
    + apply (attempt_allModules recordReExport (λ m, NoDup (importNames m)));
        [| |exact Hall].
      * intros exported m Hm. apply always_ensures, importIntoModule_importNames, Hm.
      * intros n m Hm. exact Hm.
    + apply (attempt_allModules pushSideEffect (λ m, NoDup (importNames m)));
        [| |exact Hall].
      * intros exported m Hm. apply always_ensures, importIntoModule_importNames, Hm.
      * intros n m Hm. exact Hm.
  - intros t. split; [apply addReExports_grows|].
    split; [apply addSideEffects_grows|].
    eapply always_mono; [apply chooseEntrypoints_spec|]. intros t' [Hperm _].
    exact Hperm.
Qed.

(** C8: after planning there are between 1 and min(3, number of modules)
    entrypoints, they are modules of the trial and pairwise distinct (their
    ids are); on any trial the choice permutes [modules] and takes the
    entrypoints from its front. *)
Theorem entrypoints_chosen (uuid : string) :
  always (plan (newTrial uuid))
    (λ t, 1 ≤ length (entrypoints t) ≤ Nat.min 3 (length (modules t)) ∧
          (∀ m, m ∈ entrypoints t → m ∈ modules t) ∧
          NoDup (entrypoints t) ∧
          NoDup (id <$> entrypoints t)) ∧
  (∀ t, always (chooseEntrypoints t)
          (λ t', modules t' ≡ₚ modules t ∧
                 entrypoints t' `prefix_of` modules t')).
Proof.
  split.
  - eapply always_mono; [apply plan_spec|].
    intros t (Hwf & n & Hn & Hentry). rewrite Hentry.
    assert (Hids : NoDup (id <$> take n (modules t))).
    { rewrite fmap_take.
      eapply sublist_NoDup; [apply (wf_idsNoDup _ Hwf) | apply sublist_take]. }
    split; [rewrite length_take; lia|].
    split; [intros m Hm; eapply subseteq_take; exact Hm|].
    split; [eapply NoDup_fmap_1; exact Hids | exact Hids].
  - intros t. eapply always_mono; [apply chooseEntrypoints_spec|].
    intros t' (Hperm & n & _ & Hentry). split; [exact Hperm|].
    rewrite Hentry. apply prefix_take.
Qed.

(** ** Side-effect names as module ids *)

Lemma analyzeImportsOnly_eq (depth : nat) (t : Trial) (i : string)
    (traced effects : list string) :
  analyzeImportsOnly depth t i (traced, effects) =
  match find (λ m, String.eqb (id m) i) (modules t) with
  | None => Some (traced, effects)
  | Some module =>
      if includes traced (id module) then Some (traced, effects)
      else
        match depth with
        | 0 => None
        | S depth' =>
            match forEach (λ sideEffect '(traced, effects),
                             Some (traced, setAdd sideEffect effects))
                          (sideEffects module)
                          (traced ++ [id module], effects) with
            | None => None
            | Some st' =>
                forEach (λ imp : TaggedTrialExport,
                           analyzeImportsOnly depth' t (importedFrom imp))
                        (imports module) st'
            end
        end
  end.
Proof. destruct depth; reflexivity. Qed.

Lemma forEach_ext_in {A S} (body body' : A → S → option S) (xs : list A) :
  (∀ x s, x ∈ xs → body x s = body' x s) →
  ∀ s, forEach body xs s = forEach body' xs s.
Proof.
  induction xs as [|x xs IH]; intros Hbody s; simpl; [reflexivity|].
  rewrite (Hbody x s (list_elem_of_here _ _)).
  destruct (body' x s) as [s'|]; [|reflexivity].
  apply IH. intros y s'' Hy. apply Hbody. right. exact Hy.
Qed.

Lemma find_no_module (t : Trial) (s : string) :
  (∀ m, m ∈ modules t → id m ≠ s) →
  find (λ m, String.eqb (id m) s) (modules t) = None.
Proof.
  intros Hne. apply find_None_all. intros m Hm.
  apply String.eqb_neq, Hne, Hm.
Qed.

Lemma analyzeSideEffects_no_module (depth : nat) (t : Trial) (s : string)
    (st : Analysis) :
  find (λ m, String.eqb (id m) s) (modules t) = None →
  analyzeSideEffects depth t s st = Some st.
Proof.
  intros Hfind. destruct st as [traced effects].
  rewrite analyzeSideEffects_eq, Hfind. reflexivity.
Qed.

Lemma analyzeSideEffects_importsOnly (t : Trial) :
  (∀ m s, m ∈ modules t → s ∈ sideEffects m →
          find (λ m', String.eqb (id m') s) (modules t) = None) →
  ∀ depth i st, analyzeSideEffects depth t i st = analyzeImportsOnly depth t i st.
Proof.
  intros Hnames. induction depth as [|depth IH]; intros i [traced effects];
    rewrite analyzeSideEffects_eq, analyzeImportsOnly_eq; [reflexivity|].
  destruct (find _ (modules t)) as [m|] eqn:Hfind; [|reflexivity].
  destruct (includes traced (id m)); [reflexivity|].
  apply find_module in Hfind as [Hin _].
  rewrite (forEach_ext_in _
             (λ sideEffect '(traced, effects),
                Some (traced, setAdd sideEffect effects))).
  - destruct (forEach _ (sideEffects m) _) as [st'|]; [|reflexivity].
    apply forEach_ext_in. intros imp s _. apply IH.
  - intros x [tr eff] Hx. apply analyzeSideEffects_no_module.
    apply (Hnames m x Hin Hx).
Qed.

(** C9: module ids and export names are disjoint; in every planned trial a
    side-effect name is an export name and the id of no module, so the call
    of [analyzeSideEffects] on it returns the shared state as it received it,
    and the analysis without that call gives the same result from every id,
    every state and every depth bound, in particular for the entrypoints. *)
Theorem sideEffect_calls_are_noops (uuid : string) :
  (∀ j k, moduleId j ≠ exportName k) ∧
  always (plan (newTrial uuid))
    (λ t, (∀ m, m ∈ modules t → ∃ k, id m = moduleId k) ∧
          (∀ m s, m ∈ modules t → s ∈ sideEffects m →
                  (∃ k, s = exportName k) ∧
                  (∀ m', m' ∈ modules t → id m' ≠ s) ∧
                  ∀ depth st, analyzeSideEffects depth t s st = Some st) ∧
          (∀ depth i st,
             analyzeSideEffects depth t i st = analyzeImportsOnly depth t i st) ∧
          (∀ m, m ∈ entrypoints t →
                expectedEffects t (id m) =
                snd <$> analyzeImportsOnly (length (modules t)) t (id m) ([], []))).
Proof.
  split; [apply moduleId_ne_exportName|].
  eapply always_mono; [apply plan_spec|].
  intros t (Hwf & _).
  assert (Hside : ∀ m s, m ∈ modules t → s ∈ sideEffects m →
                         (∃ k, s = exportName k) ∧
                         (∀ m', m' ∈ modules t → id m' ≠ s)).
  { intros m s Hm Hs.
    destruct (wf_originals _ Hwf s) as [k ->].
    { apply (ok_sideEffects _ _ (wf_modules _ Hwf m Hm)), Hs. }
    split; [exists k; reflexivity|].
    intros m' Hm'. destruct (wf_ids _ Hwf m' Hm') as [j ->].
    apply moduleId_ne_exportName. }
  assert (Hfind : ∀ m s, m ∈ modules t → s ∈ sideEffects m →
                         find (λ m', String.eqb (id m') s) (modules t) = None).
  { intros m s Hm Hs. apply find_no_module. apply (Hside m s Hm Hs). }
  split; [apply (wf_ids _ Hwf)|]. split.
  - intros m s Hm Hs. destruct (Hside m s Hm Hs) as [Hname Hids].
    split; [exact Hname|]. split; [exact Hids|].
    intros depth st. apply analyzeSideEffects_no_module, (Hfind m s Hm Hs).
  - split; [apply analyzeSideEffects_importsOnly, Hfind|].
    intros m _. unfold expectedEffects.
    rewrite (analyzeSideEffects_importsOnly t Hfind). reflexivity.
Qed.

(** ** [pick] on the exports of a generated trial *)

(** C10: [pick] on an empty list throws (the [unwrap] of an index out of
    range).  After the original-exports pass every module has an export, so
    the exports of the trial are not empty, [pickRandomExport] returns one of
    them, and the re-export and side-effect passes that follow run to their
    end without an error, as does the whole generation. *)
Theorem pickRandomExport_never_throws (uuid : string) :
  (∀ (T : Type) (e : Entropy), pick (@nil T) e = Throw UnwrapFailed) ∧
  (∀ t, allExports t ≠ [] →
        always (pickRandomExport t) (λ x, x ∈ allExports t)) ∧
  always (let* t := seedInitialModules (newTrial uuid) in addOriginalExports t)
    (λ t, (∀ m, m ∈ modules t → exports m ≠ []) ∧
          allExports t ≠ [] ∧
          always (let* t := addReExports t in addSideEffects t)
                 (λ t', (∀ m, m ∈ modules t' → exports m ≠ []) ∧
                        allExports t' ≠ [])) ∧
  always (generate (newTrial uuid)) (λ t, allExports t ≠ []).
Proof.
  assert (Hexports : ∀ t, wellFormed t →
            (∀ m, m ∈ modules t → exports m ≠ []) ∧ allExports t ≠ []).
  { intros t Hwf. split; [|apply (wellFormed_allExports t Hwf)].
    intros m Hm. apply (ok_hasExport _ _ (wf_modules _ Hwf m Hm)). }
  split; [|split; [|split]].
  - intros T e. destruct e; reflexivity.
  - intros t Hne. unfold pickRandomExport. apply always_pick. exact Hne.
  - eapply always_mono; [apply originals_pass_spec|].
    intros t [Hwf _]. destruct (Hexports t Hwf) as [Hmods Hne].
    split; [exact Hmods|]. split; [exact Hne|].
    eapply always_bind; [apply addReExports_wellFormed, Hwf|].
    intros t' Hwf'. cbn beta.
    eapply always_mono; [apply addSideEffects_wellFormed, Hwf'|].
    intros t'' Hwf''. apply Hexports, Hwf''.
  - eapply always_mono; [apply generate_wellFormed|].
    intros t Hwf. apply Hexports, Hwf.
Qed.


(** * Further properties of the program *)

(** ** What the reachability analysis computes *)

Lemma forEach_prefix {A S} (I : list A → S → Prop) (body : A → S → option S)
    (xs : list A) (s s' : S) :
  I [] s →
  (∀ done x s s', I done s → x ∈ xs → body x s = Some s' → I (done ++ [x]) s') →
  forEach body xs s = Some s' → I xs s'.
Proof.
  intros Hinit Hstep.
  enough (H : ∀ todo done s, I done s → (∀ x, x ∈ todo → x ∈ xs) →
                forEach body todo s = Some s' → I (done ++ todo) s').
  { apply (H xs [] s Hinit). auto. }
  induction todo as [|x todo IH]; intros done s0 Hs Hsub; simpl.
  - intros [= <-]. rewrite app_nil_r. exact Hs.
  - destruct (body x s0) as [s1|] eqn:Hx; [|discriminate]. intros Hrest.
    replace (done ++ x :: todo) with ((done ++ [x]) ++ todo)
      by (rewrite <- app_assoc; reflexivity).
    apply (IH _ s1); [|intros y Hy; apply Hsub; right; exact Hy | exact Hrest].
    apply (Hstep done x s0); [exact Hs | apply Hsub; left | exact Hx].
Qed.

Lemma extends_refl (t : Trial) (root : string) (st : Analysis) :
  extends t root st st.
Proof.
  split; [done|]. split; [done|]. split.
  - intros j Hj Hnj. contradiction.
  - intros x Hx Hnx. contradiction.
Qed.

Lemma closedIn_mono (t : Trial) (traced traced' : list string) (m : TrialModule) :
  traced ⊆ traced' → closedIn t traced m → closedIn t traced' m.
Proof. intros Hsub Hclosed k Hk Hsome. apply Hsub, Hclosed; assumption. Qed.

Lemma extends_trans (t : Trial) (root : string) (s1 s2 s3 : Analysis) :
  extends t root s1 s2 → extends t root s2 s3 → extends t root s1 s3.
Proof.
  intros (Ht & He & Hnew & Heff) (Ht' & He' & Hnew' & Heff').
  split; [etransitivity; eassumption|].
  split; [etransitivity; eassumption|]. split.
  - intros j Hj Hnj. destruct (decide (j ∈ s2.1)) as [Hmid|Hmid].
    + destruct (Hnew j Hmid Hnj) as (m & Hm & Hclosed & Hside & Hreach).
      exists m. split; [exact Hm|].
      split; [eapply closedIn_mono; eassumption|].
      split; [etransitivity; eassumption | exact Hreach].
    + apply Hnew'; assumption.
  - intros x Hx Hnx. destruct (decide (x ∈ s2.2)) as [Hmid|Hmid].
    + apply Heff; assumption.
    + apply Heff'; assumption.
Qed.

Lemma extends_root (t : Trial) (root k : string) (st st' : Analysis) :
  rtc (calls t) root k → extends t k st st' → extends t root st st'.
Proof.
  intros Hreach (Ht & He & Hnew & Heff).
  split; [exact Ht|]. split; [exact He|]. split.
  - intros j Hj Hnj.
    destruct (Hnew j Hj Hnj) as (m & Hm & Hclosed & Hside & Hreach').
    exists m. repeat split; try assumption. etransitivity; eassumption.
  - intros x Hx Hnx. destruct (Heff x Hx Hnx) as (j & m & Hreach' & Hm & Hin).
    exists j, m. repeat split; try assumption. etransitivity; eassumption.
Qed.

Lemma extends_setAdd (t : Trial) (i x : string) (m : TrialModule)
    (traced effects : list string) :
  moduleOf t i = Some m → x ∈ sideEffects m →
  extends t i (traced, effects) (traced, setAdd x effects).
Proof.
  intros Hm Hx. split; [done|]. split; [|split]; simpl.
  - intros y Hy. apply setAdd_elem. right. exact Hy.
  - intros j Hj Hnj. contradiction.
  - intros y Hy Hny. apply setAdd_elem in Hy as [->|Hy]; [|contradiction].
    exists i, m. split; [reflexivity | auto].
Qed.

(** One call: what it adds is reachable from its id, and the id itself is
    traced afterwards when it has a module. *)
Lemma analyzeSideEffects_extends (t : Trial) (depth : nat) :
  ∀ i st st',
    analyzeSideEffects depth t i st = Some st' →
    extends t i st st' ∧ (is_Some (moduleOf t i) → i ∈ st'.1).
Proof.
  induction depth as [|depth IH]; intros i [traced effects] st';
    rewrite analyzeSideEffects_eq; fold (moduleOf t i);
    (destruct (moduleOf t i) as [m|] eqn:Hm;
       [|intros [= <-]; split; [apply extends_refl | intros [? [=]]]]);
    pose proof (find_module _ _ _ Hm) as [Hin Hid];
    (destruct (includes traced (id m)) eqn:Hseen;
       [intros [= <-]; split; [apply extends_refl|];
        intros _; apply includes_true in Hseen; simpl; congruence|]);
    [discriminate|].
  apply includes_false in Hseen. rewrite Hid in *.
  destruct (forEach _ (sideEffects m) _) as [st1|] eqn:Hloop1; [|discriminate].
  intros Hloop2.
  assert (Hcall : ∀ k, k ∈ callees m → rtc (calls t) i k).
  { intros k Hk. apply rtc_once. exists m. auto. }
  (* the loop over the side effects *)
  assert (H1 : extends t i (traced ++ [i], effects) st1 ∧
               (∀ k, k ∈ sideEffects m → is_Some (moduleOf t k) → k ∈ st1.1) ∧
               (∀ k, k ∈ sideEffects m → k ∈ st1.2)).
  { revert Hloop1.
    apply (forEach_prefix
             (λ done st, extends t i (traced ++ [i], effects) st ∧
                         (∀ k, k ∈ done → is_Some (moduleOf t k) → k ∈ st.1) ∧
                         (∀ k, k ∈ done → k ∈ st.2))).
    - split; [apply extends_refl|]. split; intros k Hk; inversion Hk.
    - intros done x [tr eff] s' (Hext & Hdone & Heffs) Hx Hrun.
      destruct (IH x _ _ Hrun) as [Hext' Hx'].
      assert (Hstep : extends t i (tr, eff) s').
      { eapply extends_trans; [apply (extends_setAdd t i x m); assumption|].
        eapply extends_root; [|exact Hext'].
        apply Hcall. apply elem_of_app. left. exact Hx. }
      split; [eapply extends_trans; eassumption|].
      destruct Hstep as (Htr & Heff & _). destruct Hext' as (_ & Heff' & _).
      simpl in *. split.
      + intros k Hk Hsome. apply elem_of_app in Hk as [Hk|Hk].
        * apply Htr, Hdone; assumption.
        * apply list_elem_of_singleton in Hk as ->. apply Hx', Hsome.
      + intros k Hk. apply elem_of_app in Hk as [Hk|Hk].
        * apply Heff, Heffs, Hk.
        * apply list_elem_of_singleton in Hk as ->.
          apply Heff', setAdd_elem. left. reflexivity. }
  destruct H1 as (Hext1 & Hside1 & Heffs1).
  (* the loop over the imports *)
  assert (H2 : extends t i st1 st' ∧
               (∀ c : TaggedTrialExport, c ∈ imports m →
                  is_Some (moduleOf t (importedFrom c)) →
                  importedFrom c ∈ st'.1)).
  { revert Hloop2.
    apply (forEach_prefix
             (λ (done : list TaggedTrialExport) st,
                extends t i st1 st ∧
                (∀ c : TaggedTrialExport, c ∈ done →
                   is_Some (moduleOf t (importedFrom c)) →
                   importedFrom c ∈ st.1))).
    - split; [apply extends_refl|]. intros c Hc. inversion Hc.
    - intros done c s s' (Hext & Hdone) Hc Hrun.
      destruct (IH _ _ _ Hrun) as [Hext' Hc'].
      assert (Hstep : extends t i s s').
      { eapply extends_root; [|exact Hext'].
        apply Hcall. apply elem_of_app. right.
        apply list_elem_of_fmap. exists c. auto. }
      split; [eapply extends_trans; eassumption|].
      destruct Hstep as (Htr & _).
      intros c' Hc'' Hsome. apply elem_of_app in Hc'' as [Hc''|Hc''].
      + apply Htr, Hdone; assumption.
      + apply list_elem_of_singleton in Hc'' as ->. apply Hc', Hsome. }
  destruct H2 as (Hext2 & Himp2).
  pose proof (extends_trans _ _ _ _ _ Hext1 Hext2) as Hext.
  destruct Hext as (Htr & Heff & Hnew & Hneweff).
  destruct Hext2 as (Htr2 & Heff2 & _). simpl in *.
  assert (Hi : i ∈ st'.1).
  { apply Htr, elem_of_app. right. constructor. }
  split; [|intros _; exact Hi].
  split; [|split; [|split]]; simpl.
  - intros j Hj. apply Htr, elem_of_app. left. exact Hj.
  - exact Heff.
  - intros j Hj Hnj. destruct (decide (j = i)) as [->|Hne].
    + exists m. split; [exact Hm|]. split; [|split; [|reflexivity]].
      * intros k Hk Hsome. apply elem_of_app in Hk as [Hk|Hk].
        -- apply Htr2, Hside1; assumption.
        -- apply list_elem_of_fmap in Hk as (c & -> & Hc). apply Himp2; assumption.
      * intros x Hx. apply Heff2, Heffs1, Hx.
    + apply Hnew; [exact Hj|]. intros Habs.
      apply elem_of_app in Habs as [Habs|Habs]; [contradiction|].
      apply list_elem_of_singleton in Habs. contradiction.
  - exact Hneweff.
Qed.

(** The top-level call: it returns; the id is traced if it has a module;
    every traced id has a module reachable from the start whose callees are
    traced and whose side effects are recorded; every recorded effect comes
    from a reachable module. *)
Lemma analyzeSideEffects_closure (t : Trial) (i : string) :
  ∃ traced effects,
    analyzeSideEffects (length (modules t)) t i ([], []) = Some (traced, effects) ∧
    (is_Some (moduleOf t i) → i ∈ traced) ∧
    (∀ j, j ∈ traced →
          ∃ m, moduleOf t j = Some m ∧ sideEffects m ⊆ effects ∧
               rtc (calls t) i j) ∧
    (∀ j, rtc (calls t) i j → is_Some (moduleOf t j) → j ∈ traced) ∧
    (∀ x, x ∈ effects →
          ∃ j m, rtc (calls t) i j ∧ moduleOf t j = Some m ∧ x ∈ sideEffects m).
Proof.
  destruct (analyzeSideEffects_total t (length (modules t)) i [] [])
    as (traced & effects & Hrun & _); [apply untraced_le_length|].
  exists traced, effects. split; [exact Hrun|].
  destruct (analyzeSideEffects_extends _ _ _ _ _ Hrun)
    as ((_ & _ & Hnew & Heff) & Hroot). simpl in *.
  split; [exact Hroot|]. split; [|split].
  - intros j Hj. destruct (Hnew j Hj) as (m & Hm & _ & Hside & Hreach);
      [inversion 1|]. exists m. auto.
  - apply (rtc_ind_r (λ j, is_Some (moduleOf t j) → j ∈ traced));
      [exact Hroot|].
    intros j k _ (m & Hm & Hk) IHreach Hsome.
    destruct (Hnew j) as (m' & Hm' & Hcl & _); [apply IHreach; eauto | inversion 1|].
    rewrite Hm in Hm'. injection Hm' as <-. apply Hcl; assumption.
  - intros x Hx. apply Heff; [exact Hx | inversion 1].
Qed.

(** X1: the expected effects of an id are exactly the side effects of the
    modules that the traversal can reach from it, through side-effect names
    that are module ids and through the [importedFrom] of bindings. *)
Theorem expectedEffects_reachable (t : Trial) (i : string) :
  ∃ effects,
    expectedEffects t i = Some effects ∧
    ∀ x, x ∈ effects ↔
         ∃ j m, rtc (calls t) i j ∧ moduleOf t j = Some m ∧ x ∈ sideEffects m.
Proof.
  destruct (analyzeSideEffects_closure t i)
    as (traced & effects & Hrun & _ & Hnew & Hclosed & Heff).
  exists effects. split; [unfold expectedEffects; rewrite Hrun; reflexivity|].
  intros x. split; [apply Heff|].
  intros (j & m & Hreach & Hm & Hx).
  destruct (Hnew j) as (m' & Hm' & Hside & _); [apply Hclosed; eauto|].
  rewrite Hm in Hm'. injection Hm' as <-. apply Hside, Hx.
Qed.

(** ** The archive over many recordings *)

Lemma string_app_cons (c : ascii) (s1 s2 : string) :
  String c s1 +:+ s2 = String c (s1 +:+ s2).
Proof. reflexivity. Qed.

Lemma string_app_nil (s : string) : "" +:+ s = s.
Proof. reflexivity. Qed.

Lemma string_length_app (s1 s2 : string) :
  String.length (s1 +:+ s2) = String.length s1 + String.length s2.
Proof.
  induction s1 as [|c s1 IH]; [reflexivity|].
  rewrite string_app_cons. simpl. rewrite IH. reflexivity.
Qed.

Lemma string_app_inj_r (s x y : string) : x +:+ s = y +:+ s → x = y.
Proof.
  revert y. induction x as [|c x IH]; intros [|d y] Heq.
  - reflexivity.
  - apply (f_equal String.length) in Heq.
    rewrite string_app_nil, string_app_cons in Heq. simpl in Heq.
    rewrite string_length_app in Heq. lia.
  - apply (f_equal String.length) in Heq.
    rewrite string_app_nil, string_app_cons in Heq. simpl in Heq.
    rewrite string_length_app in Heq. lia.
  - rewrite !string_app_cons in Heq. injection Heq as -> Heq.
    f_equal. apply IH, Heq.
Qed.

Lemma reproPath_inj (c c' : string) : reproPath c = reproPath c' → c = c'.
Proof.
  unfold reproPath. intros Heq.
  apply String.app_inj in Heq. eapply string_app_inj_r. exact Heq.
Qed.

Lemma retainRepro_lookup (category new : string) (fs : gmap string string) :
  retainRepro category new fs !! reproPath category =
    match fs !! reproPath category with
    | Some stored =>
        if String.length stored <? String.length new then Some stored else Some new
    | None => Some new
    end.
Proof.
  unfold retainRepro.
  destruct (fs !! reproPath category) as [stored|] eqn:Hlook.
  - destruct (String.length stored <? String.length new);
      [exact Hlook | apply lookup_insert_eq].
  - apply lookup_insert_eq.
Qed.

Lemma retainRepro_other (category new path : string) (fs : gmap string string) :
  path ≠ reproPath category → retainRepro category new fs !! path = fs !! path.
Proof.
  intros Hne. unfold retainRepro.
  destruct (fs !! reproPath category) as [stored|];
    [destruct (String.length stored <? String.length new)|];
    try reflexivity; apply lookup_insert_ne; congruence.
Qed.

(** X2: after any number of recordings for a category, one after the other,
    the stored document is a shortest one among the document stored before
    and the recorded ones (there is none only if there was none and nothing
    was recorded), and the documents of the other categories are as they
    were. *)
Theorem recordAll_keeps_a_shortest
    (category : string) (docs : list string) (files : gmap string string) :
  match recordAll category docs files !! reproPath category with
  | Some kept =>
      kept ∈ option_list (files !! reproPath category) ++ docs ∧
      ∀ d, d ∈ option_list (files !! reproPath category) ++ docs →
           String.length kept ≤ String.length d
  | None => files !! reproPath category = None ∧ docs = []
  end ∧
  ∀ other, other ≠ category →
           recordAll category docs files !! reproPath other =
           files !! reproPath other.
Proof.
  split.
  - revert files. induction docs as [|new docs IH]; intros files.
    + simpl. destruct (files !! reproPath category) as [stored|]; [|done].
      simpl. split; [constructor|].
      intros d Hd. apply list_elem_of_singleton in Hd as ->. reflexivity.
    + simpl. specialize (IH (retainRepro category new files)).
      fold (recordAll category docs (retainRepro category new files)).
      rewrite retainRepro_lookup in IH.
      destruct (recordAll category docs _ !! reproPath category) as [kept|].
      2:{ destruct (files !! reproPath category) as [stored|];
            [destruct (String.length stored <? String.length new)|];
            destruct IH as [[=] _]. }
      destruct IH as [Hin Hmin].
      destruct (files !! reproPath category) as [stored|]; simpl in *.
      * destruct (String.length stored <? String.length new) eqn:Hlt; simpl in *.
        -- apply Nat.ltb_lt in Hlt. split.
           ++ apply elem_of_cons in Hin as [->|Hin]; [left|].
              right. right. exact Hin.
           ++ intros d Hd. apply elem_of_cons in Hd as [->|Hd];
                [apply Hmin; left|].
              apply elem_of_cons in Hd as [->|Hd]; [|apply Hmin; right; exact Hd].
              specialize (Hmin stored (list_elem_of_here _ _)). lia.
        -- apply Nat.ltb_ge in Hlt. split.
           ++ right. exact Hin.
           ++ intros d Hd. apply elem_of_cons in Hd as [->|Hd]; [|apply Hmin, Hd].
              specialize (Hmin new (list_elem_of_here _ _)). lia.
      * split; [exact Hin | exact Hmin].
  - intros other Hne. revert files.
    induction docs as [|new docs IH]; intros files; simpl; [reflexivity|].
    fold (recordAll category docs (retainRepro category new files)).
    rewrite IH. apply retainRepro_other.
    intros Heq. apply reproPath_inj in Heq. contradiction.
Qed.

(** ** Verification and its failures *)

Lemma toLowerCase_app (s1 s2 : string) :
  toLowerCase (s1 +:+ s2) = toLowerCase s1 +:+ toLowerCase s2.
Proof.
  induction s1 as [|c s1 IH]; [reflexivity|].
  rewrite string_app_cons. simpl. rewrite IH. reflexivity.
Qed.

Lemma find_is_Some {A} (p : A → bool) (l : list A) (x : A) :
  x ∈ l → p x = true → ∃ y, find p l = Some y ∧ y ∈ l ∧ p y = true.
Proof.
  intros Hx Hp. destruct (find p l) as [y|] eqn:Hfind.
  - exists y. apply find_Some_first in Hfind as (i & Hi & Hy & _).
    split; [reflexivity|]. split; [eapply list_elem_of_lookup_2; exact Hi | exact Hy].
  - rewrite find_None_all in Hfind. rewrite (Hfind x Hx) in Hp. discriminate.
Qed.

Lemma missingEffectMessage_classified (effect uuid : string) :
  ∃ category, categorizeError (missingEffectMessage effect uuid) = Ok category ∧
              category ∈ categories.
Proof.
  unfold categorizeError.
  destruct (find_is_Some
              (λ category,
                 stringIncludes (toLowerCase (missingEffectMessage effect uuid))
                                category)
              categories "expected side effect")
    as (category & -> & Hin & _).
  - unfold categories. do 3 right. left.
  - apply stringIncludes_spec.
    set (rest := dquote +:+ effect +:+ dquote +:+
                 " not found in traces for " +:+ uuid +:+ ".").
    change (missingEffectMessage effect uuid)
      with ("Expected side effect" +:+ (" " +:+ rest)).
    rewrite toLowerCase_app. exists "", (toLowerCase (" " +:+ rest)).
    reflexivity.
  - exists category. auto.
Qed.

Lemma verifyEffects_None (uuid : string) (expected observed : list string) :
  verifyEffects uuid expected observed = None →
  ∀ effect, effect ∈ expected → effect ∈ observed.
Proof.
  unfold verifyEffects.
  destruct (find _ expected) as [effect|] eqn:Hfind; [discriminate|].
  intros _ effect Hin. rewrite find_None_all in Hfind.
  specialize (Hfind effect Hin).
  apply negb_false_iff, includes_true in Hfind. exact Hfind.
Qed.

Lemma verifyEffects_Some (uuid : string) (expected observed : list string)
    (message : string) :
  verifyEffects uuid expected observed = Some message →
  ∃ effect, effect ∈ expected ∧ (effect ∉ observed) ∧
            message = missingEffectMessage effect uuid.
Proof.
  unfold verifyEffects.
  destruct (find _ expected) as [effect|] eqn:Hfind; [|discriminate].
  intros [= <-]. apply find_Some_first in Hfind as (i & Hi & Hmiss & _).
  exists effect. split; [eapply list_elem_of_lookup_2; exact Hi|].
  split; [apply includes_false, negb_true_iff, Hmiss | reflexivity].
Qed.

(** X3: the verification loop passes exactly when every expected effect is in
    the trace; otherwise it throws the message naming the first expected
    effect, in the order of the set, that the trace lacks. *)
Theorem verifyEffects_first_missing (uuid : string) (expected observed : list string) :
  (verifyEffects uuid expected observed = None ↔
     ∀ effect, effect ∈ expected → effect ∈ observed) ∧
  ∀ message,
    verifyEffects uuid expected observed = Some message →
    ∃ i effect,
      expected !! i = Some effect ∧ (effect ∉ observed) ∧
      message = missingEffectMessage effect uuid ∧
      ∀ j earlier, j < i → expected !! j = Some earlier → earlier ∈ observed.
Proof.
  unfold verifyEffects. split.
  - destruct (find _ expected) as [effect|] eqn:Hfind.
    + split; [discriminate|]. intros Hall.
      apply find_Some_first in Hfind as (i & Hi & Hmiss & _).
      apply negb_true_iff, includes_false in Hmiss.
      exfalso. apply Hmiss, Hall. eapply list_elem_of_lookup_2. exact Hi.
    + split; [|reflexivity]. intros _ effect Hin.
      rewrite find_None_all in Hfind. specialize (Hfind effect Hin).
      apply negb_false_iff, includes_true in Hfind. exact Hfind.
  - intros message. destruct (find _ expected) as [effect|] eqn:Hfind;
      [|discriminate].
    intros [= <-]. apply find_Some_first in Hfind as (i & Hi & Hmiss & Hbefore).
    exists i, effect. split; [exact Hi|].
    split; [apply includes_false, negb_true_iff, Hmiss|].
    split; [reflexivity|]. intros j earlier Hj Hlook.
    apply includes_true, negb_false_iff. eapply Hbefore; eassumption.
Qed.

(** X4: a missing expected effect never ends the worker.  For a trial with
    an entrypoint, when the bundle runs to its end the block returns
    normally: with the files untouched if the trace has every expected
    effect, and otherwise with a reproduction stored for one of the four
    categories, no longer than the one just built. *)
Theorem verifyAndRecord_completed
    (t : Trial) (entry : TrialModule) (rest : list TrialModule)
    (traces : gmap string (list string)) (repro : string → string)
    (files : gmap string string) :
  entrypoints t = entry :: rest →
  ∃ expected files',
    expectedEffects t (id entry) = Some expected ∧
    verifyAndRecord t (Completed traces) repro files = (Ok (), files') ∧
    ((∀ effect, effect ∈ expected → effect ∈ default [] (traces !! trialId t)) →
     files' = files) ∧
    ((∃ effect, effect ∈ expected ∧ effect ∉ default [] (traces !! trialId t)) →
     ∃ category message stored,
       verifyEffects (trialId t) expected (default [] (traces !! trialId t))
         = Some message ∧
       category ∈ categories ∧
       files' = retainRepro category (repro message) files ∧
       files' !! reproPath category = Some stored ∧
       String.length stored ≤ String.length (repro message)).
Proof.
  intros Hentry.
  destruct (analyzeSideEffects_total t (length (modules t)) (id entry) [] [])
    as (traced & expected & Hrun & _); [apply untraced_le_length|].
  assert (Hexp : expectedEffects t (id entry) = Some expected).
  { unfold expectedEffects. rewrite Hrun. reflexivity. }
  unfold verifyAndRecord. rewrite Hentry. simpl. rewrite Hexp.
  destruct (verifyEffects _ _ _) as [message|] eqn:Hverify.
  - destruct (verifyEffects_Some _ _ _ _ Hverify) as (effect & Hi & Hmiss & ->).
    destruct (missingEffectMessage_classified effect (trialId t))
      as (category & Hcat & Hin).
    unfold recordFailure. rewrite Hcat.
    exists expected, (retainRepro category
                        (repro (missingEffectMessage effect (trialId t))) files).
    split; [reflexivity|]. split; [reflexivity|]. split.
    + intros Hall. exfalso. apply Hmiss, Hall, Hi.
    + intros _. exists category, (missingEffectMessage effect (trialId t)).
      rewrite retainRepro_lookup.
      destruct (files !! reproPath category) as [old|] eqn:Hold.
      * destruct (String.length old <? String.length _) eqn:Hlt.
        -- exists old. apply Nat.ltb_lt in Hlt. repeat split; auto. lia.
        -- eexists. repeat split; auto.
      * eexists. repeat split; auto.
  - exists expected, files. split; [reflexivity|]. split; [reflexivity|].
    split; [reflexivity|]. intros (effect & Hin & Hmiss).
    exfalso. apply Hmiss. eapply verifyEffects_None; eassumption.
Qed.

Lemma verifyAndRecord_completed_witness :
  entrypoints cyclicRun = take 1 (modules cyclicTrial) ∧
  ∃ expected files',
    expectedEffects cyclicRun "e0" = Some expected ∧
    verifyAndRecord cyclicRun (Completed ∅) (λ err, err) ∅ = (Ok (), files').
Proof.
  split; [reflexivity|].
  destruct (verifyAndRecord_completed cyclicRun _ _ ∅ (λ err, err) ∅ eq_refl)
    as (expected & files' & Hexpected & Hrun & _).
  exists expected, files'. split; [exact Hexpected | exact Hrun].
Defined.

(** ** Random choice and identifiers *)

(** X5: [random(min, max)] with [min <= max < 2^53] stays within the range
    and can return every integer of it; [pick] on a non-empty list of fewer
    than 2^53 items (values: none of them is [undefined] or [null]) does not
    throw, returns an item of the list and can return each of them.  The
    bound keeps the arithmetic of [random] exact. *)
Theorem random_and_pick_cover_their_range
    (lo hi : nat) (T : Type) (items : list T) :
  lo ≤ hi →
  (N.of_nat hi < twoTo53)%N →
  items ≠ [] →
  (N.of_nat (length items) < twoTo53)%N →
  (always (random lo hi) (λ n, lo ≤ n ≤ hi) ∧
   ∀ n, lo ≤ n ≤ hi → ∃ e e', random lo hi e = Ok (n, e')) ∧
  (always (pick items) (λ x, x ∈ items) ∧
   ∀ x, x ∈ items → ∃ e e', pick items e = Ok (x, e')).
Proof.
  intros Hle _ Hne _. split.
  - split; [apply always_random, Hle|].
    intros n Hn. exists [n - lo], []. unfold random, bind, draw, ret.
    rewrite Nat.mod_small by lia. do 2 f_equal. lia.
  - split; [apply always_pick, Hne|].
    intros x Hx. apply list_elem_of_lookup in Hx as [i Hi].
    pose proof (lookup_lt_Some _ _ _ Hi) as Hlt.
    exists [i], []. unfold pick, random, bind, draw, ret.
    rewrite Nat.mod_small by lia. rewrite Nat.add_0_r, Hi. reflexivity.
Qed.

Lemma random_and_pick_cover_their_range_witness :
  (2 ≤ 5 ∧ (N.of_nat 5 < twoTo53)%N ∧
   [Static; Dynamic] ≠ [] ∧ (N.of_nat (length [Static; Dynamic]) < twoTo53)%N) ∧
  always (random 2 5) (λ n, 2 ≤ n ≤ 5) ∧
  always (pick [Static; Dynamic]) (λ x, x ∈ [Static; Dynamic]).
Proof.
  assert (H1 : 2 ≤ 5) by lia.
  assert (H2 : (N.of_nat 5 < twoTo53)%N) by reflexivity.
  assert (H3 : [Static; Dynamic] ≠ []) by discriminate.
  assert (H4 : (N.of_nat (length [Static; Dynamic]) < twoTo53)%N) by reflexivity.
  split; [repeat split; assumption|].
  destruct (random_and_pick_cover_their_range 2 5 _ [Static; Dynamic] H1 H2 H3 H4)
    as [[Hrandom _] [Hpick _]].
  split; [exact Hrandom | exact Hpick].
Defined.

Lemma allocate_spec (n : nat) (t : Trial) :
  (allocate n t).1 = moduleId <$> seq (internalIdIncrementor t) n ∧
  internalIdIncrementor (allocate n t).2 = internalIdIncrementor t + n ∧
  modules (allocate n t).2 = modules t.
Proof.
  revert t. induction n as [|n IH]; intros t.
  - simpl. repeat split. lia.
  - cbn [allocate]. unfold getInternalId.
    specialize (IH {| trialId := trialId t; entrypoints := entrypoints t;
                      modules := modules t;
                      internalIdIncrementor := S (internalIdIncrementor t) |}).
    destruct (allocate n _) as [rest t''].
    cbn [fst snd internalIdIncrementor modules] in *.
    destruct IH as (-> & -> & ->).
    split; [reflexivity|]. split; [lia | reflexivity].
Qed.

(** X6: identifiers never collide.  While the counter stays within 2^53, any
    number of successive calls of [getInternalId] gives pairwise distinct
    identifiers, each the letter e followed by characters of [0-9a-z], and
    advances the counter by the number of calls. *)
Theorem getInternalId_never_repeats (n : nat) (t : Trial) :
  (N.of_nat (internalIdIncrementor t + n) ≤ twoTo53)%N →
  NoDup (allocate n t).1 ∧
  length (allocate n t).1 = n ∧
  internalIdIncrementor (allocate n t).2 = internalIdIncrementor t + n ∧
  ∀ i, i ∈ (allocate n t).1 →
       ∃ digits, i = String "e" digits ∧
                 Forall (λ c, isBase36 c = true) (list_ascii_of_string digits).
Proof.
  intros _.
  destruct (allocate_spec n t) as (Hids & Hctr & _). rewrite Hids.
  split; [|split; [|split]].
  - apply NoDup_fmap_2_strong; [|apply NoDup_seq].
    intros j k _ _. apply moduleId_inj.
  - rewrite length_fmap, length_seq. reflexivity.
  - exact Hctr.
  - intros i Hi. apply list_elem_of_fmap in Hi as (k & -> & _).
    exists (toString36 k). split; [apply moduleId_eq | apply toString36_chars].
Qed.

Lemma getInternalId_never_repeats_witness :
  (N.of_nat (internalIdIncrementor (newTrial "trial") + 40) ≤ twoTo53)%N ∧
  NoDup (allocate 40 (newTrial "trial")).1 ∧
  internalIdIncrementor (allocate 40 (newTrial "trial")).2 = 40.
Proof.
  assert (H : (N.of_nat (internalIdIncrementor (newTrial "trial") + 40)
               ≤ twoTo53)%N) by (vm_compute; discriminate).
  split; [exact H|].
  destruct (getInternalId_never_repeats 40 (newTrial "trial") H)
    as (Hdistinct & _ & Hcounter & _).
  split; [exact Hdistinct | exact Hcounter].
Defined.

(** ** The import resolver, case by case *)

Lemma importIntoModule_result (exported : TrialExport) (targetModule : TrialModule) :
  always (importIntoModule exported targetModule)
    (λ r, r.1 = name exported ∧
          ((name exported ∈ importNames targetModule ∨
            name exported ∈ originals targetModule) ∧
           r.2 = targetModule
           ∨
           (name exported ∉ importNames targetModule) ∧
           (name exported ∉ originals targetModule) ∧
           ∃ mode, r.2 = pushImport {| untagged := exported; means := mode |}
                                    targetModule)).
Proof.
  unfold importIntoModule.
  destruct (find _ (imports targetModule)) as [existing|] eqn:Hfind.
  - apply always_ret. simpl.
    apply find_Some_first in Hfind as (k & Hk & Heq & _).
    apply String.eqb_eq in Heq. split; [exact Heq|]. left.
    split; [|reflexivity]. left. unfold importNames.
    apply list_elem_of_fmap. exists existing.
    split; [congruence | eapply list_elem_of_lookup_2; exact Hk].
  - assert (Hnot : name exported ∉ importNames targetModule).
    { unfold importNames. intros Hin.
      apply list_elem_of_fmap in Hin as (b & Hname & Hb).
      rewrite find_None_all in Hfind. specialize (Hfind b Hb).
      apply String.eqb_neq in Hfind. congruence. }
    destruct (includes (originals targetModule) (name exported)) eqn:Horig.
    + apply always_ret. simpl. apply includes_true in Horig. auto.
    + eapply always_bind; [apply always_pick; discriminate|].
      intros mode _. apply always_ret. simpl.
      apply includes_false in Horig.
      split; [reflexivity|]. right. split; [exact Hnot|].
      split; [exact Horig|]. exists mode. reflexivity.
Qed.

(** X7: the contract of [importIntoModule].  When the name of the export is
    already the name of a binding or of an original of the module, the call
    returns that name, leaves the module untouched and draws no random
    number.  Otherwise it returns the name and appends one binding, the
    export tagged static or dynamic, to [imports]; both tags can come out. *)
Theorem importIntoModule_cases (exported : TrialExport) (targetModule : TrialModule) :
  (name exported ∈ importNames targetModule ∨
   name exported ∈ originals targetModule →
   ∀ e, importIntoModule exported targetModule e =
        Ok ((name exported, targetModule), e)) ∧
  ((name exported ∉ importNames targetModule) →
   (name exported ∉ originals targetModule) →
   (∀ e, ∃ mode e',
      importIntoModule exported targetModule e =
      Ok ((name exported,
           pushImport {| untagged := exported; means := mode |} targetModule), e')) ∧
   (∀ mode, ∃ e e',
      importIntoModule exported targetModule e =
      Ok ((name exported,
           pushImport {| untagged := exported; means := mode |} targetModule), e'))).
Proof.
  split.
  - intros Hknown e. unfold importIntoModule.
    destruct (find _ (imports targetModule)) as [existing|] eqn:Hfind.
    + apply find_Some_first in Hfind as (_ & _ & Heq & _).
      apply String.eqb_eq in Heq. unfold ret. rewrite Heq. reflexivity.
    + destruct Hknown as [Hin|Hin].
      * unfold importNames in Hin.
        apply list_elem_of_fmap in Hin as (b & Hname & Hb).
        rewrite find_None_all in Hfind. specialize (Hfind b Hb).
        apply String.eqb_neq in Hfind. congruence.
      * apply includes_true in Hin. rewrite Hin. reflexivity.
  - intros Hi Ho. split.
    + intros e.
      destruct (importIntoModule_result exported targetModule e)
        as ([n m] & e' & Hrun & Hn & Hcases). simpl in *. subst n.
      destruct Hcases as [([Hin|Hin] & _) | (_ & _ & mode & ->)];
        [contradiction..|].
      exists mode, e'. exact Hrun.
    + intros mode. exists [match mode with Static => 0 | Dynamic => 1 end], [].
      unfold importIntoModule.
      assert (Hfind : find (λ existingImport : TaggedTrialExport,
                              String.eqb (name existingImport) (name exported))
                           (imports targetModule) = None).
      { apply find_None_all. intros b Hb. apply String.eqb_neq. intros Heq.
        apply Hi. unfold importNames. apply list_elem_of_fmap. exists b. auto. }
      rewrite Hfind. apply includes_false in Ho. rewrite Ho.
      destruct mode; reflexivity.
Qed.

(** ** Generated trials are closed and linked *)

Lemma always_ensures_and {A} (m : M A) (P Q : A → Prop) :
  always m P → ensures m Q → always m (λ a, P a ∧ Q a).
Proof.
  intros HP HQ e. destruct (HP e) as (a & e' & Hrun & Ha).
  exists a, e'. split; [exact Hrun|]. split; [exact Ha|].
  eapply HQ. exact Hrun.
Qed.

Lemma NoDup_fmap_elem {A B} `{EqDecision B} (f : A → B) (l : list A) (x y : A) :
  NoDup (f <$> l) → x ∈ l → y ∈ l → f x = f y → x = y.
Proof.
  intros Hnd Hx Hy Heq.
  apply list_elem_of_lookup in Hx as [i Hi].
  apply list_elem_of_lookup in Hy as [j Hj].
  assert (i = j) as ->; [|congruence].
  eapply NoDup_lookup; [exact Hnd| |].
  - rewrite list_lookup_fmap, Hi. reflexivity.
  - rewrite list_lookup_fmap, Hj, Heq. reflexivity.
Qed.

Lemma importNames_pushImport (b : TaggedTrialExport) (m : TrialModule) :
  importNames (pushImport b m) = importNames m ++ [name b].
Proof. unfold importNames. simpl. rewrite fmap_app. reflexivity. Qed.

Section Linking.
Variable push : string → TrialModule → TrialModule.
Hypothesis push_id : ∀ n m, id (push n m) = id m.
Hypothesis push_originals : ∀ n m, originals (push n m) = originals m.
Hypothesis push_imports : ∀ n m, imports (push n m) = imports m.
Hypothesis push_ok :
  ∀ names n m, moduleOk names m → n ∈ names → moduleOk names (push n m).
Hypothesis push_bound :
  ∀ n m, bound m → n ∈ importNames m → bound (push n m).
Hypothesis push_exports :
  ∀ n m x, x ∈ exports m → x ∈ exports (push n m).

Lemma attempt_linked (i : nat) (t : Trial) :
  wellFormed t → allModules bound t → linked t →
  always (attempt push i t)
         (λ t', wellFormed t' ∧ allModules bound t' ∧ linked t').
Proof using push_id push_originals push_imports push_ok push_bound push_exports.
  intros Hwf Hbound Hlinked.
  apply always_ensures_and; [apply attempt_wellFormed; assumption|].
  unfold attempt.
  destruct (modules t !! i) as [m|] eqn:Hi; [|apply ensures_ret; auto].
  assert (Hm : m ∈ modules t) by (eapply list_elem_of_lookup_2; exact Hi).
  eapply ensures_bind; [apply always_ensures, always_pick|].
  { apply (wellFormed_allExports t Hwf). }
  intros imp Himp. simpl.
  destruct (includes (originals m) (name imp)) eqn:Horig;
    [apply ensures_ret; auto|].
  apply includes_false in Horig.
  eapply ensures_bind; [apply always_ensures, importIntoModule_result|].
  intros [n m'] (Hn & Hcases). simpl in *. subst n. apply ensures_ret.
  apply elem_of_flat_map in Himp as (m1 & Hm1 & Himp1).
  destruct (bound_exports _ (Hbound m1 Hm1) imp Himp1) as [Hfrom Hnames].
  (* the module after the import *)
  assert (Hm' : id m' = id m ∧ originals m' = originals m ∧
                exports m' = exports m ∧ bound m' ∧
                name imp ∈ importNames m' ∧
                ∀ b : TaggedTrialExport, b ∈ imports m' →
                  b ∈ imports m ∨
                  (importedFrom b = importedFrom imp ∧ name b = name imp ∧
                   (name imp ∉ importNames m))).
  { destruct Hcases as [([Hin|Hin] & ->) | (Hnin & _ & mode & ->)].
    - split; [reflexivity|]. split; [reflexivity|]. split; [reflexivity|].
      split; [apply Hbound, Hm|]. split; [exact Hin|].
      intros b Hb. left. exact Hb.
    - contradiction.
    - rewrite importNames_pushImport. simpl.
      split; [reflexivity|]. split; [reflexivity|]. split; [reflexivity|].
      split; [|split].
      + destruct (Hbound m Hm) as [Hs Hx]. split; simpl.
        * intros s Hs'. rewrite importNames_pushImport.
          apply elem_of_app. left. apply Hs, Hs'.
        * intros x Hx'. rewrite importNames_pushImport.
          destruct (Hx x Hx') as [Hid [Ho|Hi']]; split; auto.
          right. apply elem_of_app. left. exact Hi'.
      + apply elem_of_app. right. constructor.
      + intros b Hb. apply elem_of_app in Hb as [Hb|Hb]; [left; exact Hb|].
        apply list_elem_of_singleton in Hb as ->. right. auto. }
  destruct Hm' as (Hid & Hor & Hex & Hbm' & Hnin' & Himports).
  (* every module of before has a counterpart with the same id and at least
     its exports *)
  assert (Hkeep : ∀ m1, m1 ∈ modules t →
            ∃ m1', m1' ∈ <[i:=push (name imp) m']> (modules t) ∧
                   id m1' = id m1 ∧ ∀ x, x ∈ exports m1 → x ∈ exports m1').
  { intros m2 Hm2. apply list_elem_of_lookup in Hm2 as [k Hk].
    destruct (decide (i = k)) as [->|Hne].
    - rewrite Hi in Hk. injection Hk as <-.
      exists (push (name imp) m'). split; [|split].
      + apply list_elem_of_insert. eapply lookup_lt_Some. exact Hi.
      + rewrite push_id. exact Hid.
      + intros x Hx. apply push_exports. rewrite Hex. exact Hx.
    - exists m2. split; [|auto].
      eapply list_elem_of_lookup_2. rewrite list_lookup_insert_ne; eassumption. }
  assert (Htarget : ∀ (owner : TrialModule) (b : TaggedTrialExport),
            owner ∈ modules t → id owner = importedFrom b →
            name b ∈ name <$> exports owner →
            ∃ m'', m'' ∈ <[i:=push (name imp) m']> (modules t) ∧
                   id m'' = importedFrom b ∧ name b ∈ name <$> exports m'').
  { intros owner b Howner Hidb Hnameb.
    destruct (Hkeep owner Howner) as (owner' & Hin' & Hid' & Hsub).
    exists owner'. split; [exact Hin'|]. split; [congruence|].
    apply list_elem_of_fmap in Hnameb as (x & Hx & Hxin).
    apply list_elem_of_fmap. exists x. auto. }
  split.
  - intros m0 Hm0. simpl in Hm0.
    apply elem_of_insert_inv in Hm0 as [->|Hm0]; [|apply Hbound, Hm0].
    apply push_bound; assumption.
  - intros m0 b Hm0 Hb. simpl in Hm0 |- *.
    apply elem_of_insert_inv in Hm0 as [->|Hm0].
    + rewrite push_imports in Hb. rewrite push_id, Hid.
      destruct (Himports b Hb) as [Hold | (Hfromb & Hnameb & Hfresh)].
      * destruct (Hlinked m b Hm Hold) as (Hne & owner & Howner & Hidb & Hnb).
        split; [exact Hne|]. eapply Htarget; eassumption.
      * split.
        -- rewrite Hfromb, Hfrom. intros Heq.
           assert (m1 = m) as ->.
           { eapply (NoDup_fmap_elem id); [apply (wf_idsNoDup _ Hwf) | | |];
               assumption. }
           destruct Hnames as [Ho|Hi']; contradiction.
        -- apply (Htarget m1 b Hm1); [congruence|].
           rewrite Hnameb. apply list_elem_of_fmap. exists imp. auto.
    + destruct (Hlinked m0 b Hm0 Hb) as (Hne & owner & Howner & Hidb & Hnb).
      split; [exact Hne|]. eapply Htarget; eassumption.
Qed.

Lemma pass_linked (t : Trial) :
  wellFormed t → allModules bound t → linked t →
  always (forModules (λ i t, let* k := random 0 5 in
                             forOf (λ _ t, attempt push i t) (repeat k) t) t)
         (λ t', wellFormed t' ∧ allModules bound t' ∧ linked t').
Proof using push_id push_originals push_imports push_ok push_bound push_exports.
  intros Hwf Hbound Hlinked. unfold forModules.
  apply always_forOf_inv; [auto|].
  intros i s Hs. eapply always_bind; [apply (always_random 0 5); lia|].
  intros k _. simpl. apply always_forOf_inv; [exact Hs|].
  intros _ s' (Hwf' & Hbound' & Hlinked'). apply attempt_linked; assumption.
Qed.
End Linking.

Lemma recordReExport_bound (n : string) (m : TrialModule) :
  bound m → n ∈ importNames m → bound (recordReExport n m).
Proof.
  intros [Hs Hx] Hn. split; simpl; [exact Hs|].
  intros x Hin. apply elem_of_app in Hin as [Hin|Hin]; [apply Hx, Hin|].
  apply list_elem_of_singleton in Hin as ->. simpl. auto.
Qed.

Lemma pushSideEffect_bound (n : string) (m : TrialModule) :
  bound m → n ∈ importNames m → bound (pushSideEffect n m).
Proof.
  intros [Hs Hx] Hn. split; simpl; [|exact Hx].
  intros s Hin. apply elem_of_app in Hin as [Hin|Hin]; [apply Hs, Hin|].
  apply list_elem_of_singleton in Hin as ->. exact Hn.
Qed.

Lemma originalsOnly_linked (t : Trial) :
  originalsOnly t → allModules bound t ∧ linked t.
Proof.
  intros [_ Hshape _ _]. split.
  - intros m Hm. apply list_elem_of_lookup in Hm as [k Hk].
    destruct (Hshape _ _ Hk) as (_ & _ & Hse & Hex). split.
    + intros s Hs. rewrite Hse in Hs. inversion Hs.
    + intros x Hx. rewrite Hex in Hx.
      apply list_elem_of_fmap in Hx as (o & -> & Ho). simpl. auto.
  - intros m b Hm Hb. apply list_elem_of_lookup in Hm as [k Hk].
    destruct (Hshape _ _ Hk) as (_ & Himp & _). rewrite Himp in Hb. inversion Hb.
Qed.

Lemma generate_linked (uuid : string) :
  always (generate (newTrial uuid))
         (λ t, wellFormed t ∧ allModules bound t ∧ linked t).
Proof.
  unfold generate.
  eapply always_bind; [apply seedInitialModules_spec; reflexivity|].
  intros t1 Ht1. simpl. eapply always_bind.
  { apply addOriginalExports_spec, seeded_originalsOnly, Ht1. }
  intros t2 [Hoo Hhas]. simpl.
  destruct (originalsOnly_linked t2 Hoo) as [Hbound Hlinked].
  eapply always_bind.
  { rewrite addReExports_attempts.
    apply (pass_linked recordReExport); try reflexivity;
      [apply recordReExport_ok | apply recordReExport_bound | | | exact Hbound
       | exact Hlinked].
    - intros n m x Hx. simpl. apply elem_of_app. left. exact Hx.
    - apply (originalsOnly_wellFormed t2 Hoo Hhas). }
  intros t3 (Hwf3 & Hbound3 & Hlinked3). simpl.
  rewrite addSideEffects_attempts.
  apply (pass_linked pushSideEffect); try reflexivity;
    [apply pushSideEffect_ok | apply pushSideEffect_bound | | exact Hwf3
     | exact Hbound3 | exact Hlinked3].
  intros n m x Hx. exact Hx.
Qed.

Lemma plan_linked (uuid : string) :
  always (plan (newTrial uuid))
         (λ t, wellFormed t ∧ allModules bound t ∧ linked t).
Proof.
  unfold plan. eapply always_bind; [apply generate_linked|].
  intros t (Hwf & Hbound & Hlinked). cbn beta.
  eapply always_mono; [apply chooseEntrypoints_spec|].
  intros t' (Hperm & _).
  split; [eapply wellFormed_Permutation; eassumption|]. split.
  - intros m Hm. rewrite Hperm in Hm. apply Hbound, Hm.
  - intros m b Hm Hb. rewrite Hperm in Hm.
    destruct (Hlinked m b Hm Hb) as (Hne & owner & Howner & Hrest).
    split; [exact Hne|]. exists owner. rewrite Hperm. auto.
Qed.

Lemma NoDup_flat_map_elem {A B} (f : A → list B) (l : list A) (x : A) :
  NoDup (flat_map f l) → x ∈ l → NoDup (f x).
Proof.
  induction l as [|a l IH]; intros Hnd Hx; [inversion Hx|].
  simpl in Hnd. apply NoDup_app in Hnd as (Ha & _ & Hl).
  inversion Hx; subst; auto.
Qed.

(** X8: in a planned trial every module is closed.  Each of its side effects
    is the name of one of its bindings and of none of its originals; each of
    its export entries is attributed to it and names one of its originals or
    bindings; and the names it declares, originals and bindings, are pairwise
    distinct. *)
Theorem planned_modules_are_closed (uuid : string) :
  always (plan (newTrial uuid))
    (allModules (λ m,
       (∀ s, s ∈ sideEffects m → s ∈ importNames m ∧ s ∉ originals m) ∧
       (∀ x, x ∈ exports m →
             importedFrom x = id m ∧
             (name x ∈ originals m ∨ name x ∈ importNames m)) ∧
       NoDup (originals m ++ importNames m))).
Proof.
  eapply always_mono; [apply plan_linked|].
  intros t (Hwf & Hbound & _) m Hm.
  destruct (Hbound m Hm) as [Hs Hx].
  destruct (wf_modules _ Hwf m Hm) as [_ _ _ Hself Hnd _].
  assert (Hdisjoint : ∀ n, n ∈ importNames m → n ∉ originals m).
  { intros n Hn. apply list_elem_of_fmap in Hn as (b & -> & Hb). apply Hself, Hb. }
  split; [|split].
  - intros s Hin. split; [apply Hs, Hin | apply Hdisjoint, Hs, Hin].
  - exact Hx.
  - apply NoDup_app. split; [|split; [|exact Hnd]].
    + eapply (NoDup_flat_map_elem originals); [apply (wf_originalsNoDup _ Hwf)|].
      exact Hm.
    + intros n Ho Hi. apply (Hdisjoint n Hi Ho).
Qed.

(** X9: in a planned trial every binding is linked.  It comes from a module
    of the trial other than the importing one, and that module has an export
    entry of the binding's name. *)
Theorem planned_imports_are_linked (uuid : string) :
  always (plan (newTrial uuid))
    (λ t, ∀ (m : TrialModule) (b : TaggedTrialExport),
            m ∈ modules t → b ∈ imports m →
            importedFrom b ≠ id m ∧
            ∃ owner, owner ∈ modules t ∧ owner ≠ m ∧
                     id owner = importedFrom b ∧
                     ∃ x, x ∈ exports owner ∧ name x = name b).
Proof.
  eapply always_mono; [apply plan_linked|].
  intros t (_ & _ & Hlinked) m b Hm Hb.
  destruct (Hlinked m b Hm Hb) as (Hne & owner & Howner & Hid & Hname).
  split; [exact Hne|]. exists owner. split; [exact Howner|].
  split; [intros ->; congruence|]. split; [exact Hid|].
  apply list_elem_of_fmap in Hname as (x & Hx & Hin). exists x. auto.
Qed.

(** ** The size of a planned trial *)

Lemma ensures_forOf_split {A S} (I : list A → S → Prop) (body : A → S → M S)
    (xs : list A) (s : S) :
  I [] s →
  (∀ done x rest s, xs = done ++ x :: rest → I done s →
                    ensures (body x s) (I (done ++ [x]))) →
  ensures (forOf body xs s) (I xs).
Proof.
  intros Hinit Hstep.
  enough (H : ∀ todo done s, xs = done ++ todo → I done s →
                ensures (forOf body todo s) (I (done ++ todo))).
  { apply (H xs [] s); [reflexivity | exact Hinit]. }
  induction todo as [|x todo IH]; intros done s' Hxs Hs; simpl.
  - rewrite app_nil_r. apply ensures_ret. exact Hs.
  - eapply ensures_bind; [eapply Hstep; eassumption|].
    intros s'' Hs''. simpl.
    replace (done ++ x :: todo) with ((done ++ [x]) ++ todo)
      by (rewrite <- app_assoc; reflexivity).
    apply IH; [rewrite <- app_assoc; exact Hxs | exact Hs''].
Qed.

Lemma grewBy_refl (g : Growth) (t : Trial) : grewBy g (λ _, 0) t t.
Proof.
  split; [reflexivity|]. split; [reflexivity|].
  intros k m Hk. exists m. split; [exact Hk|]. split; [reflexivity|]. lia.
Qed.

Lemma grewBy_trans (g : Growth) (c1 c2 : nat → nat) (t1 t2 t3 : Trial) :
  grewBy g c1 t1 t2 → grewBy g c2 t2 t3 → grewBy g (λ k, c1 k + c2 k) t1 t3.
Proof.
  intros (Hl1 & Hc1 & H1) (Hl2 & Hc2 & H2).
  split; [congruence|]. split; [intros Hg; rewrite Hc2, Hc1; auto|].
  intros k m Hk.
  destruct (H1 k m Hk) as (m' & Hk' & Ho & Ha & Hb & Hc & Hd).
  destruct (H2 k m' Hk') as (m'' & Hk'' & Ho' & Ha' & Hb' & Hc' & Hd').
  exists m''. split; [exact Hk''|].
  split; [intros Hg; rewrite Ho', Ho; auto|]. nia.
Qed.

Lemma grewBy_le (g : Growth) (c c' : nat → nat) (t t' : Trial) :
  (∀ k, c k ≤ c' k) → grewBy g c t t' → grewBy g c' t t'.
Proof.
  intros Hle (Hl & Hc & H). split; [exact Hl|]. split; [exact Hc|].
  intros k m Hk. destruct (H k m Hk) as (m' & Hk' & Ho & Ha & Hb & Hd & He).
  exists m'. split; [exact Hk'|]. split; [exact Ho|].
  specialize (Hle k). nia.
Qed.

Lemma replaceModule_grewBy (g : Growth) (t t' : Trial) (i : nat) (m m' : TrialModule) :
  modules t !! i = Some m →
  modules t' = <[i:=m']> (modules t) →
  (gOriginals g = 0 → internalIdIncrementor t' = internalIdIncrementor t) →
  (gOriginals g = 0 → originals m' = originals m) →
  length (originals m') ≤ length (originals m) + gOriginals g →
  length (sideEffects m') ≤ length (sideEffects m) + gSideEffects g →
  length (imports m') ≤ length (imports m) + gImports g →
  length (exports m') ≤ length (exports m) + gExports g →
  grewBy g (λ k, if decide (k = i) then 1 else 0) t t'.
Proof.
  intros Hi Hmods Hctr Ho Ha Hb Hc Hd.
  split; [rewrite Hmods; apply length_insert|]. split; [exact Hctr|].
  intros k m0 Hk. rewrite Hmods. destruct (decide (k = i)) as [->|Hne].
  - rewrite Hi in Hk. injection Hk as <-. exists m'.
    split; [apply list_lookup_insert_eq; eapply lookup_lt_Some; exact Hi|].
    split; [exact Ho|]. lia.
  - exists m0. rewrite list_lookup_insert_ne by congruence.
    split; [exact Hk|]. split; [reflexivity|]. lia.
Qed.

(** A pass: at most five steps for every module, each step on one module. *)
Lemma pass_grewBy (g : Growth) (step : nat → Trial → M Trial) (lo : nat) (t : Trial) :
  lo ≤ 5 →
  (∀ i t, ensures (step i t) (grewBy g (λ k, if decide (k = i) then 1 else 0) t)) →
  ensures (forModules (λ i t, let* n := random lo 5 in
                              forOf (λ _ t, step i t) (repeat n) t) t)
          (grewBy g (λ _, 5) t).
Proof.
  intros Hlo Hstep. unfold forModules.
  eapply ensures_mono.
  - apply (ensures_forOf_split
             (λ done t', grewBy g (λ k, if decide (k ∈ done) then 5 else 0) t t')).
    + eapply grewBy_le; [|apply grewBy_refl]. intros k. simpl.
      destruct (decide (k ∈ [])); lia.
    + intros done i rest s Hsplit Hs.
      assert (Hfresh : i ∉ done).
      { pose proof (NoDup_seq 0 (length (modules t))) as Hnd.
        rewrite Hsplit in Hnd. apply NoDup_app in Hnd as (_ & Hnd & _).
        intros Hin. apply (Hnd i Hin). left. }
      eapply ensures_bind; [apply always_ensures, always_random_any|].
      intros n Hn. cbv beta in Hn. simpl.
      eapply ensures_mono.
      * apply (ensures_forOf_split
                 (λ done' t', grewBy g (λ k, if decide (k = i) then length done' else 0)
                                     s t')).
        -- eapply grewBy_le; [|apply grewBy_refl]. intros k. simpl.
           destruct (decide (k = i)); lia.
        -- intros done' x rest' s' _ Hs'.
           eapply ensures_mono; [apply Hstep|]. intros s'' Hs''.
           eapply grewBy_le; [|eapply grewBy_trans; eassumption].
           intros k. simpl. rewrite length_app. simpl.
           destruct (decide (k = i)); lia.
      * intros s' Hs'. eapply grewBy_le; [|eapply grewBy_trans; eassumption].
        intros k. simpl. unfold repeat. rewrite length_seq.
        destruct (decide (k = i)) as [->|Hne].
        -- rewrite decide_False by exact Hfresh.
           rewrite decide_True by (apply elem_of_app; right; constructor). lia.
        -- destruct (decide (k ∈ done)) as [Hin|Hnin].
           ++ rewrite decide_True by (apply elem_of_app; left; exact Hin). lia.
           ++ rewrite decide_False; [lia|]. intros Hin.
              apply elem_of_app in Hin as [Hin|Hin]; [contradiction|].
              apply list_elem_of_singleton in Hin. contradiction.
  - intros t' Ht'. eapply grewBy_le; [|exact Ht']. intros k. simpl.
    destruct (decide (k ∈ _)); lia.
Qed.

Lemma addOriginalExport_grewBy (i : nat) (t : Trial) :
  grewBy {| gOriginals := 1; gSideEffects := 0; gImports := 0; gExports := 1 |}
         (λ k, if decide (k = i) then 1 else 0) t (addOriginalExport i t).
Proof.
  unfold addOriginalExport. destruct (modules t !! i) as [m|] eqn:Hi.
  - unfold getInternalId.
    eapply replaceModule_grewBy; [exact Hi | reflexivity | simpl..];
      try discriminate; rewrite ?length_app; simpl; lia.
  - eapply grewBy_le; [|apply grewBy_refl]. intros k. simpl.
    destruct (decide (k = i)); lia.
Qed.

Lemma attempt_grewBy (push : string → TrialModule → TrialModule) (g : Growth)
    (i : nat) (t : Trial) :
  gOriginals g = 0 → 1 ≤ gImports g →
  (∀ n m, originals (push n m) = originals m) →
  (∀ n m, imports (push n m) = imports m) →
  (∀ n m, length (sideEffects (push n m)) ≤ length (sideEffects m) + gSideEffects g) →
  (∀ n m, length (exports (push n m)) ≤ length (exports m) + gExports g) →
  ensures (attempt push i t) (grewBy g (λ k, if decide (k = i) then 1 else 0) t).
Proof.
  intros Hg Hgi Hpo Hpi Hps Hpe.
  assert (Hnone : grewBy g (λ k, if decide (k = i) then 1 else 0) t t).
  { eapply grewBy_le; [|apply grewBy_refl]. intros k. simpl.
    destruct (decide (k = i)); lia. }
  unfold attempt. destruct (modules t !! i) as [m|] eqn:Hi;
    [|apply ensures_ret, Hnone].
  eapply ensures_bind with (P := λ _, True); [easy|].
  intros imp _. simpl.
  destruct (includes (originals m) (name imp)); [apply ensures_ret, Hnone|].
  eapply ensures_bind; [apply always_ensures, importIntoModule_result|].
  intros [n m'] (_ & Hcases). simpl in *. apply ensures_ret.
  eapply replaceModule_grewBy; [exact Hi | reflexivity | reflexivity |..].
  - intros _. rewrite Hpo.
    destruct Hcases as [(_ & ->) | (_ & _ & mode & ->)]; reflexivity.
  - rewrite Hpo.
    destruct Hcases as [(_ & ->) | (_ & _ & mode & ->)]; simpl; lia.
  - specialize (Hps n m').
    destruct Hcases as [(_ & ->) | (_ & _ & mode & ->)]; simpl in *; lia.
  - rewrite Hpi.
    destruct Hcases as [(_ & ->) | (_ & _ & mode & ->)]; simpl;
      rewrite ?length_app; simpl; lia.
  - specialize (Hpe n m').
    destruct Hcases as [(_ & ->) | (_ & _ & mode & ->)]; simpl in *; lia.
Qed.

Lemma addOriginalExports_grewBy (t : Trial) :
  ensures (addOriginalExports t)
    (grewBy {| gOriginals := 1; gSideEffects := 0; gImports := 0; gExports := 1 |}
            (λ _, 5) t).
Proof.
  apply (pass_grewBy _ (λ i t, ret (addOriginalExport i t)) 1); [lia|].
  intros i s. apply ensures_ret, addOriginalExport_grewBy.
Qed.

Lemma addReExports_grewBy (t : Trial) :
  ensures (addReExports t)
    (grewBy {| gOriginals := 0; gSideEffects := 0; gImports := 1; gExports := 1 |}
            (λ _, 5) t).
Proof.
  rewrite addReExports_attempts. apply pass_grewBy; [lia|].
  intros i s. apply attempt_grewBy; simpl; try reflexivity; try lia;
    intros n m; unfold recordReExport; simpl; rewrite ?length_app; simpl; lia.
Qed.

Lemma addSideEffects_grewBy (t : Trial) :
  ensures (addSideEffects t)
    (grewBy {| gOriginals := 0; gSideEffects := 1; gImports := 1; gExports := 0 |}
            (λ _, 5) t).
Proof.
  rewrite addSideEffects_attempts. apply pass_grewBy; [lia|].
  intros i s. apply attempt_grewBy; simpl; try reflexivity; try lia;
    intros n m; simpl; rewrite ?length_app; simpl; lia.
Qed.

Lemma flat_map_pointwise {A B} (f : A → list B) (l l' : list A) :
  length l' = length l →
  (∀ k x, l !! k = Some x → ∃ x', l' !! k = Some x' ∧ f x' = f x) →
  flat_map f l' = flat_map f l.
Proof.
  revert l'. induction l as [|a l IH]; intros [|a' l'] Hlen Hpt;
    try discriminate; [reflexivity|].
  simpl. destruct (Hpt 0 a eq_refl) as (x' & [= <-] & ->).
  f_equal. apply IH; [simpl in Hlen; lia|].
  intros k x Hk. apply (Hpt (S k) x Hk).
Qed.

Lemma grewBy_counted (g : Growth) (c : nat → nat) (t t' : Trial) :
  gOriginals g = 0 → grewBy g c t t' → counted t → counted t'.
Proof.
  intros Hg (Hlen & Hctr & Hmods) Hcounted. unfold counted, allOriginals in *.
  rewrite (Hctr Hg), Hlen, Hcounted.
  rewrite (flat_map_pointwise originals (modules t) (modules t') Hlen);
    [reflexivity|].
  intros k m Hk. destruct (Hmods k m Hk) as (m' & Hk' & Ho & _).
  exists m'. auto.
Qed.

Lemma addOriginalExport_counted (i : nat) (t : Trial) :
  counted t → counted (addOriginalExport i t).
Proof.
  unfold counted, addOriginalExport, allOriginals. intros Hcounted.
  destruct (modules t !! i) as [m|] eqn:Hi; [|exact Hcounted].
  unfold getInternalId. simpl. rewrite length_insert.
  match goal with
  | |- context [<[i:=pushOriginal ?exp m]> (modules t)] =>
      rewrite (Permutation_length
                 (flat_map_insert_app originals (modules t) i m
                    (pushOriginal exp m) [name exp] Hi eq_refl))
  end.
  rewrite length_app, Hcounted. simpl. lia.
Qed.

Lemma addOriginalExports_counted (t : Trial) :
  counted t → ensures (addOriginalExports t) counted.
Proof.
  intros Ht. unfold addOriginalExports, forModules.
  apply ensures_forOf; [exact Ht|].
  intros i s Hs. eapply ensures_bind with (P := λ _, True); [easy|].
  intros n _. simpl. apply ensures_forOf; [exact Hs|].
  intros _ s' Hs'. apply ensures_ret, addOriginalExport_counted, Hs'.
Qed.

Lemma length_flat_map_le {A B} (f : A → list B) (l : list A) (b : nat) :
  (∀ x, x ∈ l → length (f x) ≤ b) → length (flat_map f l) ≤ b * length l.
Proof.
  induction l as [|a l IH]; intros Hb; simpl; [lia|].
  rewrite length_app.
  specialize (Hb a (list_elem_of_here _ _)) as Ha.
  assert (length (flat_map f l) ≤ b * length l).
  { apply IH. intros x Hx. apply Hb. right. exact Hx. }
  nia.
Qed.

Lemma chooseEntrypoints_counter (t : Trial) :
  ensures (chooseEntrypoints t)
          (λ t', internalIdIncrementor t' = internalIdIncrementor t).
Proof.
  unfold chooseEntrypoints.
  eapply ensures_bind with (P := λ _, True); [easy|]. intros shuffled _. simpl.
  eapply ensures_bind with (P := λ _, True); [easy|]. intros n _. simpl.
  apply ensures_ret. reflexivity.
Qed.

Lemma generate_sizes (uuid : string) :
  always (generate (newTrial uuid))
         (λ t, wellFormed t ∧ counted t ∧ allModules sized t).
Proof.
  unfold generate.
  eapply always_bind; [apply seedInitialModules_spec; reflexivity|].
  intros t1 Ht1. simpl.
  pose proof (seeded_originalsOnly t1 Ht1) as Hoo1.
  destruct Ht1 as (n & Hn & Hmods1 & Hctr1).
  assert (Hcounted1 : counted t1).
  { unfold counted, allOriginals. rewrite Hctr1, Hmods1, length_fmap, length_seq.
    rewrite flat_map_nil; [simpl; lia|].
    intros m Hm. apply list_elem_of_fmap in Hm as (k & -> & _). reflexivity. }
  eapply always_bind.
  { apply always_ensures_and;
      [apply always_ensures_and;
         [apply addOriginalExports_spec, Hoo1 | apply addOriginalExports_grewBy]
      | apply addOriginalExports_counted, Hcounted1]. }
  intros t2 (((Hoo & Hhas) & Hg2) & Hcounted2). simpl.
  destruct (originalsOnly_wellFormed t2 Hoo Hhas) as [Hwf2 _].
  eapply always_bind.
  { apply always_ensures_and;
      [apply addReExports_wellFormed, Hwf2 | apply addReExports_grewBy]. }
  intros t3 (Hwf3 & Hg3). simpl.
  eapply always_mono.
  { apply always_ensures_and;
      [apply addSideEffects_wellFormed, Hwf3 | apply addSideEffects_grewBy]. }
  intros t4 (Hwf4 & Hg4). simpl.
  assert (Hcounted4 : counted t4).
  { eapply grewBy_counted; [| exact Hg4 |]; [reflexivity|].
    eapply grewBy_counted; [| exact Hg3 |]; [reflexivity | exact Hcounted2]. }
  split; [exact Hwf4|]. split; [exact Hcounted4|].
  intros m4 Hm4. apply list_elem_of_lookup in Hm4 as [k Hk4].
  destruct Hg2 as (Hl2 & _ & Hg2), Hg3 as (Hl3 & _ & Hg3), Hg4 as (Hl4 & _ & Hg4).
  assert (Hk : k < length (modules t1)).
  { apply lookup_lt_Some in Hk4. lia. }
  destruct (lookup_lt_is_Some_2 _ _ Hk) as [m1 Hk1].
  assert (Hempty : originals m1 = [] ∧ sideEffects m1 = [] ∧
                   imports m1 = [] ∧ exports m1 = []).
  { rewrite Hmods1, list_lookup_fmap in Hk1.
    destruct (seq 0 n !! k); [|discriminate]. injection Hk1 as <-. auto. }
  destruct Hempty as (Eo & Es & Ei & Ee).
  destruct (Hg2 k m1 Hk1) as (m2 & Hk2 & _ & Ho2 & Hs2 & Hi2 & He2).
  destruct (Hg3 k m2 Hk2) as (m3 & Hk3 & Heq3 & _ & Hs3 & Hi3 & He3).
  destruct (Hg4 k m3 Hk3) as (m4' & Hk4' & Heq4 & _ & Hs4 & Hi4 & He4).
  rewrite Hk4 in Hk4'. injection Hk4' as <-.
  rewrite Eo, Es, Ei, Ee in *. simpl in *.
  destruct (Hhas k) as (m2' & Hk2' & Hne); [lia|].
  rewrite Hk2 in Hk2'. injection Hk2' as <-.
  unfold sized. rewrite (Heq4 eq_refl), (Heq3 eq_refl).
  destruct (originals m2); [contradiction|]. simpl in *. lia.
Qed.

(** X10: the size of a planned trial.  It has 2 to 5 modules; a module has 1
    to 5 originals, at most 5 side effects, at most 10 bindings and at most
    10 export entries; the identifier counter counts the modules and the
    originals and is at most 30. *)
Theorem planned_trial_sizes (uuid : string) :
  always (plan (newTrial uuid))
    (λ t, 2 ≤ length (modules t) ≤ 5 ∧
          internalIdIncrementor t = length (modules t) + length (allOriginals t) ∧
          internalIdIncrementor t ≤ 30 ∧
          allModules sized t).
Proof.
  unfold plan. eapply always_bind; [apply generate_sizes|].
  intros t (Hwf & Hcounted & Hsized). cbn beta.
  eapply always_mono.
  { apply always_ensures_and;
      [apply chooseEntrypoints_spec | apply chooseEntrypoints_counter]. }
  intros t' ((Hperm & _) & Hctr). cbn beta in *.
  pose proof (wf_count _ Hwf) as Hcount.
  assert (Hall : length (allOriginals t') = length (allOriginals t)).
  { apply Permutation_length, flat_map_Permutation, Hperm. }
  assert (Hle : length (allOriginals t) ≤ 5 * length (modules t)).
  { apply length_flat_map_le. intros m Hm. apply (Hsized m Hm). }
  unfold counted in Hcounted.
  rewrite (Permutation_length Hperm), Hall, Hctr.
  split; [exact Hcount|]. split; [exact Hcounted|]. split; [lia|].
  intros m Hm. rewrite Hperm in Hm. apply Hsized, Hm.
Qed.

(** ** The expected effects of a planned trial *)

Lemma moduleOf_elem (t : Trial) (m : TrialModule) :
  NoDup (id <$> modules t) → m ∈ modules t → moduleOf t (id m) = Some m.
Proof.
  intros Hnd Hm. unfold moduleOf.
  destruct (find_is_Some (λ m', String.eqb (id m') (id m)) (modules t) m Hm)
    as (m' & Hfind & Hm' & Heq); [apply String.eqb_refl|].
  rewrite Hfind. f_equal. apply String.eqb_eq in Heq.
  eapply (NoDup_fmap_elem id); eassumption.
Qed.

Lemma wellFormed_sideEffect_no_module (t : Trial) (m : TrialModule) (s : string) :
  wellFormed t → m ∈ modules t → s ∈ sideEffects m → moduleOf t s = None.
Proof.
  intros Hwf Hm Hs. apply find_no_module. intros m' Hm'.
  destruct (wf_originals _ Hwf s) as [k ->].
  { apply (ok_sideEffects _ _ (wf_modules _ Hwf m Hm)), Hs. }
  destruct (wf_ids _ Hwf m' Hm') as [j ->]. apply moduleId_ne_exportName.
Qed.

(** X11: in a planned trial the expected effects of any id, an entrypoint in
    particular, are exactly the side effects of the modules reached from it
    by following bindings to the modules they come from; each of them is the
    name of an original of some module of the trial. *)
Theorem planned_expectedEffects_follow_imports (uuid : string) :
  always (plan (newTrial uuid))
    (λ t, ∀ i, ∃ effects,
            expectedEffects t i = Some effects ∧
            (∀ x, x ∈ effects ↔
                  ∃ m, rtc (importsFrom t) i (id m) ∧ m ∈ modules t ∧
                       x ∈ sideEffects m) ∧
            (∀ x, x ∈ effects → x ∈ allOriginals t)).
Proof.
  eapply always_mono; [apply plan_linked|].
  intros t (Hwf & _ & _) i.
  pose proof (wf_idsNoDup _ Hwf) as Hnd.
  destruct (analyzeSideEffects_closure t i)
    as (traced & effects & Hrun & _ & Hnew & Hclosed & Heff).
  exists effects. split; [unfold expectedEffects; rewrite Hrun; reflexivity|].
  assert (Hto : ∀ j, rtc (calls t) i j → is_Some (moduleOf t j) →
                     rtc (importsFrom t) i j).
  { apply (rtc_ind_r (λ j, is_Some (moduleOf t j) → rtc (importsFrom t) i j));
      [reflexivity|].
    intros j k _ (m & Hm & Hk) IH Hsome.
    apply find_module in Hm as Hin. destruct Hin as [Hin Hid].
    eapply rtc_r; [apply IH; unfold moduleOf; eauto|].
    apply elem_of_app in Hk as [Hk|Hk].
    - rewrite (wellFormed_sideEffect_no_module t m k Hwf Hin Hk) in Hsome.
      destruct Hsome as [? [=]].
    - apply list_elem_of_fmap in Hk as (b & -> & Hb). exists m, b. auto. }
  assert (Hfrom : ∀ j, rtc (importsFrom t) i j → rtc (calls t) i j).
  { apply (rtc_ind_r (λ j, rtc (calls t) i j)); [reflexivity|].
    intros j k _ (m & b & Hm & Hid & Hb & Hk) IH.
    eapply rtc_r; [exact IH|]. exists m. subst j k.
    split; [apply moduleOf_elem; assumption|].
    apply elem_of_app. right. apply list_elem_of_fmap. exists b. auto. }
  split.
  - intros x. split.
    + intros Hx. destruct (Heff x Hx) as (j & m & Hreach & Hm & Hin).
      apply find_module in Hm as Hmod. destruct Hmod as [Hmod Hid].
      exists m. rewrite Hid. split; [|auto].
      apply Hto; [exact Hreach | unfold moduleOf; eauto].
    + intros (m & Hreach & Hm & Hx).
      destruct (Hnew (id m)) as (m' & Hm' & Hside & _).
      * apply Hclosed; [apply Hfrom, Hreach|].
        rewrite moduleOf_elem by assumption. eauto.
      * rewrite moduleOf_elem in Hm' by assumption. injection Hm' as <-.
        apply Hside, Hx.
  - intros x Hx. destruct (Heff x Hx) as (j & m & _ & Hm & Hin).
    apply find_module in Hm as [Hmod _].
    apply (ok_sideEffects _ _ (wf_modules _ Hwf m Hmod)), Hin.
Qed.

(** ** The throughput counters *)





(** ** The source of a module *)

Lemma dedupe_snoc (names : list string) (n : string) :
  dedupe (names ++ [n]) = setAdd n (dedupe names).
Proof. unfold dedupe. rewrite foldl_app. reflexivity. Qed.

Lemma dedupe_spec (names : list string) :
  NoDup (dedupe names) ∧
  (∀ n, n ∈ dedupe names ↔ n ∈ names) ∧
  dedupe names `sublist_of` names.
Proof.
  induction names as [|n names IH] using rev_ind.
  - split; [constructor|]. split; [reflexivity | constructor].
  - destruct IH as (Hnd & Hin & Hsub). rewrite dedupe_snoc.
    split; [apply setAdd_NoDup, Hnd|]. split.
    + intros x. rewrite setAdd_elem, elem_of_app, list_elem_of_singleton, Hin.
      tauto.
    + unfold setAdd. destruct (includes (dedupe names) n).
      * apply sublist_inserts_r. exact Hsub.
      * apply sublist_app; [exact Hsub | reflexivity].
Qed.

(** X13: the source of a module has four lines for every original, one for
    every binding, one for every side effect, and, when the module has
    export entries, one export statement at the end.  That statement lists
    each exported name once, in the order of the first entries of the names;
    a module without export entries has no export statement. *)
Theorem codegenModule_export_statement (t : Trial) (m : TrialModule) :
  length (codegenLines t m) =
    4 * length (originals m) + length (imports m) + length (sideEffects m) +
    (if exports m is [] then 0 else 1) ∧
  (exports m = [] →
     codegenLines t m =
       flat_map (originalLines t) (originals m) ++
       (importLine <$> imports m) ++ (callLine <$> sideEffects m)) ∧
  (exports m ≠ [] →
     ∃ names,
       codegenLines t m =
         flat_map (originalLines t) (originals m) ++
         (importLine <$> imports m) ++ (callLine <$> sideEffects m) ++
         ["export { " +:+ join ", " names +:+ " };"] ∧
       NoDup names ∧
       (∀ n, n ∈ names ↔ ∃ x, x ∈ exports m ∧ name x = n) ∧
       names `sublist_of` (name <$> exports m)).
Proof.
  split; [|split].
  - unfold codegenLines, exportLines.
    rewrite !length_app, !length_fmap.
    assert (Hfour : ∀ l, length (flat_map (originalLines t) l) = 4 * length l).
    { induction l as [|o l IH]; [reflexivity|].
      cbn [flat_map]. rewrite length_app, IH. simpl. lia. }
    rewrite Hfour. destruct (exports m); simpl; lia.
  - intros Hnil. unfold codegenLines, exportLines. rewrite Hnil.
    rewrite app_nil_r. reflexivity.
  - intros Hne. exists (dedupe (name <$> exports m)).
    destruct (dedupe_spec (name <$> exports m)) as (Hnd & Hin & Hsub).
    split; [|split; [exact Hnd | split; [|exact Hsub]]].
    + unfold codegenLines, exportLines.
      destruct (exports m); [contradiction | reflexivity].
    + intros n. rewrite Hin, list_elem_of_fmap.
      split; intros (x & Hx & Hx'); exists x; auto.
Qed.

(** X14: in the source of a module of a planned trial every call is preceded
    by the line that binds the called name: for every side effect there is a
    binding of that name whose import line comes before the call. *)
Theorem planned_source_binds_before_use (uuid : string) :
  always (plan (newTrial uuid))
    (λ t, ∀ m s, m ∈ modules t → s ∈ sideEffects m →
            ∃ (b : TaggedTrialExport) before between after,
              b ∈ imports m ∧ name b = s ∧
              codegenLines t m =
                before ++ importLine b :: between ++ callLine s :: after).
Proof.
  eapply always_mono; [apply plan_linked|].
  intros t (_ & Hbound & _) m s Hm Hs.
  pose proof (bound_sideEffects _ (Hbound m Hm) s Hs) as Hin.
  unfold importNames in Hin. apply list_elem_of_fmap in Hin as (b & -> & Hb).
  apply list_elem_of_split in Hb as (i1 & i2 & Himports).
  apply list_elem_of_split in Hs as (s1 & s2 & Hside).
  exists b, (flat_map (originalLines t) (originals m) ++ (importLine <$> i1)),
    ((importLine <$> i2) ++ (callLine <$> s1)),
    ((callLine <$> s2) ++ exportLines m).
  split; [rewrite Himports; apply elem_of_app; right; left|].
  split; [reflexivity|].
  unfold codegenLines. rewrite Himports, Hside.
  rewrite !fmap_app, !fmap_cons, <- !app_assoc. simpl.
  rewrite <- ?app_assoc. reflexivity.
Qed.

(** ** The reproduction document *)

Lemma prefix_newline (c : ascii) (x : string) :
  String.prefix newline (String c x) = Ascii.eqb c "010".
Proof.
  unfold newline. cbn [String.prefix].
  destruct (Ascii.ascii_dec "010" c) as [<-|Hne].
  - destruct x; reflexivity.
  - symmetry. apply Ascii.eqb_neq. congruence.
Qed.

Lemma stringIncludes_newline (s : string) :
  stringIncludes s newline = false ↔
  ∀ c, c ∈ list_ascii_of_string s → c ≠ "010"%char.
Proof.
  induction s as [|c s IH].
  - split; [intros _ c Hc; inversion Hc | reflexivity].
  - cbn [stringIncludes list_ascii_of_string].
    rewrite prefix_newline, orb_false_iff, IH, Ascii.eqb_neq. split.
    + intros [Hc Hs] c' Hc'. inversion Hc'; subst; auto.
    + intros Hall. split; [apply Hall; left|].
      intros c' Hc'. apply Hall. right. exact Hc'.
Qed.

Lemma list_ascii_of_string_app (s1 s2 : string) :
  list_ascii_of_string (s1 +:+ s2) =
  list_ascii_of_string s1 ++ list_ascii_of_string s2.
Proof.
  induction s1 as [|c s1 IH]; [reflexivity|].
  rewrite string_app_cons. simpl. rewrite IH. reflexivity.
Qed.

Lemma stringIncludes_newline_app (s1 s2 : string) :
  stringIncludes s1 newline = false → stringIncludes s2 newline = false →
  stringIncludes (s1 +:+ s2) newline = false.
Proof.
  rewrite !stringIncludes_newline, list_ascii_of_string_app.
  intros H1 H2 c Hc. apply elem_of_app in Hc as [Hc|Hc]; auto.
Qed.

Lemma stringRepeat_no_newline (n : nat) :
  stringIncludes (stringRepeat "    " n) newline = false.
Proof.
  induction n as [|n IH]; [reflexivity|]. simpl.
  apply stringIncludes_newline_app; [reflexivity | exact IH].
Qed.

Lemma splitNewline_nonempty (text : string) : splitNewline text ≠ [].
Proof.
  destruct text as [|c text]; simpl; [discriminate|].
  destruct (Ascii.eqb c "010"); [discriminate|].
  destruct (splitNewline text); discriminate.
Qed.

Lemma splitNewline_single (text : string) :
  stringIncludes text newline = false → splitNewline text = [text].
Proof.
  induction text as [|c text IH]; [reflexivity|].
  cbn [stringIncludes splitNewline].
  rewrite prefix_newline, orb_false_iff. intros [Hc Hrest].
  rewrite Hc, (IH Hrest). reflexivity.
Qed.

Lemma splitNewline_segments (text segment : string) :
  segment ∈ splitNewline text → stringIncludes segment newline = false.
Proof.
  revert segment. induction text as [|c text IH]; intros segment; simpl.
  - intros Hin. apply list_elem_of_singleton in Hin as ->. reflexivity.
  - destruct (Ascii.eqb c "010") eqn:Hc.
    + intros Hin. apply elem_of_cons in Hin as [->|Hin]; [reflexivity | auto].
    + pose proof (splitNewline_nonempty text) as Hne.
      destruct (splitNewline text) as [|first rest]; [contradiction|].
      intros Hin. apply elem_of_cons in Hin as [->|Hin].
      * cbn [stringIncludes]. rewrite prefix_newline, Hc. simpl.
        apply IH. left.
      * apply IH. right. exact Hin.
Qed.

Lemma foldl_pushLine (segments : list string) (w : Writer) :
  let w' := foldl (λ w ln, pushLine ln w) w segments in
  lines w' =
    lines w ++ ((λ ln, stringRepeat "    " (indentLevel w) +:+ ln) <$> segments) ∧
  indentLevel w' = indentLevel w ∧
  (segments ≠ [] → printedGap w' = false).
Proof.
  revert w. induction segments as [|ln segments IH]; intros w; simpl.
  - rewrite app_nil_r. repeat split. congruence.
  - destruct (IH (pushLine ln w)) as (Hl & Hi & Hp). simpl in *.
    rewrite Hl, Hi, <- app_assoc. repeat split.
    intros _. destruct segments; [reflexivity | apply Hp; discriminate].
Qed.

(** What [line] does: one line for every piece of the text, each behind the
    indentation. *)
Lemma line_spec (text : string) (w : Writer) :
  lines (line text w) =
    lines w ++ ((λ ln, stringRepeat "    " (indentLevel w) +:+ ln)
                  <$> splitNewline text) ∧
  indentLevel (line text w) = indentLevel w ∧
  printedGap (line text w) = false.
Proof.
  unfold line.
  change (lineFuel 1 text w)
    with (if stringIncludes text newline
          then foldl (λ w ln, lineFuel 0 ln w) w (splitNewline text)
          else pushLine text w).
  destruct (stringIncludes text newline) eqn:Hnl.
  - assert (Hfold : foldl (λ w ln, lineFuel 0 ln w) w (splitNewline text) =
                    foldl (λ w ln, pushLine ln w) w (splitNewline text)).
    { pose proof (splitNewline_segments text) as Hseg.
      revert w. induction (splitNewline text) as [|ln l IH]; intros w;
        [reflexivity|].
      simpl. rewrite (Hseg ln) by left.
      apply IH. intros seg Hin. apply Hseg. right. exact Hin. }
    rewrite Hfold.
    destruct (foldl_pushLine (splitNewline text) w) as (Hl & Hi & Hp).
    split; [exact Hl|]. split; [exact Hi|].
    apply Hp, splitNewline_nonempty.
  - rewrite (splitNewline_single text Hnl). simpl. auto.
Qed.

Lemma noDoubleBlank_app (l xs : list string) :
  noDoubleBlank l → (∀ x, x ∈ xs → x ≠ "") → noDoubleBlank (l ++ xs).
Proof.
  intros Hl Hxs k Hk Hnext.
  assert (Hin : k < length l).
  { destruct (decide (k < length l)) as [|Hge]; [assumption|].
    rewrite lookup_app_r in Hk by lia.
    exfalso. eapply Hxs; [eapply list_elem_of_lookup_2; exact Hk | reflexivity]. }
  rewrite lookup_app_l in Hk by exact Hin.
  destruct (decide (S k < length l)) as [Hlt|Hge].
  - rewrite lookup_app_l in Hnext by exact Hlt. exact (Hl k Hk Hnext).
  - rewrite lookup_app_r in Hnext by lia.
    eapply Hxs; [eapply list_elem_of_lookup_2; exact Hnext | reflexivity].
Qed.

Lemma noDoubleBlank_gap (l : list string) :
  noDoubleBlank l → last l ≠ Some "" → noDoubleBlank (l ++ [""]).
Proof.
  intros Hl Hlast k Hk Hnext.
  destruct (decide (S k < length l)) as [Hlt|Hge].
  - rewrite lookup_app_l in Hk by lia.
    rewrite lookup_app_l in Hnext by exact Hlt. exact (Hl k Hk Hnext).
  - destruct (decide (S k = length l)) as [Heq|Hne].
    + rewrite lookup_app_l in Hk by lia. apply Hlast.
      rewrite last_lookup. rewrite <- Hk. f_equal. lia.
    + rewrite lookup_ge_None_2 in Hnext; [discriminate|].
      rewrite length_app. simpl. lia.
Qed.

Lemma line_tidy (text : string) (w : Writer) :
  tidy w →
  0 < indentLevel w ∨ (text ≠ "" ∧ stringIncludes text newline = false) →
  tidy (line text w).
Proof.
  intros (Hnl & Hblank & _) Hcase.
  destruct (line_spec text w) as (Hl & _ & Hp).
  set (pre := stringRepeat "    " (indentLevel w)) in *.
  assert (Hnonblank : ∀ x, x ∈ (λ ln, pre +:+ ln) <$> splitNewline text → x ≠ "").
  { intros x Hx. apply list_elem_of_fmap in Hx as (seg & -> & Hseg).
    destruct Hcase as [Hpos | [Hne Hno]].
    - subst pre. destruct (indentLevel w); [lia|]. discriminate.
    - rewrite (splitNewline_single text Hno) in Hseg.
      apply list_elem_of_singleton in Hseg as ->.
      destruct pre; [exact Hne | discriminate]. }
  split; [|split].
  - rewrite Hl. intros ln Hln. apply elem_of_app in Hln as [Hln|Hln]; [auto|].
    apply list_elem_of_fmap in Hln as (seg & -> & Hseg).
    apply stringIncludes_newline_app;
      [apply stringRepeat_no_newline | eapply splitNewline_segments; exact Hseg].
  - rewrite Hl. apply noDoubleBlank_app; assumption.
  - intros _. rewrite Hl. intros Hlast.
    pose proof (splitNewline_nonempty text) as Hne.
    destruct (splitNewline text) as [|seg segs] using rev_ind; [contradiction|].
    rewrite fmap_app, app_assoc in Hlast. simpl in Hlast.
    rewrite last_snoc in Hlast. injection Hlast as Hlast.
    apply (Hnonblank (pre +:+ seg)); [|exact Hlast].
    apply list_elem_of_fmap. exists seg. split; [reflexivity|].
    apply elem_of_app. right. left.
Qed.

Lemma gap_tidy (w : Writer) : tidy w → tidy (gap w).
Proof.
  intros (Hnl & Hblank & Hlast). unfold gap.
  destruct (printedGap w) eqn:Hp.
  { split; [exact Hnl|]. split; [exact Hblank|]. rewrite Hp. discriminate. }
  split; [|split]; simpl.
  - intros ln Hln. apply elem_of_app in Hln as [Hln|Hln]; [auto|].
    apply list_elem_of_singleton in Hln as ->. reflexivity.
  - apply noDoubleBlank_gap; auto.
  - discriminate.
Qed.

Lemma head_app_Some {A} (l l' : list A) (x : A) :
  head l = Some x → head (l ++ l') = Some x.
Proof. destruct l; [discriminate | trivial]. Qed.

Lemma line_reached (n : nat) (text : string) (w : Writer) :
  reached n w →
  0 < n ∨ (text ≠ "" ∧ stringIncludes text newline = false) →
  reached n (line text w).
Proof.
  intros (Htidy & Hn & Hhead) Hcase.
  destruct (line_spec text w) as (Hl & Hi & _).
  split; [apply line_tidy; [exact Htidy | rewrite Hn; exact Hcase]|].
  split; [congruence|]. rewrite Hl. apply head_app_Some, Hhead.
Qed.

Lemma gap_reached (n : nat) (w : Writer) : reached n w → reached n (gap w).
Proof.
  intros (Htidy & Hn & Hhead).
  split; [apply gap_tidy, Htidy|]. unfold gap.
  destruct (printedGap w); [auto|]. simpl. split; [exact Hn|].
  apply head_app_Some, Hhead.
Qed.

Lemma indent_reached (n : nat) (w : Writer) :
  reached n w → reached (n + 1) (indent w).
Proof. intros (Htidy & Hn & Hhead). split; [exact Htidy|]. simpl. auto. Qed.

Lemma dedent_reached (n : nat) (w : Writer) :
  reached n w → reached (n - 1) (dedent w).
Proof.
  intros (Htidy & Hn & Hhead). split; [exact Htidy|]. simpl.
  split; [lia | exact Hhead].
Qed.

Lemma reproFile_reached (dir : string) (files : gmap string string)
    (m : TrialModule) (w : Writer) :
  reached 1 w →
  match reproFile dir files m w with
  | Some w' => reached 1 w'
  | None => files !! codegenPath dir m = None
  end.
Proof.
  intros Hw. unfold reproFile.
  destruct (files !! codegenPath dir m) as [text|]; [|reflexivity].
  apply gap_reached.
  repeat (apply line_reached; [|left; lia]).
  apply gap_reached, Hw.
Qed.

(** X15: the reproduction document.  When the file of every module can be
    read, [generateReproduction] returns; its lines contain no line break
    (so they are the lines of the document), no two blank lines follow each
    other, the first line is the title, and the last lines are the lines of
    the failure text, each behind four spaces.  It fails only when the file
    of some module is missing. *)
Theorem reproLines_tidy (t : Trial) (version platform dir : string)
    (files : gmap string string) (failure : string) :
  match reproLines t version platform dir files failure with
  | Some l =>
      generateReproduction t version platform dir files failure
        = Some (join newline l) ∧
      (∀ ln, ln ∈ l → stringIncludes ln newline = false) ∧
      noDoubleBlank l ∧
      head l = Some "# Bundler bug reproduction" ∧
      ∃ before, l = before ++ ((λ ln, "    " +:+ ln) <$> splitNewline failure)
  | None => ∃ m, m ∈ modules t ∧ files !! codegenPath dir m = None
  end.
Proof.
  unfold generateReproduction, reproLines.
  set (w0 := {| lines := []; printedGap := false; indentLevel := 0 |}).
  assert (H1 : reached 0 (line "# Bundler bug reproduction" w0)).
  { split; [apply line_tidy|].
    - split; [intros ln Hln; inversion Hln|]. split; [|discriminate].
      intros k Hk. discriminate.
    - right. split; [discriminate | reflexivity].
    - split; reflexivity. }
  set (w1 := line "# Bundler bug reproduction" w0) in *.
  assert (Hfiles : reached 1
            (indent (gap (line "## Files" (dedent (gap
               (line ("- Platform: " +:+ platform)
                  (line ("- Bun version: " +:+ version)
                     (indent (gap (line "## Metadata" w1))))))))))).
  { apply (indent_reached 0), gap_reached.
    apply line_reached; [|right; split; [discriminate | reflexivity]].
    apply (dedent_reached 1), gap_reached.
    do 2 (apply line_reached; [|left; lia]).
    apply (indent_reached 0), gap_reached.
    apply line_reached; [|right; split; [discriminate | reflexivity]].
    exact H1. }
  set (wf := indent _) in *.
  assert (Hloop : ∀ ms w,
            reached 1 w →
            match forEach (reproFile dir files) ms w with
            | Some w' => reached 1 w'
            | None => ∃ m, m ∈ ms ∧ files !! codegenPath dir m = None
            end).
  { induction ms as [|m ms IH]; intros w Hw; simpl; [exact Hw|].
    pose proof (reproFile_reached dir files m w Hw) as Hm.
    destruct (reproFile dir files m w) as [w'|].
    - specialize (IH w' Hm).
      destruct (forEach _ ms w'); [exact IH|].
      destruct IH as (m' & Hin & Hnone). exists m'. split; [right|]; assumption.
    - exists m. split; [left | exact Hm]. }
  specialize (Hloop (modules t) wf Hfiles).
  destruct (forEach _ (modules t) wf) as [w2|]; [|exact Hloop].
  cbn [fmap option_fmap option_map].
  assert (Hentry : ∀ es w, reached 1 w →
            reached 1 (foldl (λ w entrypoint,
                                line ("- " +:+ id entrypoint +:+ ".ts") w) w es)).
  { induction es as [|e es IH]; intros w Hw; simpl; [exact Hw|].
    apply IH. apply line_reached; [exact Hw | left; lia]. }
  match goal with
  | |- context [line failure ?w] => assert (Hlast : reached 1 w); [|set (w3 := w) in *]
  end.
  { apply gap_reached, (indent_reached 0).
    apply line_reached; [|right; split; [discriminate | reflexivity]].
    apply gap_reached, (dedent_reached 1), Hentry.
    apply (indent_reached 0), gap_reached.
    apply line_reached; [|right; split; [discriminate | reflexivity]].
    apply gap_reached, (dedent_reached 1), Hloop. }
  pose proof (line_reached 1 failure w3 Hlast (or_introl (Nat.lt_0_1)))
    as ((Hnl & Hblank & _) & _ & Hhead).
  destruct (line_spec failure w3) as (Hl & _ & _).
  destruct Hlast as (_ & Hindent & _).
  split; [reflexivity|]. simpl.
  split; [exact Hnl|]. split; [exact Hblank|]. split; [exact Hhead|].
  exists (lines w3). rewrite Hl, Hindent. reflexivity.
Qed.

(** ** Writing the sources and reading them back *)

Lemma codegenPath_inj (dir : string) (m m' : TrialModule) :
  codegenPath dir m = codegenPath dir m' → id m = id m'.
Proof.
  unfold codegenPath. intros Heq.
  apply String.app_inj in Heq. apply String.app_inj in Heq.
  eapply string_app_inj_r. exact Heq.
Qed.

Lemma writeSources_lookup (dir : string) (t : Trial) (ms : list TrialModule)
    (files : gmap string string) :
  NoDup (id <$> ms) →
  let files' :=
    foldl (λ fs module, <[codegenPath dir module := codegenModule t module]> fs)
          files ms in
  (∀ m, m ∈ ms → files' !! codegenPath dir m = Some (codegenModule t m)) ∧
  (∀ path, (∀ m, m ∈ ms → path ≠ codegenPath dir m) →
           files' !! path = files !! path).
Proof.
  revert files. induction ms as [|m ms IH]; intros files Hnd; simpl.
  - split; [intros m Hm; inversion Hm | reflexivity].
  - rewrite fmap_cons in Hnd. apply NoDup_cons in Hnd as [Hfresh Hnd].
    destruct (IH (<[codegenPath dir m := codegenModule t m]> files) Hnd)
      as [Hwritten Hother].
    split.
    + intros m' Hm'. apply elem_of_cons in Hm' as [->|Hm']; [|auto].
      rewrite Hother; [apply lookup_insert_eq|].
      intros m' Hm' Heq. apply Hfresh.
      rewrite (codegenPath_inj _ _ _ Heq).
      apply list_elem_of_fmap. exists m'. auto.
    + intros path Hpath. rewrite Hother.
      * apply lookup_insert_ne. intros Heq. apply (Hpath m); [left | auto].
      * intros m' Hm'. apply Hpath. right. exact Hm'.
Qed.

Lemma forEach_None {A S} (body : A → S → option S) (xs : list A) (s : S) :
  forEach body xs s = None → ∃ x s', x ∈ xs ∧ body x s' = None.
Proof.
  revert s. induction xs as [|x xs IH]; intros s; simpl; [discriminate|].
  destruct (body x s) as [s'|] eqn:Hbody.
  - intros Hrest. destruct (IH s' Hrest) as (x' & s'' & Hin & Hnone).
    exists x', s''. split; [right|]; assumption.
  - intros _. exists x, s. split; [left | exact Hbody].
Qed.

Lemma generateReproduction_None (t : Trial) (version platform dir : string)
    (files : gmap string string) (failure : string) :
  generateReproduction t version platform dir files failure = None →
  ∃ m, m ∈ modules t ∧ files !! codegenPath dir m = None.
Proof.
  unfold generateReproduction, reproLines. cbv zeta.
  destruct (forEach _ _ _) eqn:Hloop; [discriminate|]. intros _.
  apply forEach_None in Hloop as (m & w & Hin & Hnone).
  exists m. split; [exact Hin|]. unfold reproFile in Hnone.
  destruct (files !! codegenPath dir m); [discriminate | reflexivity].
Qed.

(** X16: phase 2 of [run] and the reads of [generateReproduction] fit
    together.  For every planned trial, after the loop of writes the file of
    each module holds the text that [codegenModule] gives for it (no write of
    the loop replaced another), every other file is as it was, and
    [generateReproduction] on these files returns a document, whatever the
    failure text. *)
Theorem planned_sources_are_read_back (uuid dir : string)
    (files : gmap string string) :
  always (plan (newTrial uuid))
    (λ t, (∀ m, m ∈ modules t →
                writeSources dir t files !! codegenPath dir m
                  = Some (codegenModule t m)) ∧
          (∀ path, (∀ m, m ∈ modules t → path ≠ codegenPath dir m) →
                   writeSources dir t files !! path = files !! path) ∧
          ∀ version platform failure,
            is_Some (generateReproduction t version platform dir
                       (writeSources dir t files) failure)).
Proof.
  eapply always_mono; [apply plan_spec|].
  intros t [Hwf _]. cbn beta.
  destruct (writeSources_lookup dir t (modules t) files (wf_idsNoDup t Hwf))
    as [Hwritten Hother].
  split; [exact Hwritten|]. split; [exact Hother|].
  intros version platform failure.
  destruct (generateReproduction t version platform dir
              (writeSources dir t files) failure) as [doc|] eqn:Hdoc;
    [eexists; reflexivity|].
  apply generateReproduction_None in Hdoc as (m & Hin & Hnone).
  unfold writeSources in Hnone. rewrite (Hwritten m Hin) in Hnone. discriminate.
Qed.
